(** * Spatial weights container (pysal/weights/weights.py)

    A shallow embedding of the classes [W] and [WSP] of
    [pysal/weights/weights.py] and the properties of the container that
    the specification states: cache invalidation, the transformation
    registry, the observation order, the thin sparse proxy and the
    higher-order contiguity contract.

    Conventions of the embedding.
    - A Python [dict] is a [gmap]; its iteration order is the order of
      [map_to_list], which stands for the (arbitrary but fixed) hash order
      of the interpreter.
    - Region ids are Python ints or strings ([pyid]); Python 2 sorts every
      int before every string.
    - Python floats are IEEE binary64 numbers ([PrimFloat.float]).  The
      arithmetic the methods use is collected in the class [Arith], whose
      instance is the binary64 arithmetic the program runs on; what is
      proved for every instance of the class does not depend on rounding.
    - A method is a computation in the state-and-exception monad [M W]: it
      returns a value or raises, and the state it has written so far is kept
      in both cases, as in Python.
    - [self.weights] and [self.transformations[...]] may be one and the same
      dictionary object.  No method changes a stored dictionary or list in
      place (the dictionaries are read-only, [set_transform] builds new
      ones), so the sharing cannot be observed and the state holds values. *)

From Stdlib Require Import ZArith Floats String Ascii.
From stdpp Require Import gmap strings list fin_maps sorting.

Local Open Scope string_scope.

(** ** Region identifiers *)

Inductive pyid :=
| IdInt (z : Z)
| IdStr (s : string).

#[global] Instance pyid_eq_dec : EqDecision pyid.
Proof. solve_decision. Defined.

#[global] Instance pyid_countable : Countable pyid.
Proof.
  refine (inj_countable'
            (λ i, match i with IdInt z => inl z | IdStr s => inr s end)
            (λ x, match x with inl z => IdInt z | inr s => IdStr s end) _).
  by intros [].
Defined.

(** Python 2 ordering of mixed keys: numbers first, by value; then strings,
    lexicographically by character code. *)
Definition pyid_leb (a b : pyid) : bool :=
  match a, b with
  | IdInt x, IdInt y => (x <=? y)%Z
  | IdInt _, IdStr _ => true
  | IdStr _, IdInt _ => false
  | IdStr s, IdStr t => String.leb s t
  end.

Definition pyid_le (a b : pyid) : Prop := pyid_leb a b = true.

#[global] Instance pyid_le_dec : RelDecision pyid_le.
Proof. intros a b. unfold pyid_le. apply _. Defined.

(** [list.sort()] on the keys of a dictionary. *)
Definition py_sorted (l : list pyid) : list pyid := merge_sort pyid_le l.

(** ** Arithmetic *)

Class Arith (F : Type) := {
  fzero : F;
  fone : F;
  fadd : F → F → F;
  fsub : F → F → F;
  fmul : F → F → F;
  (** division of numpy scalars: total, the IEEE result on a zero divisor *)
  fdiv : F → F → F;
  (** [math.sqrt]: [None] is the [ValueError] of a negative argument *)
  fsqrt : F → option F;
  (** conversion of a Python int (a count) to float *)
  of_nat : nat → F;
  (** [x == 0] *)
  fis_zero : F → bool;
}.

(** The arithmetic of the program: binary64.  Counts are list lengths, which
    fit in 63 bits. *)
#[global] Instance float_arith : Arith float := {|
  fzero := 0%float;
  fone := 1%float;
  fadd := PrimFloat.add;
  fsub := PrimFloat.sub;
  fmul := PrimFloat.mul;
  fdiv := PrimFloat.div;
  fsqrt := λ x, if PrimFloat.ltb x 0%float then None else Some (PrimFloat.sqrt x);
  of_nat := λ n, PrimFloat.of_uint63 (Uint63.of_Z (Z.of_nat n));
  fis_zero := λ x, PrimFloat.eqb x 0%float;
|}.

(** Equality of two binary64 values, bit for bit. *)
#[global] Instance float_eq_dec : EqDecision float.
Proof.
  intros x y. destruct (PrimFloat.Leibniz.eqb x y) eqn:Hxy.
  - left. by apply FloatAxioms.Leibniz.eqb_spec.
  - right. intros Heq. apply FloatAxioms.Leibniz.eqb_spec in Heq. congruence.
Defined.

(** ** Exceptions and the method monad *)

Inductive exn :=
| KeyError
| IndexError
| ValueError
| TypeError
| AttributeError
| ZeroDivisionError
| StopIteration
(** [Exception, 'ordered_ids do not align with W ids'] *)
| OrderMismatch.

#[global] Instance exn_eq_dec : EqDecision exn.
Proof. solve_decision. Defined.

Inductive result (A : Type) :=
| Ok (a : A)
| Raise (e : exn).
Arguments Ok {A} a.
Arguments Raise {A} e.

Definition is_Ok {A} (r : result A) : bool :=
  match r with Ok _ => true | Raise _ => false end.

(** A method on an object of state [S]. *)
Definition M (S A : Type) : Type := S → result A * S.

Definition ret {S A} (a : A) : M S A := λ s, (Ok a, s).
Definition raise {S A} (e : exn) : M S A := λ s, (Raise e, s).
Definition bind {S A B} (m : M S A) (k : A → M S B) : M S B :=
  λ s, match m s with
       | (Ok a, s') => k a s'
       | (Raise e, s') => (Raise e, s')
       end.
(** reading a field of the object *)
Definition reads {S A} (f : S → A) : M S A := λ s, (Ok (f s), s).
Definition modify {S} (f : S → S) : M S unit := λ s, (Ok tt, f s).
Definition lift {S A} (r : result A) : M S A := λ s, (r, s).

#[global] Instance M_ret {S} : MRet (M S) := λ A a, ret a.
#[global] Instance M_bind {S} : MBind (M S) := λ A B k m, bind m k.

(** [for x in l: acc = body x acc] *)
Fixpoint for_each {S A B} (l : list A) (acc : B) (body : A → B → M S B) : M S B :=
  match l with
  | [] => ret acc
  | x :: l' => acc' ← body x acc; for_each l' acc' body
  end.

(** [d[k]] on a dictionary. *)
Definition subscript {K V} `{Countable K} (d : gmap K V) (k : K) : result V :=
  match d !! k with
  | Some v => Ok v
  | None => Raise KeyError
  end.

(** [dict(zip(ks, vs))]: a later pair overrides an earlier one. *)
Definition dict_of_zip {K V} `{Countable K} (ks : list K) (vs : list V) : gmap K V :=
  foldl (λ d kv, <[kv.1 := kv.2]> d) ∅ (zip ks vs).

#[global] Instance result_ret : MRet result := λ A a, Ok a.
#[global] Instance result_bind : MBind result :=
  λ A B k r, match r with Ok a => k a | Raise e => Raise e end.

(** ** Sparse matrices (scipy.sparse)

    A square sparse matrix is kept as its grid of cells: [None] for a
    position that is not stored, [Some x] for a stored entry (a stored entry
    may be an explicit zero).  Sums run over the stored entries in row-major
    order, the order of the canonical CSR data array. *)

Abbreviation mat F := (list (list (option F))).

Section matrix.
Context {F : Type} `{Arith F}.

Definition mzero (n : nat) : mat F := replicate n (replicate n None).

Definition cell (m : mat F) (i j : nat) : option F :=
  match m !! i with
  | Some r => match r !! j with Some c => c | None => None end
  | None => None
  end.

Definition entry (m : mat F) (i j : nat) : F := default fzero (cell m i j).

(** entries given twice for one position are summed *)
Definition store (x : F) (c : option F) : option F :=
  Some (match c with Some y => fadd y x | None => x end).

Definition add_entry (m : mat F) (t : nat * nat * F) : mat F :=
  alter (alter (store t.2) t.1.2) t.1.1 m.

(** [sparse.csr_matrix((data, (row, col)), shape=(n, n))] *)
Definition csr_matrix (data : list F) (row col : list nat) (n : nat)
  : result (mat F) :=
  if bool_decide (length row = length data ∧ length col = length data
                  ∧ Forall (λ i, i < n) row ∧ Forall (λ j, j < n) col)
  then Ok (foldl add_entry (mzero n) (zip (zip row col) data))
  else Raise ValueError.

Definition fsum (l : list F) : F := foldl fadd fzero l.

Definition row_data (r : list (option F)) : list F := omap id r.
Definition mdata (m : mat F) : list F := m ≫= row_data.

(** [m.sum()] *)
Definition msum (m : mat F) : F := fsum (mdata m).
(** [m.nnz] *)
Definition nnz (m : mat F) : nat := length (mdata m).

(** [m.transpose()] *)
Definition mtranspose (m : mat F) : mat F :=
  let n := length m in
  (λ j, (λ i, cell m i j) <$> seq 0 n) <$> seq 0 n.

Definition cell_plus (a b : option F) : option F :=
  match a, b with
  | Some x, Some y => Some (fadd x y)
  | Some x, None => Some x
  | None, Some y => Some y
  | None, None => None
  end.

Definition cell_minus (a b : option F) : option F :=
  match a, b with
  | Some x, Some y => Some (fsub x y)
  | Some x, None => Some x
  | None, Some y => Some (fsub fzero y)
  | None, None => None
  end.

Definition cell_times (a b : option F) : option F :=
  match a, b with
  | Some x, Some y => Some (fmul x y)
  | _, _ => None
  end.

Definition mzip (f : option F → option F → option F) (a b : mat F) : mat F :=
  zip_with (zip_with f) a b.

(** [a + b], [a - b], [a.multiply(b)] *)
Definition madd : mat F → mat F → mat F := mzip cell_plus.
Definition msub : mat F → mat F → mat F := mzip cell_minus.
Definition mmultiply : mat F → mat F → mat F := mzip cell_times.

(** [a * b], the matrix product *)
Definition matmul (a b : mat F) : mat F :=
  let n := length a in
  (λ i, (λ j, foldl (λ acc k, cell_plus acc (cell_times (cell a i k) (cell b k j)))
                    None (seq 0 n)) <$> seq 0 n) <$> seq 0 n.

(** [m.diagonal()] *)
Definition diagonal (m : mat F) : list F := (λ i, entry m i i) <$> seq 0 (length m).

(** [m.sum(1)] and [m.sum(0)] *)
Definition row_sums (m : mat F) : list F := (λ r, fsum (row_data r)) <$> m.
Definition col_sums (m : mat F) : list F := row_sums (mtranspose m).

(** [np.nonzero(m)] on a matrix in column format: the positions of the
    stored entries different from zero, column by column. *)
Definition nonzero_positions (m : mat F) : list (nat * nat) :=
  let n := length m in
  j ← seq 0 n;
  i ← seq 0 n;
  match cell m i j with
  | Some x => if fis_zero x then [] else [(i, j)]
  | None => []
  end.
End matrix.

(** ** Python values held in caches and memo attributes *)

Inductive pyval (F : Type) :=
| VSparse (m : mat F)                 (* a scipy sparse matrix *)
| VFloat (x : F)
| VInt (n : nat)
| VArray (a : list F)                 (* a numpy array of floats *)
| VCounts (d : gmap pyid nat)         (* id -> int *)
| VOffsets (d : gmap pyid (list nat)) (* id -> list of int *)
| VIds (l : list pyid)                (* a list of ids; [VIds []] is the empty list *)
| VHist (h : list (nat * nat))        (* a list of (bin, count) pairs *)
| VIndex (rows cols : list nat)       (* the pair of arrays of np.nonzero *)
| VRow (d : gmap pyid F)              (* id -> weight *)
| VRows (l : list (gmap pyid F)).
Arguments VSparse {F} m.
Arguments VFloat {F} x.
Arguments VInt {F} n.
Arguments VArray {F} a.
Arguments VCounts {F} d.
Arguments VOffsets {F} d.
Arguments VIds {F} l.
Arguments VHist {F} h.
Arguments VIndex {F} rows cols.
Arguments VRow {F} d.
Arguments VRows {F} l.

(** Use of a value at the type an operation needs.  The methods only ever
    store a value of the right kind in each attribute; any other kind is
    reported as [TypeError]. *)
Definition as_sparse {F} (v : pyval F) : result (mat F) :=
  match v with VSparse m => Ok m | _ => Raise TypeError end.
Definition as_float {F} (v : pyval F) : result F :=
  match v with VFloat x => Ok x | _ => Raise TypeError end.
Definition as_int {F} (v : pyval F) : result nat :=
  match v with VInt n => Ok n | _ => Raise TypeError end.
Definition as_array {F} (v : pyval F) : result (list F) :=
  match v with VArray a => Ok a | _ => Raise TypeError end.
Definition as_counts {F} (v : pyval F) : result (gmap pyid nat) :=
  match v with VCounts d => Ok d | _ => Raise TypeError end.
Definition as_offsets {F} (v : pyval F) : result (gmap pyid (list nat)) :=
  match v with VOffsets d => Ok d | _ => Raise TypeError end.

(** [[f(x) for x in l]] where [f] may raise *)
Fixpoint traverse {A B} (f : A → result B) (l : list A) : result (list B) :=
  match l with
  | [] => Ok []
  | x :: l' => y ← f x; ys ← traverse f l'; mret (y :: ys)
  end.

(** [x / y] on Python floats: a zero divisor raises.  (The weights are
    taken to be Python numbers, as a constructor is given them.  Where they
    are numpy scalars, as the values a "D" transformation leaves, a zero
    divisor yields [inf] or [nan] instead.  The properties below that depend
    on the outcome of such a division are stated for newly constructed
    containers; the others hold for a call that raises and for a call that
    returns alike.) *)
Definition py_div {F} `{Arith F} (x y : F) : result F :=
  if fis_zero y then Raise ZeroDivisionError else Ok (fdiv x y).

(** [str.upper()] *)
Definition upper_ascii (c : ascii) : ascii :=
  let n := nat_of_ascii c in
  if bool_decide (97 ≤ n ≤ 122)%nat then ascii_of_nat (n - 32) else c.

Fixpoint upper (s : string) : string :=
  match s with
  | EmptyString => EmptyString
  | String c s' => String (upper_ascii c) (upper s')
  end.

(** ** Objects with a cache dictionary and memo attributes *)

Class Cached (F S : Type) := {
  cache_of : S → gmap string (pyval F);
  with_cache : gmap string (pyval F) → S → S;
  attrs_of : S → gmap string (pyval F);
  with_attrs : gmap string (pyval F) → S → S;
}.

Section memo.
Context {F S : Type} `{Cached F S}.

(** [key in self._cache] *)
Definition cached (key : string) : M S bool :=
  λ s, (Ok (bool_decide (is_Some (cache_of s !! key))), s).

(** [self._cache[key] = v] *)
Definition cache_put (key : string) (v : pyval F) : M S unit :=
  modify (λ s, with_cache (<[key := v]> (cache_of s)) s).

(** [self.attr = v] and [self.attr] for the memo attributes *)
Definition setattr (attr : string) (v : pyval F) : M S unit :=
  modify (λ s, with_attrs (<[attr := v]> (attrs_of s)) s).
Definition getattr (attr : string) : M S (pyval F) :=
  λ s, match attrs_of s !! attr with
       | Some v => (Ok v, s)
       | None => (Raise AttributeError, s)
       end.

(** The shape of every memoized property:
    [if check not in self._cache: self.attr = compute; self._cache[store] = self.attr]
    and then [return self.attr]. *)
Definition memo (check store attr : string) (compute : M S (pyval F))
  : M S (pyval F) :=
  c ← cached check;
  (if c : bool then mret tt
   else v ← compute; setattr attr v;; v' ← getattr attr; cache_put store v');;
  getattr attr.
End memo.

(** ** The weights container [W] *)

(** The state of a [W] object.  [neighbors], [weights] and the registered
    [transformations] are read-only dictionaries; [_n] is written by
    [__init__] and by the property [n]; the other memo attributes ([_sparse],
    [_s0], ...) live in [attrs], where an attribute that was never assigned
    is absent. *)
Record W (F : Type) := mkW {
  neighbors : gmap pyid (list pyid);
  weights : gmap pyid (list F);
  transformations : gmap string (gmap pyid (list F));
  _transform : string;
  _id_order : list pyid;
  _id_order_set : bool;
  _n : nat;
  _cache : gmap string (pyval F);
  attrs : gmap string (pyval F);
}.
Arguments mkW {F}.
Arguments neighbors {F}.
Arguments weights {F}.
Arguments transformations {F}.
Arguments _transform {F}.
Arguments _id_order {F}.
Arguments _id_order_set {F}.
Arguments _n {F}.
Arguments _cache {F}.
Arguments attrs {F}.

Section W_fields.
Context {F : Type}.
Implicit Type w : W F.

Definition set_neighbors (x : gmap pyid (list pyid)) w : W F :=
  mkW x (weights w) (transformations w) (_transform w) (_id_order w)
      (_id_order_set w) (_n w) (_cache w) (attrs w).
Definition set_weights (x : gmap pyid (list F)) w : W F :=
  mkW (neighbors w) x (transformations w) (_transform w) (_id_order w)
      (_id_order_set w) (_n w) (_cache w) (attrs w).
Definition set_transformations (x : gmap string (gmap pyid (list F))) w : W F :=
  mkW (neighbors w) (weights w) x (_transform w) (_id_order w)
      (_id_order_set w) (_n w) (_cache w) (attrs w).
Definition set__transform (x : string) w : W F :=
  mkW (neighbors w) (weights w) (transformations w) x (_id_order w)
      (_id_order_set w) (_n w) (_cache w) (attrs w).
Definition set__id_order (x : list pyid) w : W F :=
  mkW (neighbors w) (weights w) (transformations w) (_transform w) x
      (_id_order_set w) (_n w) (_cache w) (attrs w).
Definition set__id_order_set (x : bool) w : W F :=
  mkW (neighbors w) (weights w) (transformations w) (_transform w) (_id_order w)
      x (_n w) (_cache w) (attrs w).
Definition set__n (x : nat) w : W F :=
  mkW (neighbors w) (weights w) (transformations w) (_transform w) (_id_order w)
      (_id_order_set w) x (_cache w) (attrs w).
Definition set__cache (x : gmap string (pyval F)) w : W F :=
  mkW (neighbors w) (weights w) (transformations w) (_transform w) (_id_order w)
      (_id_order_set w) (_n w) x (attrs w).
Definition set_attrs (x : gmap string (pyval F)) w : W F :=
  mkW (neighbors w) (weights w) (transformations w) (_transform w) (_id_order w)
      (_id_order_set w) (_n w) (_cache w) x.

#[global] Instance W_cached : Cached F (W F) := {|
  cache_of := _cache;
  with_cache := set__cache;
  attrs_of := attrs;
  with_attrs := set_attrs;
|}.
End W_fields.

(** Modelled from the spec: [ROD] of [pysal.common], the read-only
    dictionary wrapper, which is not part of this file.  A read-only copy of
    a dictionary is the dictionary itself as an immutable finite map. *)
Definition ROD {K V} `{Countable K} (d : gmap K V) : gmap K V := d.

Section W_methods.
Context {F : Type} `{Arith F}.
Abbreviation getter := (M (W F) (pyval F)).

(** [W._reset] *)
Definition _reset : M (W F) unit := modify (set__cache ∅).

(** [W.id2i] *)
Definition id2i : getter :=
  memo "id2i" "id2i" "_id2i"
    (ids ← reads _id_order;
     mret (VCounts (ROD (foldl (λ d p, <[p.2 := p.1]> d) ∅ (imap pair ids))))).

(** [W.n] *)
Definition n : getter :=
  c ← cached "n";
  (if c : bool then mret tt
   else nb ← reads neighbors;
        modify (set__n (size nb));;
        k ← reads _n; cache_put "n" (VInt k));;
  k ← reads _n; mret (VInt k).

(** [W.cardinalities] *)
Definition cardinalities : getter :=
  memo "cardinalities" "cardinalities" "_cardinalities"
    (ids ← reads _id_order;
     c ← for_each ids ∅
           (λ i c, nb ← reads neighbors;
                   l ← lift (subscript nb i);
                   mret (<[i := length l]> c));
     mret (VCounts c)).

(** [W.neighbor_offsets]; the attribute is [self.__neighbors_0] *)
Definition neighbor_offsets : getter :=
  c ← cached "neighbors_0";
  (if c : bool then mret tt
   else
     setattr "_W__neighbors_0" (VOffsets ∅);;
     iv ← id2i; i2 ← lift (as_counts iv);
     nb ← reads neighbors;
     for_each (map_to_list nb) tt
       (λ '(id, neigh_list) _,
          offs ← lift (traverse (subscript i2) neigh_list);
          cur ← getattr "_W__neighbors_0";
          d ← lift (as_offsets cur);
          setattr "_W__neighbors_0" (VOffsets (<[id := offs]> d)));;
     cur ← getattr "_W__neighbors_0";
     cache_put "neighbors_0" cur);;
  getattr "_W__neighbors_0".

(** [W._build_sparse] *)
Definition _build_sparse : M (W F) (mat F) :=
  iv ← id2i; i2 ← lift (as_counts iv);
  ov ← neighbor_offsets; offsets ← lift (as_offsets ov);
  '(row, col, data) ←
    for_each (map_to_list offsets) ([], [], [])
      (λ '(id, neigh_list) '(row, col, data),
         cv ← cardinalities; cards ← lift (as_counts cv);
         card ← lift (subscript cards id);
         ix ← lift (subscript i2 id);
         wts ← reads weights;
         ws ← lift (subscript wts id);
         mret ((row ++ replicate card ix)%list, (col ++ neigh_list)%list,
               (data ++ ws)%list));
  n1 ← n; rows ← lift (as_int n1);
  n2 ← n; cols ← lift (as_int n2);
  if bool_decide (rows = cols) then lift (csr_matrix data row col rows)
  else raise ValueError.

(** [W.sparse] *)
Definition sparse : getter :=
  memo "sparse" "sparse" "_sparse" (m ← _build_sparse; mret (VSparse m)).

Definition the_sparse : M (W F) (mat F) := v ← sparse; lift (as_sparse v).

(** [W.s0] *)
Definition s0 : getter :=
  memo "s0" "s0" "_s0" (m ← the_sparse; mret (VFloat (msum m))).

(** [W.s1] *)
Definition s1 : getter :=
  memo "s1" "s1" "_s1"
    (m1 ← the_sparse;
     let t := mtranspose m1 in
     m2 ← the_sparse;
     let t := madd t m2 in
     let t2 := mmultiply t t in
     mret (VFloat (fdiv (msum t2) (of_nat 2)))).

(** [W.s2array] *)
Definition s2array : getter :=
  memo "s2array" "s2array" "_s2array"
    (s ← the_sparse;
     mret (VArray (zip_with (λ r c, let t := fadd r c in fmul t t)
                            (row_sums s) (col_sums s)))).

Definition array_sum (g : getter) : getter :=
  v ← g; a ← lift (as_array v); mret (VFloat (fsum a)).

(** [W.s2] *)
Definition s2 : getter := memo "s2" "s2" "_s2" (array_sum s2array).

(** [W.diagW2]: the key tested is ['diagw2'], the key stored ['diagW2'] *)
Definition diagW2 : getter :=
  memo "diagw2" "diagW2" "_diagW2"
    (m1 ← the_sparse; m2 ← the_sparse;
     mret (VArray (diagonal (matmul m1 m2)))).

(** [W.trcW2]: the key tested is ['trcW2'], the key stored ['trcw2'] *)
Definition trcW2 : getter := memo "trcW2" "trcw2" "_trcW2" (array_sum diagW2).

(** [W.diagWtW] *)
Definition diagWtW : getter :=
  memo "diagWtW" "diagWtW" "_diagWtW"
    (m1 ← the_sparse; m2 ← the_sparse;
     mret (VArray (diagonal (matmul (mtranspose m1) m2)))).

(** [W.trcWtW] *)
Definition trcWtW : getter := memo "trcWtW" "trcWtW" "_trcWtW" (array_sum diagWtW).

(** [W.diagWtW_WW] *)
Definition diagWtW_WW : getter :=
  memo "diagWtW_WW" "diagWtW_WW" "_diagWtW_WW"
    (m1 ← the_sparse;
     let wt := mtranspose m1 in
     w ← the_sparse;
     mret (VArray (diagonal (madd (matmul wt w) (matmul w w))))).

(** [W.trcWtW_WW] *)
Definition trcWtW_WW : getter :=
  memo "trcWtW_WW" "trcWtW_WW" "_trcWtW_WW" (array_sum diagWtW_WW).

(** [W.pct_nonzero] *)
Definition pct_nonzero : getter :=
  memo "pct_nonzero" "pct_nonzero" "_pct_nonzero"
    (m ← the_sparse;
     k ← reads _n;
     x ← lift (py_div (of_nat (nnz m)) (fmul fone (of_nat (k ^ 2))));
     mret (VFloat x)).

(** [self.cardinalities.values()] *)
Definition cardinality_values : M (W F) (list nat) :=
  cv ← cardinalities; c ← lift (as_counts cv);
  mret ((map_to_list c).*2).

(** [max] and [min] of a list of ints; [ValueError] on the empty list *)
Definition py_max (l : list nat) : result nat :=
  match l with [] => Raise ValueError | x :: l' => Ok (foldl Nat.max x l') end.
Definition py_min (l : list nat) : result nat :=
  match l with [] => Raise ValueError | x :: l' => Ok (foldl Nat.min x l') end.

(** [W.max_neighbors] *)
Definition max_neighbors : getter :=
  memo "max_neighbors" "max_neighbors" "_max_neighbors"
    (l ← cardinality_values; x ← lift (py_max l); mret (VInt x)).

(** [np.mean] of a list of ints *)
Definition np_mean (l : list F) : F := fdiv (fsum l) (of_nat (length l)).

(** [W.mean_neighbors]: the key tested is ['max_neighbors'] *)
Definition mean_neighbors : getter :=
  memo "max_neighbors" "mean_neighbors" "_mean_neighbors"
    (l ← cardinality_values; mret (VFloat (np_mean (of_nat <$> l)))).

(** [W.min_neighbors] *)
Definition min_neighbors : getter :=
  memo "min_neighbors" "min_neighbors" "_min_neighbors"
    (l ← cardinality_values; x ← lift (py_min l); mret (VInt x)).

(** [W.nonzero] *)
Definition nonzero : getter :=
  memo "nonzero" "nonzero" "_nonzero" (m ← the_sparse; mret (VInt (nnz m))).

(** [np.std]: the square root of the mean squared deviation *)
Definition np_std (l : list F) : result F :=
  let mu := np_mean l in
  let v := np_mean ((λ x, let d := fsub x mu in fmul d d) <$> l) in
  match fsqrt v with Some r => Ok r | None => Raise ValueError end.

(** [W.sd] *)
Definition sd : getter :=
  memo "sd" "sd" "_sd"
    (l ← cardinality_values; x ← lift (np_std (of_nat <$> l)); mret (VFloat x)).

(** [W.asymmetry] *)
Definition asymmetry : getter :=
  m1 ← the_sparse;
  let t := mtranspose m1 in
  m2 ← the_sparse;
  let wd := msub t m2 in
  let ids := nonzero_positions wd in
  if bool_decide (length ids.*1 = 0) then mret (VIds [])
  else mret (VIndex ids.*1 ids.*2).

(** [W.asymmetries] *)
Definition asymmetries : getter :=
  memo "asymmetries" "asymmetries" "_asymmetries" asymmetry.

(** [W.islands] *)
Definition islands : getter :=
  memo "islands" "islands" "_islands"
    (cv ← cardinalities; c ← lift (as_counts cv);
     mret (VIds ((filter (λ ic, ic.2 = 0) (map_to_list c)).*1))).

(** [np.histogram(values, range(lo, hi + 2))] zipped with its bins: one
    pair per integer of [lo..hi], with the number of values equal to it. *)
Definition np_histogram (values : list nat) (lo hi : nat) : list (nat * nat) :=
  (λ b, (b, length (filter (λ v, v = b) values))) <$> seq lo (hi + 1 - lo).

(** [W.histogram] *)
Definition histogram : getter :=
  memo "histogram" "histogram" "_histogram"
    (l ← cardinality_values;
     lo ← min_neighbors; lo ← lift (as_int lo);
     hi ← max_neighbors; hi ← lift (as_int hi);
     mret (VHist (np_histogram l lo hi))).

(** [W.__getitem__] *)
Definition __getitem__ (key : pyid) : getter :=
  nb ← reads neighbors;
  ns ← lift (subscript nb key);
  wts ← reads weights;
  ws ← lift (subscript wts key);
  mret (VRow (dict_of_zip ns ws)).
End W_methods.

Section W_transform.
Context {F : Type} `{Arith F}.

(** [W.get_transform] *)
Definition get_transform : M (W F) string := reads _transform.

(** [self.transformations[value] = weights; self.weights = weights;
    self._reset()], the common tail of the computed transformations *)
Definition install (value : string) (weights : gmap pyid (list F)) : M (W F) unit :=
  let weights := ROD weights in
  modify (λ w, set_transformations (<[value := weights]> (transformations w)) w);;
  modify (set_weights weights);;
  _reset.

(** [value == "R"]: row standardized weights *)
Definition row_standardized : M (W F) (gmap pyid (list F)) :=
  current ← reads weights;
  for_each (map_to_list current) ∅
    (λ '(i, wijs) weights,
       let row_sum := fmul (fsum wijs) fone in
       r ← lift (traverse (λ wij, py_div wij row_sum) wijs);
       mret (<[i := r]> weights)).

(** [value == "D"]: doubly-standardized weights; the characteristics are
    updated before the global sum is taken *)
Definition doubly_standardized : M (W F) (gmap pyid (list F)) :=
  _reset;;
  sv ← s0; s0 ← lift (as_float sv);
  let ws := fdiv fone s0 in
  current ← reads weights;
  mret ((λ wijs : list F, (λ wij, fmul wij ws) <$> wijs) <$> current).

(** [value == "B"]: binary transformation *)
Definition binary : M (W F) (gmap pyid (list F)) :=
  current ← reads weights;
  mret ((λ wijs : list F, (λ _, fone) <$> wijs) <$> current).

(** [value == "V"]: variance stabilizing *)
Definition variance_stabilized : M (W F) (gmap pyid (list F)) :=
  k ← cardinalities;
  current ← reads weights;
  '(s, Q) ← for_each (map_to_list current) (∅, fzero)
    (λ '(i, wijs) '(s, Q),
       qi ← lift (match fsqrt (fsum ((λ wij, fmul wij wij) <$> wijs)) with
                  | Some q => Ok q
                  | None => Raise ValueError
                  end);
       si ← lift (traverse (λ wij, py_div wij qi) wijs);
       mret (<[i := si]> s, fadd Q (fsum si)));
  nv ← n; nn ← lift (as_int nv);
  nQ ← lift (py_div (of_nat nn) Q);
  current ← reads weights;
  for_each (map_to_list current) ∅
    (λ '(i, _) weights,
       si ← lift (subscript s i);
       mret (<[i := (λ x, fmul x nQ) <$> si]> weights)).

(** [W.set_transform].  The result is what the call prints. *)
Definition set_transform (value : string) : M (W F) (list string) :=
  let value := upper value in
  modify (set__transform value);;
  registry ← reads transformations;
  match registry !! value with
  | Some ws => modify (set_weights ws);; _reset;; mret []
  | None =>
    if String.eqb value "R" then
      weights ← row_standardized; install value weights;; mret []
    else if String.eqb value "D" then
      weights ← doubly_standardized; install value weights;; mret []
    else if String.eqb value "B" then
      weights ← binary; install value weights;; mret []
    else if String.eqb value "V" then
      weights ← variance_stabilized; install value weights;; mret []
    else if String.eqb value "O" then
      (* put weights back to original transformation *)
      registry ← reads transformations;
      original ← lift (subscript registry value);
      modify (set_weights original);; _reset;; mret []
    else
      mret ["unsupported weights transformation"]
  end.

(** [W.__set_id_order] *)
Definition __set_id_order (ordered_ids : list pyid) : M (W F) unit :=
  ids ← reads _id_order;
  if bool_decide (list_to_set ids =@{gset pyid} list_to_set ordered_ids)
  then
    modify (set__id_order ordered_ids);;
    setattr "_idx" (VInt 0);;
    modify (set__id_order_set true);;
    _reset
  else raise OrderMismatch.

(** [W.__get_id_order] *)
Definition __get_id_order : M (W F) (list pyid) := reads _id_order.

(** [W.id_order_set] *)
Definition id_order_set : M (W F) bool := reads _id_order_set.

(** [W.__init__].  The object starts with no attribute; the fields that
    are not assigned yet hold placeholders, all overwritten before the
    constructor returns.  [self.transform = 'O'] goes through the property
    setter [set_transform]. *)
Definition __init__ (neighbors0 : gmap pyid (list pyid))
    (weights0 : option (gmap pyid (list F)))
    (id_order0 : option (list pyid)) : result unit * W F :=
  let blank := mkW ∅ ∅ ∅ "" [] false 0 ∅ ∅ in
  (modify (set_transformations ∅);;
   modify (set_neighbors (ROD neighbors0));;
   let weights1 :=
     match weights0 with
     | Some ws => if bool_decide (ws = ∅)
                  then (λ l, replicate (length l) fone) <$> neighbors0
                  else ws
     | None => (λ l, replicate (length l) fone) <$> neighbors0
     end in
   modify (set_weights (ROD weights1));;
   current ← reads weights;
   modify (λ w, set_transformations (<["O" := current]> (transformations w)) w);;
   set_transform "O";;
   match id_order0 with
   | None =>
     nb ← reads neighbors;
     modify (set__id_order (py_sorted (map_to_list nb).*1));;
     modify (set__id_order_set false)
   | Some ids =>
     modify (set__id_order ids);;
     modify (set__id_order_set true)
   end;;
   _reset;;
   current ← reads weights;
   modify (set__n (size current))) blank.

(** The constructed object, when the constructor returns. *)
Definition W_new (neighbors0 : gmap pyid (list pyid))
    (weights0 : option (gmap pyid (list F)))
    (id_order0 : option (list pyid)) : result (W F) :=
  match __init__ neighbors0 weights0 id_order0 with
  | (Ok _, w) => Ok w
  | (Raise e, _) => Raise e
  end.
End W_transform.

(** ** Iteration over a container *)

(** The iterator object [_W_iter] of [W.__iter__]: it refers to the
    container ([self.w]) and owns its position [_idx]; [iter_n] is its
    attribute [n]. *)
Record _W_iter := mkIter {
  iter_n : nat;
  _idx : nat;
}.

Section W_iteration.
Context {F : Type} `{Arith F}.

(** a method of the container, run from the iterator through [self.w] *)
Definition on_w {A} (m : M (W F) A) : M (W F * _W_iter) A :=
  λ s, let '(r, w') := m s.1 in (r, (w', s.2)).

Definition set_idx (i : nat) : M (W F * _W_iter) unit :=
  modify (λ s, (s.1, mkIter (iter_n s.2) i)).

(** [W.__iter__]: [_W_iter(self)] *)
Definition __iter__ : M (W F) _W_iter :=
  ids ← reads _id_order; mret (mkIter (length ids) 0).

(** [_W_iter.next] *)
Definition next : M (W F * _W_iter) (pyval F) :=
  it ← reads snd;
  if bool_decide (iter_n it ≤ _idx it)%nat then
    set_idx 0;; raise StopIteration
  else
    ids ← on_w (reads _id_order);
    key ← lift (match ids !! _idx it with
                | Some k => Ok k
                | None => Raise IndexError
                end);
    value ← on_w (__getitem__ key);
    it ← reads snd;
    set_idx (_idx it + 1);;
    mret value.

(** [for w_i in it: rows.append(w_i)]: [next] is called until it raises
    [StopIteration]; any other exception leaves the loop.  The iterator
    stops after at most [iter_n] values, which bounds the loop. *)
Fixpoint drain (bound : nat) (rows : list (pyval F))
  : M (W F * _W_iter) (list (pyval F)) :=
  λ s, match next s with
       | (Ok v, s') =>
         match bound with
         | 0 => (Ok (rows ++ [v])%list, s')
         | S b => drain b (rows ++ [v])%list s'
         end
       | (Raise StopIteration, s') => (Ok rows, s')
       | (Raise e, s') => (Raise e, s')
       end.

(** [list(w)]: a fresh iterator, run to its end *)
Definition iterate : M (W F) (list (pyval F)) :=
  λ w, match __iter__ w with
       | (Ok it, w1) =>
         let '(r, s) := drain (iter_n it) [] (w1, it) in (r, s.1)
       | (Raise e, w1) => (Raise e, w1)
       end.
End W_iteration.

(** ** The thin sparse proxy [WSP] *)

Record WSP (F : Type) := mkWSP {
  wsp_sparse : mat F;
  wsp_n : nat;
  wsp_cache : gmap string (pyval F);
  wsp_attrs : gmap string (pyval F);
}.
Arguments mkWSP {F}.
Arguments wsp_sparse {F}.
Arguments wsp_n {F}.
Arguments wsp_cache {F}.
Arguments wsp_attrs {F}.

#[global] Instance WSP_cached {F} : Cached F (WSP F) := {|
  cache_of := wsp_cache;
  with_cache := λ c s, mkWSP (wsp_sparse s) (wsp_n s) c (wsp_attrs s);
  attrs_of := wsp_attrs;
  with_attrs := λ a s, mkWSP (wsp_sparse s) (wsp_n s) (wsp_cache s) a;
|}.

Module Wsp.
Section methods.
Context {F : Type} `{Arith F}.

(** [WSP.__init__]; an empty [weights] stands for [np.ones(len(row))] *)
Definition __init__ (n : nat) (row col : list nat) (weights : list F)
  : result (WSP F) :=
  let weights :=
    match weights with
    | [] => replicate (length row) fone
    | _ => weights
    end in
  m ← csr_matrix weights row col n;
  mret (mkWSP m n ∅ ∅).

(** [WSP.s0] *)
Definition s0 : M (WSP F) (pyval F) :=
  memo "s0" "s0" "_s0" (m ← reads wsp_sparse; mret (VFloat (msum m))).

(** [WSP.diagWtW_WW] *)
Definition diagWtW_WW : M (WSP F) (pyval F) :=
  memo "diagWtW_WW" "diagWtW_WW" "_diagWtW_WW"
    (m ← reads wsp_sparse;
     let wt := mtranspose m in
     w ← reads wsp_sparse;
     mret (VArray (diagonal (madd (matmul wt w) (matmul w w))))).

(** [WSP.trcWtW_WW] *)
Definition trcWtW_WW : M (WSP F) (pyval F) :=
  memo "trcWtW_WW" "trcWtW_WW" "_trcWtW_WW"
    (v ← diagWtW_WW; a ← lift (as_array v); mret (VFloat (fsum a))).
End methods.
End Wsp.

(** ** Higher-order contiguity *)

Section contiguity.
Context {F : Type} `{Arith F}.






End contiguity.




(** ** Queries and mutations of a container *)

(** The read-only queries of the class. *)
Inductive query :=
| Q_sparse | Q_s0 | Q_s1 | Q_s2 | Q_s2array
| Q_trcW2 | Q_diagW2 | Q_trcWtW | Q_diagWtW | Q_trcWtW_WW | Q_diagWtW_WW
| Q_pct_nonzero | Q_nonzero | Q_cardinalities
| Q_max_neighbors | Q_min_neighbors | Q_mean_neighbors | Q_sd
| Q_histogram | Q_islands | Q_asymmetries | Q_asymmetry
| Q_id2i | Q_neighbor_offsets | Q_n
| Q_getitem (key : pyid)
| Q_iterate.

Section W_queries.
Context {F : Type} `{Arith F}.

Definition run_query (q : query) : M (W F) (pyval F) :=
  match q with
  | Q_sparse => sparse
  | Q_s0 => s0
  | Q_s1 => s1
  | Q_s2 => s2
  | Q_s2array => s2array
  | Q_trcW2 => trcW2
  | Q_diagW2 => diagW2
  | Q_trcWtW => trcWtW
  | Q_diagWtW => diagWtW
  | Q_trcWtW_WW => trcWtW_WW
  | Q_diagWtW_WW => diagWtW_WW
  | Q_pct_nonzero => pct_nonzero
  | Q_nonzero => nonzero
  | Q_cardinalities => cardinalities
  | Q_max_neighbors => max_neighbors
  | Q_min_neighbors => min_neighbors
  | Q_mean_neighbors => mean_neighbors
  | Q_sd => sd
  | Q_histogram => histogram
  | Q_islands => islands
  | Q_asymmetries => asymmetries
  | Q_asymmetry => asymmetry
  | Q_id2i => id2i
  | Q_neighbor_offsets => neighbor_offsets
  | Q_n => n
  | Q_getitem key => __getitem__ key
  | Q_iterate =>
    λ w, match iterate w with
         | (Ok rows, w') =>
           (Ok (VRows (omap (λ v, match v with VRow d => Some d | _ => None end)
                            rows)), w')
         | (Raise e, w') => (Raise e, w')
         end
  end.

(** The results of a sequence of queries, each run in the state the
    previous one left. *)
Fixpoint observe (qs : list query) (w : W F) : list (result (pyval F)) :=
  match qs with
  | [] => []
  | q :: qs' => let '(r, w') := run_query q w in r :: observe qs' w'
  end.

(** [w.transform = v1; w.transform = v2; ...], an exception raised by one
    assignment being caught by the caller *)
Definition run_transforms (vs : list string) (w : W F) : W F :=
  foldl (λ w v, (set_transform v w).2) w vs.

(** The two operations that change the weights or the observation order. *)
Inductive mutation :=
| Set_transform (value : string)
| Set_id_order (ordered_ids : list pyid).

Definition mutate (mu : mutation) : M (W F) (list string) :=
  match mu with
  | Set_transform value => set_transform value
  | Set_id_order ordered_ids => __set_id_order ordered_ids;; mret []
  end.
End W_queries.

(** The derived statistics whose cached value must never outlive a change
    of the weights or of the order. *)
Definition derived (q : query) : bool :=
  match q with
  | Q_sparse | Q_s0 | Q_s1 | Q_s2 | Q_trcW2 | Q_trcWtW | Q_trcWtW_WW
  | Q_pct_nonzero | Q_cardinalities | Q_histogram | Q_islands
  | Q_id2i | Q_neighbor_offsets => true
  | _ => false
  end.

(** Each memoized property reads its attribute back when the key it tests is
    in the cache: the pairs (key tested, attribute) of the derived statistics
    and of the properties they call. *)
Definition live : list (string * string) :=
  [("sparse", "_sparse"); ("id2i", "_id2i"); ("s0", "_s0"); ("s1", "_s1");
   ("s2array", "_s2array"); ("s2", "_s2"); ("trcW2", "_trcW2");
   ("diagw2", "_diagW2"); ("diagWtW", "_diagWtW"); ("trcWtW", "_trcWtW");
   ("diagWtW_WW", "_diagWtW_WW"); ("trcWtW_WW", "_trcWtW_WW");
   ("pct_nonzero", "_pct_nonzero"); ("cardinalities", "_cardinalities");
   ("max_neighbors", "_max_neighbors"); ("min_neighbors", "_min_neighbors");
   ("histogram", "_histogram"); ("islands", "_islands");
   ("neighbors_0", "_W__neighbors_0")].

Section W_relations.
Context {F : Type}.

(** Two states of a container that differ at most in memo attributes no
    property can read: same data, same cache, and the same value in every
    attribute whose key is in the cache and in every attribute of [X]. *)
Definition agree (X : gset string) (w1 w2 : W F) : Prop :=
  neighbors w1 = neighbors w2 ∧ weights w1 = weights w2
  ∧ transformations w1 = transformations w2 ∧ _transform w1 = _transform w2
  ∧ _id_order w1 = _id_order w2 ∧ _id_order_set w1 = _id_order_set w2
  ∧ _n w1 = _n w2 ∧ _cache w1 = _cache w2
  ∧ (∀ k a, (k, a) ∈ live → is_Some (_cache w1 !! k) →
            attrs w1 !! a = attrs w2 !! a)
  ∧ (∀ a, a ∈ X → attrs w1 !! a = attrs w2 !! a).

(** The data of a container, as opposed to its cache and memo attributes. *)
Definition same_data (w w' : W F) : Prop :=
  neighbors w' = neighbors w ∧ weights w' = weights w
  ∧ transformations w' = transformations w ∧ _transform w' = _transform w
  ∧ _id_order w' = _id_order w ∧ _id_order_set w' = _id_order_set w.

(** [len(a[id]) == len(b[id])] for every id, over the same ids *)
Definition same_shape {A B} (a : gmap pyid (list A)) (b : gmap pyid (list B)) : Prop :=
  ∀ i, length <$> a !! i = length <$> b !! i.

(** every id listed as a neighbor is itself a unit *)
Definition closed (nb : gmap pyid (list pyid)) : Prop :=
  map_Forall (λ _ l, Forall (λ j, is_Some (nb !! j)) l) nb.

(** an observation order that is a permutation of the ids *)
Definition is_order (nb : gmap pyid (list pyid)) (ids : list pyid) : Prop :=
  NoDup ids ∧ list_to_set ids =@{gset pyid} dom nb.
End W_relations.

(** ** Specification vocabulary *)

(** [stable R m]: running [m] takes a state to an [R]-related one, whether
    it returns or raises. *)
Definition stable {S A} (R : relation S) (m : M S A) : Prop := ∀ s, R s (m s).2.

(** A loop whose body does not touch the object. *)
Fixpoint fold_result {A B} (g : A → B → result B) (l : list A) (acc : B) : result B :=
  match l with
  | [] => Ok acc
  | x :: l' => acc' ← g x acc; fold_result g l' acc'
  end.

Definition unsupported_message : string := "unsupported weights transformation".

Section W_vocabulary.
Context {F : Type} `{Arith F}.

(** What a query may do to a container: keep its data and add cache keys. *)
Definition frame (w w' : W F) : Prop :=
  same_data w w' ∧ dom (_cache w) ⊆ dom (_cache w').

Definition frame_it (s s' : W F * _W_iter) : Prop := frame s.1 s'.1.

(** the weights [__init__] stores: the argument, or unit weights when it
    is missing or empty *)
Definition initial_weights (nb : gmap pyid (list pyid))
    (ws : option (gmap pyid (list F))) : gmap pyid (list F) :=
  match ws with
  | Some ws => if bool_decide (ws = ∅)
               then (λ l, replicate (length l) fone) <$> nb
               else ws
  | None => (λ l, replicate (length l) fone) <$> nb
  end.

Definition initial_order (nb : gmap pyid (list pyid)) (ord : option (list pyid))
  : list pyid :=
  match ord with
  | Some ids => ids
  | None => py_sorted (map_to_list nb).*1
  end.

(** [self.transformations[u] = m; self.weights = m; self._reset()] as a
    function of the state *)
Definition installed (u : string) (m : gmap pyid (list F)) (w : W F) : W F :=
  set__cache ∅ (set_weights m (set_transformations (<[u := m]> (transformations w)) w)).

(** [sim X m]: run in two states that agree, [m] gives the same result and
    leaves states that agree. *)
Definition sim {A} (X : gset string) (m : M (W F) A) : Prop :=
  ∀ w1 w2, agree X w1 w2 →
           (m w1).1 = (m w2).1 ∧ agree X (m w1).2 (m w2).2.

(** A computation of a new weights mapping from the current one: it
    leaves the data alone and, when it returns, returns a mapping of the
    shape of the current weights. *)
Definition computes (c : M (W F) (gmap pyid (list F))) : Prop :=
  ∀ w, same_data w (c w).2 ∧ ∀ m, (c w).1 = Ok m → same_shape (weights w) m.

(** the weights keep the shape of the neighbors, and so does every
    registered mapping *)
Definition shaped (nb : gmap pyid (list pyid)) (w : W F) : Prop :=
  neighbors w = nb ∧ same_shape nb (weights w)
  ∧ ∀ k m, transformations w !! k = Some m → same_shape nb m.

(** The four ways a call [set_transform(value)] can end, [u] being the
    upper-cased value: a registered mapping is swapped in; a mapping of
    the shape of the current weights is computed, registered and made
    current; the computation raises, with the data untouched but for the
    designation; or the value is reported as unsupported. *)
Inductive transform_outcome (w : W F) (u : string)
  : result (list string) → W F → Prop :=
| outcome_swap m :
    transformations w !! u = Some m →
    transform_outcome w u (Ok []) (set__cache ∅ (set_weights m (set__transform u w)))
| outcome_computed m w1 :
    transformations w !! u = None →
    u ∈ ["R"; "D"; "B"; "V"] →
    same_data (set__transform u w) w1 →
    same_shape (weights w) m →
    transform_outcome w u (Ok []) (installed u m w1)
| outcome_raised e w1 :
    transformations w !! u = None →
    same_data (set__transform u w) w1 →
    transform_outcome w u (Raise e) w1
| outcome_unsupported :
    transformations w !! u = None →
    u ∉ ["R"; "D"; "B"; "V"; "O"] →
    transform_outcome w u (Ok [unsupported_message]) (set__transform u w).
End W_vocabulary.

(** ** The sparse matrix of a well-formed container *)

(** [hoare P m Q]: from a state in [P], the method [m] returns (it does not
    raise) a value and a state in [Q]. *)
Definition hoare {S A} (P : S → Prop) (m : M S A) (Q : A → S → Prop) : Prop :=
  ∀ s, P s → ∃ a s', m s = (Ok a, s') ∧ Q a s'.

Section canonical.
Context {F : Type} `{Arith F}.
Context (nb : gmap pyid (list pyid)) (wts : gmap pyid (list F)) (ids : list pyid).

(** the value of [id2i]: the position of each id in the order *)
Definition index_map : gmap pyid nat :=
  foldl (λ d p, <[p.2 := p.1]> d) ∅ (imap pair ids).

(** the value of [cardinalities] *)
Definition cardinality_map : gmap pyid nat :=
  foldl (λ c i, <[i := length (default [] (nb !! i))]> c) ∅ ids.

(** the value of [neighbor_offsets] *)
Definition offsets_of (neigh_list : list pyid) : list nat :=
  (λ j, default 0 (index_map !! j)) <$> neigh_list.
Definition offsets_map : gmap pyid (list nat) := offsets_of <$> nb.

(** the three arrays [_build_sparse] collects *)
Definition collect (acc : list nat * list nat * list F) (item : pyid * list nat)
  : list nat * list nat * list F :=
  let '(row, col, data) := acc in
  let '(id, neigh_list) := item in
  ((row ++ replicate (default 0 (cardinality_map !! id))
                     (default 0 (index_map !! id)))%list,
   (col ++ neigh_list)%list,
   (data ++ default [] (wts !! id))%list).

Definition collected : list nat * list nat * list F :=
  foldl collect ([], [], []) (map_to_list offsets_map).

(** the value of [sparse] *)
Definition sparse_matrix : mat F :=
  let '(row, col, data) := collected in
  foldl add_entry (mzero (size nb)) (zip (zip row col) data).

(** The states of a container with neighbors [nb], weights [wts] and order
    [ids] in which every cached statistic of the sparse matrix holds its
    value.  [pending] is the partly filled offsets dictionary while
    [neighbor_offsets] is being computed. *)
Definition consistent (pending : option (gmap pyid (list nat))) (w : W F) : Prop :=
  neighbors w = nb ∧ weights w = wts ∧ _id_order w = ids ∧ _n w = size nb
  ∧ (is_Some (_cache w !! "id2i") → attrs w !! "_id2i" = Some (VCounts index_map))
  ∧ (is_Some (_cache w !! "cardinalities") →
     attrs w !! "_cardinalities" = Some (VCounts cardinality_map))
  ∧ (is_Some (_cache w !! "sparse") →
     attrs w !! "_sparse" = Some (VSparse sparse_matrix))
  ∧ (is_Some (_cache w !! "s0") →
     attrs w !! "_s0" = Some (VFloat (msum sparse_matrix)))
  ∧ match pending with
    | Some o => _cache w !! "neighbors_0" = None
                ∧ attrs w !! "_W__neighbors_0" = Some (VOffsets o)
    | None => is_Some (_cache w !! "neighbors_0") →
              attrs w !! "_W__neighbors_0" = Some (VOffsets offsets_map)
    end.
End canonical.

(** a matrix of [n] rows of [n] cells *)
Definition square {F} (n : nat) (m : mat F) : Prop :=
  length m = n ∧ Forall (λ r, length r = n) m.

(** the state after a property stored [v] under [key] and in [attr] *)
Definition stored {F} (key attr : string) (v : pyval F) (w : W F) : W F :=
  set__cache (<[key := v]> (_cache w)) (set_attrs (<[attr := v]> (attrs w)) w).

(** row standardization of one list of weights *)
Definition row_standardize {F} `{Arith F} (wijs : list F) : list F :=
  (λ wij, fdiv wij (fmul (fsum wijs) fone)) <$> wijs.

(** ** Example containers *)

(** The 3 x 3 regular lattice of the class documentation. *)
Definition lattice : gmap pyid (list pyid) :=
  list_to_map
    [(IdInt 0, [IdInt 3; IdInt 1]); (IdInt 1, [IdInt 0; IdInt 4; IdInt 2]);
     (IdInt 2, [IdInt 1; IdInt 5]); (IdInt 3, [IdInt 0; IdInt 6; IdInt 4]);
     (IdInt 4, [IdInt 1; IdInt 3; IdInt 7; IdInt 5]);
     (IdInt 5, [IdInt 2; IdInt 4; IdInt 8]); (IdInt 6, [IdInt 3; IdInt 7]);
     (IdInt 7, [IdInt 4; IdInt 6; IdInt 8]); (IdInt 8, [IdInt 5; IdInt 7])].

(** Two units, each the neighbor of the other. *)
Definition pair_graph : gmap pyid (list pyid) :=
  list_to_map [(IdInt 0, [IdInt 1]); (IdInt 1, [IdInt 0])].

(** Two neighbors and an island. *)
Definition island_graph : gmap pyid (list pyid) :=
  list_to_map [(IdInt 0, [IdInt 1]); (IdInt 1, [IdInt 0]); (IdInt 2, [])].

(** [W(lattice)], the lattice with unit weights, on binary64 *)
Definition lattice_W : W float := (__init__ lattice None None).2.

(** [W(pair_graph, id_order=[0])] *)
Definition short_order_W : W float := (__init__ pair_graph None (Some [IdInt 0])).2.

(** [W(pair_graph, weights={0: [1.0, 2.0]})]: a weights argument that does
    not match the neighbors *)
Definition misaligned_W : W float :=
  (__init__ pair_graph (Some {[IdInt 0 := [1; 2]%float]}) None).2.

(** [W(island_graph)] *)
Definition island_W : W float := (__init__ island_graph None None).2.

(** [WSP(4, [0, 1, 1, 2, 2, 3], [1, 0, 2, 1, 3, 3])] *)
Definition thin_proxy : result (WSP float) :=
  Wsp.__init__ 4 [0; 1; 1; 2; 2; 3] [1; 0; 2; 1; 3; 3] [].

(** The three units of the [neighbor_offsets] example. *)
Definition letters_graph : gmap pyid (list pyid) :=
  list_to_map [(IdStr "c", [IdStr "b"]); (IdStr "b", [IdStr "c"; IdStr "a"]);
               (IdStr "a", [IdStr "b"])].

(** A path of three units, [0 - 1 - 2]. *)
Definition path_graph : gmap pyid (list pyid) :=
  list_to_map [(IdInt 0, [IdInt 1]); (IdInt 1, [IdInt 0; IdInt 2]);
               (IdInt 2, [IdInt 1])].

Definition path_W : W float := (__init__ path_graph None None).2.

(** [W(pair_graph, weights={0: [0.0], 1: [1.0]})]: the weights of unit 0
    add up to zero *)
Definition zero_row_W : W float :=
  (__init__ pair_graph (Some {[IdInt 0 := [0%float]; IdInt 1 := [1%float]]}) None).2.

(** [W(pair_graph, id_order=[0, 7])]: the order names an id that is not a
    unit *)
Definition stray_order_W : W float :=
  (__init__ pair_graph None (Some [IdInt 0; IdInt 7])).2.

(** [W({0: [1], 1: [0, 5]})]: unit 1 lists a neighbor that is not a unit *)
Definition dangling_W : W float :=
  (__init__ (list_to_map [(IdInt 0, [IdInt 1]); (IdInt 1, [IdInt 0; IdInt 5])])
            None None).2.

(** one step of the loop of [neighbor_offsets]: the offsets of one list of
    neighbors, stored under its id *)
Definition offsets_step (ix : gmap pyid nat) (item : pyid * list pyid)
    (o : gmap pyid (list nat)) : result (gmap pyid (list nat)) :=
  match traverse (subscript ix) item.2 with
  | Ok offs => Ok (<[item.1 := offs]> o)
  | Raise e => Raise e
  end.

(** [W({})], the container without units *)
Definition empty_W : W float := (__init__ ∅ None None).2.


Section triples.
Context {F : Type} `{Arith F}.
Context (nb : gmap pyid (list pyid)) (wts : gmap pyid (list F)) (ids : list pyid).

(** the entries that the loop of [_build_sparse] appends for one unit: the
    row of the unit with the offset of each neighbor and its weight *)
Definition unit_triples (item : pyid * list nat) : list (nat * nat * F) :=
  zip (zip (replicate (default 0 (cardinality_map nb ids !! item.1))
                      (default 0 (index_map ids !! item.1)))
           item.2)
      (default [] (wts !! item.1)).
End triples.

(** The properties whose value is kept under the very cache key they test:
    a second read finds the key and returns the attribute. *)
Definition memoized (q : query) : bool :=
  match q with
  | Q_sparse | Q_s0 | Q_s1 | Q_s2 | Q_s2array | Q_trcWtW | Q_diagWtW
  | Q_trcWtW_WW | Q_diagWtW_WW | Q_pct_nonzero | Q_nonzero | Q_cardinalities
  | Q_max_neighbors | Q_min_neighbors | Q_sd | Q_histogram | Q_islands
  | Q_asymmetries | Q_id2i => true
  | _ => false
  end.

(** The cache keys under which the methods of the class store a value. *)
Definition stored_keys : gset string :=
  list_to_set
    ["sparse"; "id2i"; "n"; "s0"; "s1"; "s2array"; "s2"; "trcw2"; "diagW2";
     "diagWtW"; "trcWtW"; "diagWtW_WW"; "trcWtW_WW"; "pct_nonzero";
     "cardinalities"; "max_neighbors"; "mean_neighbors"; "min_neighbors";
     "nonzero"; "sd"; "asymmetries"; "islands"; "histogram"; "neighbors_0"].

(** What a method may do to the cache: empty it, and add stored keys. *)
Definition adds_stored_keys {F} (w w' : W F) : Prop :=
  dom (_cache w') ⊆ dom (_cache w) ∪ stored_keys.

(** * Properties *)

(** ** The examples of the class documentation *)

(** [w = W(neighbors); w.pct_nonzero], that is [0.29629629629629628] *)
Example doctest_pct_nonzero :
  (pct_nonzero lattice_W).1 = Ok (VFloat 0x1.2f684bda12f68p-2%float).
Proof. by vm_compute. Qed.

(** [w.transform = 'r'; w.weights[0]] and back with ['b'] *)
Example doctest_transform :
  (get_transform lattice_W).1 = Ok "O"
  ∧ weights (set_transform "r" lattice_W).2 !! IdInt 0 = Some [0.5; 0.5]%float
  ∧ weights (run_transforms ["r"; "b"] lattice_W) !! IdInt 0 = Some [1; 1]%float.
Proof. by vm_compute. Qed.

(** [w.asymmetry()] on the lattice, before and after ['r'] *)
Example doctest_asymmetry :
  (asymmetry lattice_W).1 = Ok (VIds [])
  ∧ (asymmetry (set_transform "r" lattice_W).2).1
    = Ok (VIndex [1; 3; 0; 2; 4; 1; 5; 0; 4; 6; 1; 3; 5; 7; 2; 4; 8; 3; 7; 4; 6; 8; 5; 7]
                 [0; 0; 1; 1; 1; 2; 2; 3; 3; 3; 4; 4; 4; 4; 5; 5; 5; 6; 6; 7; 7; 7; 8; 8]).
Proof. by vm_compute. Qed.

(** [w.id_order = ['b', 'a', 'c']; w.neighbor_offsets['b']] *)
Example doctest_neighbor_offsets :
  let w := (__init__ (F:=float) letters_graph None None).2 in
  _id_order w = [IdStr "a"; IdStr "b"; IdStr "c"]
  ∧ (v ← (neighbor_offsets w).1; d ← as_offsets v; mret (d !! IdStr "b"))
    = Ok (Some [2; 0])
  ∧ (v ← (neighbor_offsets (__set_id_order [IdStr "b"; IdStr "a"; IdStr "c"] w).2).1;
     d ← as_offsets v; mret (d !! IdStr "b"))
    = Ok (Some [2; 1]).
Proof. by vm_compute. Qed.

(** [WSP(4, rows, cols, weights=[1, 0.75, 0.25, 0.9, 0.1, 1])]: [s0] is
    [4.0] and [trcWtW_WW] is [6.3949999999999996] *)
Example doctest_wsp_weights :
  ∃ w, Wsp.__init__ 4 [0; 1; 1; 2; 2; 3] [1; 0; 2; 1; 3; 3]
         [1; 0.75; 0.25; 0x1.ccccccccccccdp-1; 0x1.999999999999ap-4; 1]%float = Ok w
       ∧ (Wsp.s0 w).1 = Ok (VFloat 4%float)
       ∧ (Wsp.trcWtW_WW w).1 = Ok (VFloat 0x1.9947ae147ae14p+2%float).
Proof. eexists. split; [reflexivity|]. by vm_compute. Qed.

(** ** The method monad *)

Section monad_facts.
Context {S : Type}.

Lemma bind_unfold {A B} (m : M S A) (k : A → M S B) s :
  (m ≫= k) s = match m s with
               | (Ok a, s') => k a s'
               | (Raise e, s') => (Raise e, s')
               end.
Proof. reflexivity. Qed.

Context (R : relation S) `{!PreOrder R}.

Lemma stable_ret {A} (a : A) : stable R (mret a).
Proof. intros s. reflexivity. Qed.

Lemma stable_raise {A} e : stable R (raise (A:=A) e).
Proof. intros s. reflexivity. Qed.

Lemma stable_lift {A} (r : result A) : stable R (lift r).
Proof. intros s. reflexivity. Qed.

Lemma stable_reads {A} (f : S → A) : stable R (reads f).
Proof. intros s. reflexivity. Qed.

Lemma stable_modify (f : S → S) : (∀ s, R s (f s)) → stable R (modify f).
Proof. intros Hf s. apply Hf. Qed.

Lemma stable_bind {A B} (m : M S A) (k : A → M S B) :
  stable R m → (∀ a, stable R (k a)) → stable R (m ≫= k).
Proof.
  intros Hm Hk s. rewrite bind_unfold. specialize (Hm s).
  destruct (m s) as [[a|e] s']; simpl in *; [|done].
  etrans; [exact Hm|apply Hk].
Qed.

Lemma stable_for_each {A B} (l : list A) (acc : B) (body : A → B → M S B) :
  (∀ x b, stable R (body x b)) → stable R (for_each l acc body).
Proof.
  intros Hb. revert acc. induction l as [|x l IH]; intros acc; simpl.
  - apply stable_ret.
  - apply stable_bind; [apply Hb|intros; apply IH].
Qed.

Lemma stable_if {A} (b : bool) (m1 m2 : M S A) :
  stable R m1 → stable R m2 → stable R (if b then m1 else m2).
Proof. by destruct b. Qed.
End monad_facts.

Section memo_facts.
Context {F S : Type} `{Cached F S}.
Context (R : relation S) `{!PreOrder R}.
Context (R_cache : ∀ c s, dom (cache_of s) ⊆ dom c → R s (with_cache c s)).
Context (R_attrs : ∀ a s, R s (with_attrs a s)).

Lemma stable_cached key : stable R (cached key).
Proof. intros s. reflexivity. Qed.

Lemma stable_cache_put key v : stable R (cache_put key v).
Proof. intros s. apply R_cache. clear. set_solver. Qed.

Lemma stable_setattr a v : stable R (setattr a v).
Proof. intros s. apply R_attrs. Qed.

Lemma stable_getattr a : stable R (getattr a).
Proof. intros s. unfold getattr. destruct (attrs_of s !! a); reflexivity. Qed.

Lemma stable_memo check store attr compute :
  stable R compute → stable R (memo check store attr compute).
Proof.
  intros Hc. unfold memo.
  apply stable_bind; [done|apply stable_cached|intros c].
  apply stable_bind; [done| |intros; apply stable_getattr].
  destruct c; [apply stable_ret; done|].
  apply stable_bind; [done|done|intros v].
  apply stable_bind; [done|apply stable_setattr|intros _].
  apply stable_bind; [done|apply stable_getattr|intros v'].
  apply stable_cache_put.
Qed.
End memo_facts.

(** ** Queries leave the data of the container alone *)

Create HintDb frame discriminated.
Create HintDb sim discriminated.

Section frame.
Context {F : Type} `{Arith F}.
Local Abbreviation fr := (frame (F:=F)).
Local Abbreviation fr_it := (frame_it (F:=F)).

#[local] Instance frame_preorder : PreOrder fr.
Proof.
  split.
  - intros w. by repeat split.
  - intros w1 w2 w3 [(?&?&?&?&?&?) ?] [(?&?&?&?&?&?) ?].
    repeat split; try congruence. set_solver.
Qed.

Lemma frame_cache c (w : W F) : dom (cache_of w) ⊆ dom c → fr w (with_cache c w).
Proof. intros Hc. by repeat split. Qed.

Lemma frame_attrs a (w : W F) : fr w (with_attrs a w).
Proof. by repeat split. Qed.

Lemma frame_set__n k (w : W F) : fr w (set__n k w).
Proof. by repeat split. Qed.

(** one step of a frame proof: split a bind, close a primitive, or use
    the lemma of a property proved before *)
Ltac frame_step :=
  lazymatch goal with
  | |- stable _ (memo _ _ _ _) => apply (stable_memo fr frame_cache frame_attrs)
  | |- stable _ (cached _) => apply (stable_cached fr)
  | |- stable _ (getattr _) => apply (stable_getattr fr)
  | |- stable _ (setattr _ _) => apply (stable_setattr fr frame_attrs)
  | |- stable _ (cache_put _ _) => apply (stable_cache_put fr frame_cache)
  | |- stable _ (mret _) => apply (stable_ret fr)
  | |- stable _ (raise _) => apply (stable_raise fr)
  | |- stable _ (lift _) => apply (stable_lift fr)
  | |- stable _ (reads _) => apply (stable_reads fr)
  | |- stable _ (modify (set__n _)) => apply (stable_modify fr), frame_set__n
  | |- stable _ (for_each _ _ _) => apply (stable_for_each fr); intros ? ?
  | |- stable _ (if _ then _ else _) => apply (stable_if fr)
  | |- stable _ (_ ≫= _) => apply (stable_bind fr); [|intros ?]
  | |- stable _ ?m =>
    match m with
    | context [let '(_, _) := ?x in _] => is_var x; destruct x
    | context [match ?x with _ => _ end] => is_var x; destruct x
    | _ => solve [auto 3 with frame nocore]
    end
  end.
Ltac frame_auto := repeat frame_step.

Lemma frame_id2i : stable fr id2i.
Proof. unfold id2i. frame_auto. Qed.
Hint Resolve frame_id2i : frame.

Lemma frame_n : stable fr n.
Proof. unfold n. frame_auto. Qed.
Hint Resolve frame_n : frame.

Lemma frame_cardinalities : stable fr cardinalities.
Proof. unfold cardinalities. frame_auto. Qed.
Hint Resolve frame_cardinalities : frame.

Lemma frame_neighbor_offsets : stable fr neighbor_offsets.
Proof. unfold neighbor_offsets. frame_auto. Qed.
Hint Resolve frame_neighbor_offsets : frame.

Lemma frame__build_sparse : stable fr _build_sparse.
Proof. unfold _build_sparse. frame_auto. Qed.
Hint Resolve frame__build_sparse : frame.

Lemma frame_sparse : stable fr sparse.
Proof. unfold sparse. frame_auto. Qed.
Hint Resolve frame_sparse : frame.

Lemma frame_the_sparse : stable fr the_sparse.
Proof. unfold the_sparse. frame_auto. Qed.
Hint Resolve frame_the_sparse : frame.

Lemma frame_s0 : stable fr s0.
Proof. unfold s0. frame_auto. Qed.
Hint Resolve frame_s0 : frame.

Lemma frame_s1 : stable fr s1.
Proof. unfold s1. frame_auto. Qed.

Lemma frame_s2array : stable fr s2array.
Proof. unfold s2array. frame_auto. Qed.
Hint Resolve frame_s2array : frame.

Lemma frame_array_sum g : stable fr g → stable fr (array_sum g).
Proof. intros Hg. unfold array_sum. frame_auto. Qed.
Hint Resolve frame_array_sum : frame.

Lemma frame_s2 : stable fr s2.
Proof. unfold s2. frame_auto. Qed.

Lemma frame_diagW2 : stable fr diagW2.
Proof. unfold diagW2. frame_auto. Qed.
Hint Resolve frame_diagW2 : frame.

Lemma frame_trcW2 : stable fr trcW2.
Proof. unfold trcW2. frame_auto. Qed.

Lemma frame_diagWtW : stable fr diagWtW.
Proof. unfold diagWtW. frame_auto. Qed.
Hint Resolve frame_diagWtW : frame.

Lemma frame_trcWtW : stable fr trcWtW.
Proof. unfold trcWtW. frame_auto. Qed.

Lemma frame_diagWtW_WW : stable fr diagWtW_WW.
Proof. unfold diagWtW_WW. frame_auto. Qed.
Hint Resolve frame_diagWtW_WW : frame.

Lemma frame_trcWtW_WW : stable fr trcWtW_WW.
Proof. unfold trcWtW_WW. frame_auto. Qed.

Lemma frame_pct_nonzero : stable fr pct_nonzero.
Proof. unfold pct_nonzero. frame_auto. Qed.

Lemma frame_cardinality_values : stable fr cardinality_values.
Proof. unfold cardinality_values. frame_auto. Qed.
Hint Resolve frame_cardinality_values : frame.

Lemma frame_max_neighbors : stable fr max_neighbors.
Proof. unfold max_neighbors. frame_auto. Qed.
Hint Resolve frame_max_neighbors : frame.

Lemma frame_mean_neighbors : stable fr mean_neighbors.
Proof. unfold mean_neighbors. frame_auto. Qed.

Lemma frame_min_neighbors : stable fr min_neighbors.
Proof. unfold min_neighbors. frame_auto. Qed.
Hint Resolve frame_min_neighbors : frame.

Lemma frame_nonzero : stable fr nonzero.
Proof. unfold nonzero. frame_auto. Qed.

Lemma frame_sd : stable fr sd.
Proof. unfold sd. frame_auto. Qed.

Lemma frame_asymmetry : stable fr asymmetry.
Proof. unfold asymmetry. frame_auto. Qed.
Hint Resolve frame_asymmetry : frame.

Lemma frame_asymmetries : stable fr asymmetries.
Proof. unfold asymmetries. frame_auto. Qed.

Lemma frame_islands : stable fr islands.
Proof. unfold islands. frame_auto. Qed.

Lemma frame_histogram : stable fr histogram.
Proof. unfold histogram. frame_auto. Qed.

Lemma frame___getitem__ key : stable fr (__getitem__ key).
Proof. unfold __getitem__. frame_auto. Qed.

(** Iteration keeps its position in the iterator, not in the container. *)
#[local] Instance frame_it_preorder : PreOrder fr_it.
Proof.
  split; [intros s; unfold frame_it; reflexivity|].
  intros s1 s2 s3 H12 H23. unfold frame_it in *. by etrans.
Qed.

Lemma frame_on_w {A} (m : M (W F) A) : stable fr m → stable fr_it (on_w m).
Proof.
  intros Hm [w it]. unfold on_w, fr_it. simpl.
  specialize (Hm w). by destruct (m w).
Qed.

Lemma frame_next (s : W F * _W_iter) : fr s.1 (next s).2.1.
Proof.
  change (fr_it s (next s).2). revert s. change (stable fr_it next).
  unfold next.
  apply (stable_bind fr_it); [apply (stable_reads fr_it)|intros it].
  assert (∀ i, stable fr_it (set_idx i)) as Hidx
      by (intros i s; unfold frame_it; simpl; reflexivity).
  apply (stable_if fr_it).
  { apply (stable_bind fr_it); [apply Hidx|intros _].
    apply (stable_raise fr_it). }
  apply (stable_bind fr_it);
    [apply frame_on_w, (stable_reads fr)|intros ids].
  apply (stable_bind fr_it); [apply (stable_lift fr_it)|intros key].
  apply (stable_bind fr_it);
    [apply frame_on_w, frame___getitem__|intros value].
  apply (stable_bind fr_it); [apply (stable_reads fr_it)|intros it'].
  apply (stable_bind fr_it); [apply Hidx|intros _].
  apply (stable_ret fr_it).
Qed.

Lemma frame_drain bound rows (s : W F * _W_iter) : fr s.1 (drain bound rows s).2.1.
Proof.
  revert rows s. induction bound as [|b IH]; intros rows s; simpl;
    pose proof (frame_next s) as Hn;
    destruct (next s) as [[v|e] s']; simpl in *;
    try (destruct e; simpl; done); [done|].
  etrans; [exact Hn|apply IH].
Qed.

Lemma frame_iterate : stable fr iterate.
Proof.
  intros w. unfold iterate, __iter__. rewrite bind_unfold. simpl.
  pose proof (frame_drain (length (_id_order w)) []
                          (w, mkIter (length (_id_order w)) 0)) as Hd.
  destruct (drain _ _ _) as [r s]. exact Hd.
Qed.

Lemma frame_run_query q : stable fr (run_query q).
Proof.
  destruct q; simpl;
    auto using frame_sparse, frame_s0, frame_s1, frame_s2, frame_s2array,
      frame_trcW2, frame_diagW2, frame_trcWtW, frame_diagWtW, frame_trcWtW_WW,
      frame_diagWtW_WW, frame_pct_nonzero, frame_nonzero, frame_cardinalities,
      frame_max_neighbors, frame_min_neighbors, frame_mean_neighbors, frame_sd,
      frame_histogram, frame_islands, frame_asymmetries, frame_asymmetry,
      frame_id2i, frame_neighbor_offsets, frame_n, frame___getitem__.
  intros w. pose proof (frame_iterate w) as Hi.
  destruct (iterate w) as [[rows|e] w']; exact Hi.
Qed.
End frame.

(** C10. Every read-only query of a container (the derived-statistic
    properties, [__getitem__] on any id, and a full iteration), whether it
    returns or raises, leaves the neighbors mapping, the weights mapping, the
    registered transformations, the observation order and the transform
    designation as they were; the cache keeps the keys it had and may only
    gain keys. *)
Theorem C10_queries_keep_data {F : Type} `{Arith F} (q : query) (w : W F) :
  let w' := (run_query q w).2 in
  neighbors w' = neighbors w ∧ weights w' = weights w
  ∧ _id_order w' = _id_order w ∧ _transform w' = _transform w
  ∧ transformations w' = transformations w
  ∧ _id_order_set w' = _id_order_set w
  ∧ dom (_cache w) ⊆ dom (_cache w').
Proof.
  destruct (frame_run_query q w) as [(?&?&?&?&?&?) ?]. by repeat split.
Qed.

(** ** The constructor *)

Section constructor.
Context {F : Type} `{Arith F}.

(** [__init__] never raises, and builds this object. *)
Lemma init_state nb ws ord :
  __init__ nb ws ord =
  (Ok tt, mkW nb (initial_weights nb ws) {["O" := initial_weights nb ws]} "O"
              (initial_order nb ord) (bool_decide (is_Some ord))
              (size (initial_weights nb ws)) ∅ ∅).
Proof.
  unfold __init__, initial_weights, initial_order, set_transform.
  destruct ord as [ids|]; reflexivity.
Qed.
End constructor.

(** ** Loops that build a dictionary *)

Section loops.
Context {S A B : Type}.

(** a loop whose body only computes is a fold, and leaves the object as
    it is *)
Lemma for_each_pure (g : A → B → result B) (body : A → B → M S B) l acc s :
  (∀ x b s, body x b s = (g x b, s)) →
  for_each l acc body s = (fold_result g l acc, s).
Proof.
  intros Hb. revert acc. induction l as [|x l IH]; intros acc; simpl; [done|].
  rewrite bind_unfold, Hb. destruct (g x acc) as [b|e]; simpl; [apply IH|done].
Qed.
End loops.

Section dict_loops.
Context {A B V : Type}.
Context (π : B → gmap pyid V) (P : pyid → A → V → Prop).

(** A loop over the items of a dictionary that stores one value per key
    yields a dictionary over the same keys, each value related to the item
    it was computed from. *)
Lemma fold_result_insert (g : pyid * A → B → result B) l acc res :
  NoDup l.*1 →
  (∀ i x b b', (i, x) ∈ l → g (i, x) b = Ok b' →
               ∃ r, π b' = <[i := r]> (π b) ∧ P i x r) →
  fold_result g l acc = Ok res →
  ∀ i, match (list_to_map l : gmap pyid A) !! i with
       | Some x => ∃ r, π res !! i = Some r ∧ P i x r
       | None => π res !! i = π acc !! i
       end.
Proof.
  revert acc. induction l as [|[k x] l IH]; intros acc Hnd Hg Hres i; simpl in *.
  { injection Hres as <-. by rewrite lookup_empty. }
  apply NoDup_cons in Hnd as [Hk Hnd].
  destruct (g (k, x) acc) as [b'|e] eqn:Hstep; simpl in Hres; [|done].
  destruct (Hg k x acc b') as (r & Hb' & HP); [left|done|].
  specialize (IH b' Hnd) as IH'.
  specialize (IH' (λ i x b b' Hin, Hg i x b b' (list_elem_of_further _ _ _ Hin)) Hres).
  destruct (decide (i = k)) as [->|Hne].
  - rewrite lookup_insert_eq. specialize (IH' k).
    rewrite (not_elem_of_list_to_map_1 _ _ Hk) in IH'.
    exists r. by rewrite IH', Hb', lookup_insert_eq.
  - rewrite lookup_insert_ne by done. specialize (IH' i).
    destruct (list_to_map l !! i); [done|].
    by rewrite IH', Hb', lookup_insert_ne.
Qed.

Lemma fold_result_items (g : pyid * A → B → result B) (m : gmap pyid A) acc res :
  π acc = ∅ →
  (∀ i x b b', m !! i = Some x → g (i, x) b = Ok b' →
               ∃ r, π b' = <[i := r]> (π b) ∧ P i x r) →
  fold_result g (map_to_list m) acc = Ok res →
  ∀ i, match m !! i with
       | Some x => ∃ r, π res !! i = Some r ∧ P i x r
       | None => π res !! i = None
       end.
Proof.
  intros Hacc Hg Hres i.
  pose proof (fold_result_insert g (map_to_list m) acc res
                (NoDup_fst_map_to_list m)) as Hi.
  rewrite list_to_map_to_list, Hacc in Hi.
  specialize (Hi (λ i x b b' Hin, Hg i x b b' (proj1 (elem_of_map_to_list _ _ _) Hin))
                 Hres i).
  by rewrite lookup_empty in Hi.
Qed.

(** ... and it does return when no step raises. *)
Lemma fold_result_Ok (g : pyid * A → B → result B) l acc :
  (∀ ix b, ix ∈ l → ∃ b', g ix b = Ok b') →
  ∃ res, fold_result g l acc = Ok res.
Proof.
  revert acc. induction l as [|ix l IH]; intros acc Hg; simpl; [by eexists|].
  destruct (Hg ix acc) as [b' ->]; [left|]. simpl.
  apply IH. intros ix' b Hin. apply Hg. by right.
Qed.
End dict_loops.

Lemma traverse_length {A B} (f : A → result B) l l' :
  traverse f l = Ok l' → length l' = length l.
Proof.
  revert l'. induction l as [|x l IH]; intros l' Ht; simpl in *.
  { by injection Ht as <-. }
  destruct (f x) as [y|e]; simpl in Ht; [|done].
  destruct (traverse f l) as [ys|e]; simpl in Ht; [|done].
  injection Ht as <-. simpl. f_equal. by apply IH.
Qed.

(** ** The transformations *)

Section transform_facts.
Context {F : Type} `{Arith F}.
Implicit Types w : W F.

#[local] Instance same_data_preorder : PreOrder (same_data (F:=F)).
Proof.
  split.
  - intros w. by repeat split.
  - intros w1 w2 w3 (?&?&?&?&?&?) (?&?&?&?&?&?). repeat split; congruence.
Qed.

Lemma frame_same_data {A} (m : M (W F) A) : stable frame m → stable same_data m.
Proof. intros Hm w. apply Hm. Qed.

Lemma same_shape_refl {A} (a : gmap pyid (list A)) : same_shape a a.
Proof. by intros i. Qed.

Lemma same_shape_trans {A B C} (a : gmap pyid (list A)) (b : gmap pyid (list B))
    (c : gmap pyid (list C)) :
  same_shape a b → same_shape b c → same_shape a c.
Proof. intros Hab Hbc i. by rewrite Hab. Qed.

Lemma same_shape_sym {A B} (a : gmap pyid (list A)) (b : gmap pyid (list B)) :
  same_shape a b → same_shape b a.
Proof. intros Hab i. by rewrite Hab. Qed.

Lemma same_shape_fmap {A B} (f : list A → list B) (a : gmap pyid (list A)) :
  (∀ l, length (f l) = length l) → same_shape a (f <$> a).
Proof.
  intros Hf i. rewrite lookup_fmap. destruct (a !! i); simpl; [|done].
  by rewrite Hf.
Qed.

(** the shape of the result of a loop over the items of [m] that stores,
    for each key, a list as long as the item *)
Lemma same_shape_loop {A B C} (π : C → gmap pyid (list B))
    (g : pyid * list A → C → result C) (m : gmap pyid (list A)) acc res :
  π acc = ∅ →
  (∀ i x b b', m !! i = Some x → g (i, x) b = Ok b' →
               ∃ r, π b' = <[i := r]> (π b) ∧ length r = length x) →
  fold_result g (map_to_list m) acc = Ok res →
  same_shape m (π res).
Proof.
  intros Hacc Hg Hres i.
  pose proof (fold_result_items π (λ _ x r, length r = length x) g m acc res
                Hacc Hg Hres i) as Hi.
  destruct (m !! i); simpl.
  - destruct Hi as (r & -> & Hr). simpl. by rewrite Hr.
  - by rewrite Hi.
Qed.

Lemma binary_computes : computes binary.
Proof.
  intros w. split; [reflexivity|].
  intros m [= <-]. apply same_shape_fmap. intros l. apply length_fmap.
Qed.

Lemma row_standardized_computes : computes row_standardized.
Proof.
  intros w. unfold row_standardized. rewrite bind_unfold. simpl.
  erewrite (for_each_pure
              (λ '(i, wijs) weights,
                 r ← traverse (λ wij, py_div wij (fmul (fsum wijs) fone)) wijs;
                 mret (<[i := r]> weights))).
  2:{ intros [i wijs] b s. rewrite bind_unfold. unfold lift.
      by destruct (traverse _ wijs). }
  split; [reflexivity|]. simpl. intros m Hm.
  eapply (same_shape_loop id); [done| |exact Hm].
  intros i x b b' Hx Hstep. simpl in Hstep.
  destruct (traverse _ x) as [r|e] eqn:Hr; simpl in Hstep; [|done].
  injection Hstep as <-. exists r. split; [done|]. by eapply traverse_length.
Qed.

Lemma doubly_standardized_computes : computes doubly_standardized.
Proof.
  intros w. unfold doubly_standardized. rewrite bind_unfold. simpl.
  set (w0 := set__cache ∅ w).
  pose proof (frame_same_data _ frame_s0 w0) as Hs0.
  rewrite bind_unfold. destruct (s0 w0) as [[sv|e] w1]; simpl in *.
  2:{ split; [exact Hs0|done]. }
  rewrite bind_unfold. unfold lift at 1.
  destruct (as_float sv) as [x|e]; simpl.
  2:{ split; [exact Hs0|done]. }
  split; [exact Hs0|]. intros m [= <-].
  destruct Hs0 as (_ & -> & _). simpl.
  apply same_shape_fmap. intros l. apply length_fmap.
Qed.

Lemma variance_stabilized_computes : computes variance_stabilized.
Proof.
  intros w. unfold variance_stabilized.
  pose proof (frame_same_data _ frame_cardinalities w) as Hc.
  rewrite bind_unfold. destruct (cardinalities w) as [[k|e] w1]; simpl in *.
  2:{ split; [exact Hc|done]. }
  rewrite bind_unfold. simpl. rewrite bind_unfold.
  erewrite (for_each_pure
    (λ '(i, wijs) '(s, Q),
       qi ← match fsqrt (fsum ((λ wij, fmul wij wij) <$> wijs)) with
            | Some q => Ok q
            | None => Raise ValueError
            end;
       si ← traverse (λ wij, py_div wij qi) wijs;
       mret (<[i := si]> s, fadd Q (fsum si)))).
  2:{ intros [i wijs] [s Q] st. rewrite bind_unfold. unfold lift.
      destruct (fsqrt _); simpl; [|done].
      rewrite bind_unfold. by destruct (traverse _ wijs). }
  destruct (fold_result _ _ _) as [[s Q]|e] eqn:Hloop1; simpl.
  2:{ split; [exact Hc|done]. }
  assert (same_shape (weights w1) s) as Hs.
  { refine (same_shape_loop fst _ (weights w1) (∅, fzero) (s, Q) _ _ Hloop1);
      [done|].
    intros i x [s' Q'] b' Hx Hstep. simpl in Hstep.
    destruct (fsqrt _); simpl in Hstep; [|done].
    destruct (traverse _ x) as [r|e] eqn:Hr; simpl in Hstep; [|done].
    injection Hstep as <-. exists r. split; [done|]. by eapply traverse_length. }
  pose proof (frame_same_data _ frame_n w1) as Hn.
  rewrite bind_unfold. destruct (n w1) as [[nv|e] w2]; simpl in *.
  2:{ split; [by etrans|done]. }
  assert (same_data w w2) as Hw2 by (by etrans).
  rewrite bind_unfold. unfold lift at 1.
  destruct (as_int nv) as [nn|e]; simpl; [|done].
  rewrite bind_unfold. unfold lift at 1.
  destruct (py_div (of_nat nn) Q) as [nQ|e]; simpl; [|done].
  rewrite bind_unfold. simpl.
  erewrite (for_each_pure
    (λ '(i, _) weights,
       match subscript s i with
       | Ok si => Ok (<[i := (λ x, fmul x nQ) <$> si]> weights)
       | Raise e => Raise e
       end)).
  2:{ intros [i wijs] b st. rewrite bind_unfold. unfold lift.
      by destruct (subscript s i). }
  simpl. split; [done|]. intros m Hm.
  assert (weights w2 = weights w1) as Hw21 by apply Hn.
  assert (weights w1 = weights w) as Hw1 by apply Hc.
  rewrite Hw21, Hw1 in Hm. rewrite Hw1 in Hs.
  eapply (same_shape_loop id); [done| |exact Hm].
  intros i x b b' Hx Hstep. simpl in Hstep.
  unfold subscript in Hstep. specialize (Hs i). rewrite Hx in Hs.
  destruct (s !! i) as [si|]; simpl in *; [|done].
  injection Hstep as <-. eexists. split; [done|].
  rewrite length_fmap. congruence.
Qed.

Lemma install_eq u m w : install u m w = (Ok tt, installed u m w).
Proof. reflexivity. Qed.

(** Every call of [set_transform] ends in one of the four outcomes. *)
Lemma set_transform_outcome v w :
  transform_outcome w (upper v) (set_transform v w).1 (set_transform v w).2.
Proof.
  unfold set_transform. set (u := upper v).
  rewrite bind_unfold. simpl. rewrite bind_unfold. simpl.
  destruct (transformations w !! u) as [m0|] eqn:Hreg.
  { simpl. by apply outcome_swap. }
  assert (∀ c, computes c → u ∈ ["R"; "D"; "B"; "V"] →
    let r := (c ≫= λ weights, install u weights ≫= λ _, mret []) (set__transform u w) in
    transform_outcome w u r.1 r.2) as Hbranch.
  { intros c Hc Hu. rewrite bind_unfold.
    destruct (Hc (set__transform u w)) as [Hdata Hshape].
    destruct (c (set__transform u w)) as [[m|e] w1]; simpl in *.
    - apply outcome_computed; auto.
    - by apply outcome_raised. }
  destruct (String.eqb_spec u "R") as [HR|HR].
  { apply Hbranch; [apply row_standardized_computes|rewrite HR; set_solver]. }
  destruct (String.eqb_spec u "D") as [HD|HD].
  { apply Hbranch; [apply doubly_standardized_computes|rewrite HD; set_solver]. }
  destruct (String.eqb_spec u "B") as [HB|HB].
  { apply Hbranch; [apply binary_computes|rewrite HB; set_solver]. }
  destruct (String.eqb_spec u "V") as [HV|HV].
  { apply Hbranch; [apply variance_stabilized_computes|rewrite HV; set_solver]. }
  destruct (String.eqb_spec u "O") as [HO|HO].
  { rewrite bind_unfold. simpl. unfold subscript. rewrite Hreg. simpl.
    by apply outcome_raised. }
  apply outcome_unsupported; [done|].
  rewrite !elem_of_cons, elem_of_nil. tauto.
Qed.

(** an unregistered value outside O, B, R, D, V: the designation is
    assigned before the value is looked at, and nothing else changes *)
Lemma set_transform_unsupported v w :
  transformations w !! upper v = None →
  upper v ∉ ["R"; "D"; "B"; "V"; "O"] →
  set_transform v w = (Ok [unsupported_message], set__transform (upper v) w).
Proof.
  intros Hreg Hu. unfold set_transform.
  rewrite bind_unfold. simpl. rewrite bind_unfold. simpl. rewrite Hreg.
  rewrite !elem_of_cons, elem_of_nil in Hu.
  destruct (String.eqb_spec (upper v) "R"); [tauto|].
  destruct (String.eqb_spec (upper v) "D"); [tauto|].
  destruct (String.eqb_spec (upper v) "B"); [tauto|].
  destruct (String.eqb_spec (upper v) "V"); [tauto|].
  destruct (String.eqb_spec (upper v) "O"); [tauto|].
  reflexivity.
Qed.

(** the original weights stay registered under ['O'] *)
Lemma set_transform_keeps_original v w o :
  transformations w !! "O" = Some o →
  transformations (set_transform v w).2 !! "O" = Some o.
Proof.
  intros HO. pose proof (set_transform_outcome v w) as Ho.
  destruct (set_transform v w) as [r w']. simpl in *.
  inversion Ho as [m Hreg|m w1 Hreg Hu Hdata Hshape|e w1 Hreg Hdata|Hreg Hu];
    subst; simpl; try done.
  - destruct Hdata as (_ & _ & -> & _). simpl.
    rewrite lookup_insert_ne; [done|].
    intros Heq. rewrite Heq in Hreg. congruence.
  - destruct Hdata as (_ & _ & -> & _). done.
Qed.

Lemma run_transforms_keeps_original vs w o :
  transformations w !! "O" = Some o →
  transformations (run_transforms vs w) !! "O" = Some o.
Proof.
  revert w. induction vs as [|v vs IH]; intros w HO; simpl; [done|].
  apply IH. by apply set_transform_keeps_original.
Qed.

(** [w.transform = 'O'] on a container that has its original weights *)
Lemma set_transform_O w o :
  transformations w !! "O" = Some o →
  set_transform "O" w = (Ok [], set__cache ∅ (set_weights o (set__transform "O" w))).
Proof.
  intros HO. unfold set_transform.
  rewrite bind_unfold. simpl. rewrite bind_unfold. simpl.
  change (upper_ascii "O") with "O"%char. by rewrite HO.
Qed.

Lemma set_transform_shaped nb v w : shaped nb w → shaped nb (set_transform v w).2.
Proof.
  intros (Hnb & Hw & Hreg). pose proof (set_transform_outcome v w) as Ho.
  destruct (set_transform v w) as [r w']. simpl in *.
  inversion Ho as [m Hm|m w1 Hm Hu Hdata Hshape|e w1 Hm Hdata|Hm Hu];
    subst; simpl.
  - repeat split; simpl; eauto.
  - destruct Hdata as (Hn1 & _ & Ht1 & _). simpl in *.
    assert (same_shape (neighbors w) m) as Hnew by (by eapply same_shape_trans).
    repeat split; simpl; [done|done|].
    intros k m' Hk. rewrite Ht1 in Hk.
    destruct (decide (upper v = k)) as [<-|Hne].
    + rewrite lookup_insert_eq in Hk. by injection Hk as <-.
    + rewrite lookup_insert_ne in Hk by done. eauto.
  - destruct Hdata as (Hn1 & Hw1 & Ht1 & _). simpl in *.
    repeat split; [done|by rewrite Hw1|]. intros k m'. rewrite Ht1. eauto.
  - repeat split; simpl; eauto.
Qed.

Lemma run_transforms_shaped nb vs w : shaped nb w → shaped nb (run_transforms vs w).
Proof.
  revert w. induction vs as [|v vs IH]; intros w Hw; simpl; [done|].
  apply IH. by apply set_transform_shaped.
Qed.

Lemma same_shape_unit_weights (nb : gmap pyid (list pyid)) :
  same_shape nb ((λ l, replicate (length l) (fone : F)) <$> nb).
Proof. apply same_shape_fmap. intros l. apply length_replicate. Qed.
End transform_facts.

(** ** The observation order *)

Section order_facts.
Context {F : Type} `{Arith F}.
Implicit Types w : W F.

(** the setter compares the new ids with the ids of the current order *)
Lemma set_id_order_mismatch ids w :
  list_to_set (_id_order w) ≠@{gset pyid} list_to_set ids →
  __set_id_order ids w = (Raise OrderMismatch, w).
Proof.
  intros Hne. unfold __set_id_order. rewrite bind_unfold. simpl.
  by rewrite bool_decide_eq_false_2.
Qed.

Lemma set_id_order_match ids w :
  list_to_set (_id_order w) =@{gset pyid} list_to_set ids →
  __set_id_order ids w =
  (Ok tt, set__cache ∅ (set__id_order_set true
            (set_attrs (<["_idx" := VInt 0]> (attrs w)) (set__id_order ids w)))).
Proof.
  intros Heq. unfold __set_id_order. rewrite bind_unfold. simpl.
  by rewrite bool_decide_eq_true_2.
Qed.

(** On a container whose order lists exactly its ids, an assignment of
    other ids raises and changes nothing. *)
Lemma set_id_order_rejects ids w :
  list_to_set (_id_order w) = dom (neighbors w) →
  list_to_set ids ≠ dom (neighbors w) →
  __set_id_order ids w = (Raise OrderMismatch, w).
Proof. intros Hw Hids. apply set_id_order_mismatch. congruence. Qed.
End order_facts.

(** ** The claims on errors, the registry and the weights invariant *)

(** C2 (the code departs from the claim). On the lattice container, whose
    designation is ['O'], [set_transform("x")] prints the unsupported
    transformation message and raises nothing; the weights, the registry
    and the cache are as before, but [get_transform] now answers ['X']:
    the designation is assigned before the value is examined. *)
Theorem C2_unsupported_value_changes_designation :
  set_transform "x" lattice_W
  = (Ok [unsupported_message], set__transform "X" lattice_W)
  ∧ (get_transform lattice_W).1 = Ok "O"
  ∧ (get_transform (set_transform "x" lattice_W).2).1 = Ok "X"
  ∧ weights (set_transform "x" lattice_W).2 = weights lattice_W
  ∧ transformations (set_transform "x" lattice_W).2 = transformations lattice_W.
Proof.
  assert (set_transform "x" lattice_W
          = (Ok [unsupported_message], set__transform "X" lattice_W)) as Hx.
  { apply (set_transform_unsupported "x" lattice_W).
    - by vm_compute.
    - change (upper "x") with "X". rewrite !elem_of_cons, elem_of_nil.
      intros [?|[?|[?|[?|[?|[]]]]]]; discriminate. }
  rewrite Hx. by repeat split.
Qed.

(** C3 (the code departs from the claim). [W(pair_graph, id_order=[0])]:
    the order [[0]] is not a permutation of the ids [{0, 1}], yet the
    constructor returns a container, with that order. *)
Theorem C3_constructor_accepts_any_order :
  ¬ is_order pair_graph [IdInt 0]
  ∧ W_new (F:=float) pair_graph None (Some [IdInt 0]) = Ok short_order_W
  ∧ _id_order short_order_W = [IdInt 0]
  ∧ _id_order_set short_order_W = true.
Proof.
  split; [|by repeat split].
  intros [_ Hall].
  assert (IdInt 1 ∈ dom pair_graph) as Hin by (apply elem_of_dom; by eexists).
  rewrite <- Hall in Hin. apply elem_of_list_to_set in Hin.
  rewrite elem_of_cons, elem_of_nil in Hin. by destruct Hin as [?|[]].
Qed.

(** C4. After construction and any sequence of [set_transform] calls with
    values among B, R, D, V (in either case; a raising call included),
    [set_transform("O")] returns normally and makes the weights mapping
    the one the container held at construction, which has stayed registered
    under ['O'] throughout. *)
Theorem C4_original_restored {F : Type} `{Arith F}
    (nb : gmap pyid (list pyid)) (ws : option (gmap pyid (list F)))
    (ord : option (list pyid)) (vs : list string) :
  Forall (λ v, upper v ∈ ["B"; "R"; "D"; "V"]) vs →
  let w0 := (__init__ nb ws ord).2 in
  let w := run_transforms vs w0 in
  (set_transform "O" w).1 = Ok []
  ∧ weights (set_transform "O" w).2 = weights w0
  ∧ transformations w !! "O" = Some (weights w0)
  ∧ weights w0 = initial_weights nb ws.
Proof.
  intros _ w0 w.
  assert (transformations w !! "O" = Some (weights w0)) as HO.
  { apply run_transforms_keeps_original. subst w0. by rewrite init_state. }
  rewrite (set_transform_O w _ HO). repeat split; [done|].
  subst w0. by rewrite init_state.
Qed.

Lemma C4_original_restored_witness :
  weights (set_transform "O" (run_transforms ["r"; "B"; "v"; "d"; "R"] lattice_W)).2
  = weights lattice_W.
Proof.
  refine (proj1 (proj2 (C4_original_restored lattice None None
                          ["r"; "B"; "v"; "d"; "R"] _))).
  repeat constructor; by vm_compute.
Defined.

(** C7, as stated, fails: the constructor stores a weights argument as it
    is.  [W(pair_graph, weights={0: [1.0, 2.0]})] has one neighbor and two
    weights for id 0, and no weights entry for id 1. *)
Lemma C7_counterexample :
  ¬ (dom (neighbors misaligned_W) = dom (weights misaligned_W)
     ∧ ∀ i ns ws, neighbors misaligned_W !! i = Some ns →
                  weights misaligned_W !! i = Some ws → length ns = length ws).
Proof.
  intros [_ Hlen].
  specialize (Hlen (IdInt 0) [IdInt 1] [1; 2]%float eq_refl eq_refl).
  discriminate.
Qed.

(** C7, amended. For a container constructed without a weights argument,
    or with one that has the ids of the neighbors mapping and as many
    weights as neighbors for each id, after every sequence of
    [set_transform] calls (of any values, raising or not) the ids of the
    weights mapping are the ids of the neighbors mapping and
    [len(neighbors[id]) == len(weights[id])] for every id. *)
Theorem C7_weights_aligned {F : Type} `{Arith F}
    (nb : gmap pyid (list pyid)) (ws : option (gmap pyid (list F)))
    (ord : option (list pyid)) (vs : list string) :
  match ws with Some m => same_shape nb m | None => True end →
  let w := run_transforms vs (__init__ nb ws ord).2 in
  neighbors w = nb
  ∧ dom (neighbors w) = dom (weights w)
  ∧ ∀ i ns xs, neighbors w !! i = Some ns → weights w !! i = Some xs →
               length ns = length xs.
Proof.
  intros Hws w.
  assert (same_shape nb (initial_weights nb ws)) as Hinit.
  { unfold initial_weights. destruct ws as [m|]; [|apply same_shape_unit_weights].
    case_bool_decide; [apply same_shape_unit_weights|done]. }
  assert (shaped nb w) as (Hnb & Hshape & _).
  { subst w. apply run_transforms_shaped. rewrite init_state.
    repeat split; simpl; [done|].
    intros k m Hk. apply lookup_singleton_Some in Hk as [_ <-]. done. }
  rewrite Hnb. repeat split.
  - apply set_eq. intros i. rewrite !elem_of_dom. specialize (Hshape i).
    destruct (nb !! i), (weights w !! i); simpl in *; try done;
      split; intros [? ?]; done.
  - intros i ns xs Hns Hxs. specialize (Hshape i).
    rewrite Hns, Hxs in Hshape. simpl in Hshape. congruence.
Qed.

Lemma C7_weights_aligned_witness :
  dom (neighbors (run_transforms ["R"; "x"; "d"; "o"; "V"] lattice_W))
  = dom (weights (run_transforms ["R"; "x"; "d"; "o"; "V"] lattice_W)).
Proof.
  exact (proj1 (proj2 (C7_weights_aligned lattice None None
                         ["R"; "x"; "d"; "o"; "V"] I))).
Defined.

(** C8 (the code departs from the claim). On [W(pair_graph, id_order=[0])]
    the assignment [w.id_order = [0, 0]], whose ids [{0}] differ from the
    ids [{0, 1}] of the container, raises nothing and replaces the order:
    the setter compares with the ids of the current order, not with the
    keys of the weights. *)
Theorem C8_setter_compares_with_current_order :
  list_to_set [IdInt 0; IdInt 0] ≠@{gset pyid} dom (neighbors short_order_W)
  ∧ list_to_set [IdInt 0; IdInt 0] ≠@{gset pyid} dom (weights short_order_W)
  ∧ (__set_id_order [IdInt 0; IdInt 0] short_order_W).1 = Ok tt
  ∧ _id_order (__set_id_order [IdInt 0; IdInt 0] short_order_W).2
    = [IdInt 0; IdInt 0]
  ∧ _id_order short_order_W = [IdInt 0].
Proof.
  assert (∀ X : gset pyid, IdInt 1 ∈ X → list_to_set [IdInt 0; IdInt 0] ≠ X) as Hne.
  { intros X Hin <-. apply elem_of_list_to_set in Hin.
    rewrite !elem_of_cons, elem_of_nil in Hin. by destruct Hin as [?|[?|[]]]. }
  split; [|split]; [apply Hne, elem_of_dom; by eexists..|].
  by repeat split.
Qed.

(** C9. [WSP(4, [0, 1, 1, 2, 2, 3], [1, 0, 2, 1, 3, 3])], the weights left
    out so that each listed entry is [1.0], has [s0 == 6.0] and
    [trcWtW_WW == 11.0] in binary64 arithmetic. *)
Theorem C9_thin_proxy_scenario :
  ∃ w, thin_proxy = Ok w
       ∧ mdata (wsp_sparse w) = replicate 6 1%float
       ∧ (Wsp.s0 w).1 = Ok (VFloat 6%float)
       ∧ (Wsp.trcWtW_WW w).1 = Ok (VFloat 11%float).
Proof. eexists. split; [reflexivity|]. by vm_compute. Qed.


(** ** No stale memo attribute is readable after a reset *)

Section sim_facts.
Context {F : Type} `{Arith F}.
Implicit Types (w : W F) (X : gset string).

Lemma agree_mono X Y w1 w2 : X ⊆ Y → agree Y w1 w2 → agree X w1 w2.
Proof.
  intros HXY (?&?&?&?&?&?&?&?&?&HY). repeat split; try done.
  intros a Ha. apply HY. by apply HXY.
Qed.

(** the attribute of a key that is in the cache *)
Lemma agree_live X w1 w2 k a :
  (k, a) ∈ live → is_Some (_cache w1 !! k) →
  agree X w1 w2 → agree (X ∪ {[a]}) w1 w2.
Proof.
  intros Hka Hk (?&?&?&?&?&?&?&?&Hlive&HX). repeat split; try done.
  intros a' [Ha'|Ha']%elem_of_union; [by apply HX|].
  apply elem_of_singleton in Ha' as ->. by eapply Hlive.
Qed.

Lemma agree_setattr X w1 w2 a v :
  agree X w1 w2 →
  agree (X ∪ {[a]}) (set_attrs (<[a := v]> (attrs w1)) w1)
                    (set_attrs (<[a := v]> (attrs w2)) w2).
Proof.
  intros (?&?&?&?&?&?&?&?&Hlive&HX). repeat split; try done; simpl.
  - intros k a' Hka Hk. destruct (decide (a = a')) as [->|Hne].
    + by rewrite !lookup_insert_eq.
    + rewrite !lookup_insert_ne by done. by eapply Hlive.
  - intros a' Ha'. destruct (decide (a = a')) as [->|Hne].
    + by rewrite !lookup_insert_eq.
    + rewrite !lookup_insert_ne by done. apply HX.
      apply elem_of_union in Ha' as [?|Ha']; [done|].
      by apply elem_of_singleton in Ha'.
Qed.

Lemma agree_cache_put X w1 w2 k v :
  (∀ a, (k, a) ∈ live → a ∈ X) →
  agree X w1 w2 →
  agree X (set__cache (<[k := v]> (_cache w1)) w1)
          (set__cache (<[k := v]> (_cache w2)) w2).
Proof.
  intros Hk (?&?&?&?&?&?&?&Hc&Hlive&HX). repeat split; try done; simpl.
  - by rewrite Hc.
  - intros k' a Hka Hin. destruct (decide (k = k')) as [->|Hne].
    + apply HX. by apply Hk.
    + rewrite lookup_insert_ne in Hin by done. by eapply Hlive.
Qed.

Lemma sim_ret {A} X (a : A) : sim X (mret a : M (W F) A).
Proof. by intros w1 w2 Hag. Qed.

Lemma sim_raise {A} X e : sim X (raise e : M (W F) A).
Proof. by intros w1 w2 Hag. Qed.

Lemma sim_lift {A} X (r : result A) : sim X (lift r : M (W F) A).
Proof. by intros w1 w2 Hag. Qed.

Lemma sim_reads {A} X (f : W F → A) :
  (∀ w1 w2, agree X w1 w2 → f w1 = f w2) → sim X (reads f).
Proof. intros Hf w1 w2 Hag. unfold reads. simpl. split; [|done]. f_equal. auto. Qed.

Lemma sim_bind {A B} X (m : M (W F) A) (k : A → M (W F) B) :
  sim X m → (∀ a, sim X (k a)) → sim X (m ≫= k).
Proof.
  intros Hm Hk w1 w2 Hag. rewrite !bind_unfold.
  destruct (Hm w1 w2 Hag) as [Hr Hag'].
  destruct (m w1) as [[a|e] w1'], (m w2) as [[a'|e'] w2']; simpl in *;
    try discriminate; [|by injection Hr as <-].
  injection Hr as <-. by apply Hk.
Qed.

Lemma sim_if {A} X (b : bool) (m1 m2 : M (W F) A) :
  sim X m1 → sim X m2 → sim X (if b then m1 else m2).
Proof. by destruct b. Qed.

Lemma sim_for_each {A B} X (l : list A) (acc : B) (body : A → B → M (W F) B) :
  (∀ x b, sim X (body x b)) → sim X (for_each l acc body).
Proof.
  intros Hb. revert acc. induction l as [|x l IH]; intros acc; simpl.
  - apply sim_ret.
  - apply sim_bind; [apply Hb|intros; apply IH].
Qed.

Lemma sim_cached X k : sim X (cached k : M (W F) bool).
Proof.
  intros w1 w2 Hag. unfold cached. simpl. split; [|done].
  destruct Hag as (?&?&?&?&?&?&?&Hc&_). by rewrite Hc.
Qed.

Lemma sim_getattr X a : a ∈ X → sim X (getattr a : M (W F) (pyval F)).
Proof.
  intros Ha w1 w2 Hag. unfold getattr. simpl.
  destruct Hag as (?&?&?&?&?&?&?&?&?&HX). rewrite (HX a Ha).
  destruct (attrs w2 !! a); split; try done; by repeat split.
Qed.

Lemma sim_cache_put X k v :
  (∀ a, (k, a) ∈ live → a ∈ X) → sim X (cache_put k v : M (W F) unit).
Proof. intros Hk w1 w2 Hag. split; [done|]. by apply agree_cache_put. Qed.

Lemma sim_set__n X k : sim X (modify (set__n k) : M (W F) unit).
Proof.
  intros w1 w2 (?&?&?&?&?&?&?&?&?&?). split; [done|]. by repeat split.
Qed.

(** after [self.a = v] the rest may read [self.a] *)
Lemma sim_setattr_bind {B} X a v (k : M (W F) B) :
  sim (X ∪ {[a]}) k → sim X (setattr a v ≫= λ _, k).
Proof.
  intros Hk w1 w2 Hag. rewrite !bind_unfold. simpl.
  destruct (Hk _ _ (agree_setattr X w1 w2 a v Hag)) as [Hr Hag'].
  split; [done|]. eapply agree_mono; [|exact Hag']. apply union_subseteq_l.
Qed.

(** A memoized property whose key is tested and stored consistently reads
    its attribute only when both states hold the same value in it. *)
Lemma sim_memo X check store attr (compute : M (W F) (pyval F)) :
  (check, attr) ∈ live →
  (∀ a, (store, a) ∈ live → a = attr) →
  sim X compute → sim X (memo check store attr compute).
Proof.
  intros Hlive Hstore Hc w1 w2 Hag. unfold memo.
  rewrite !bind_unfold.
  destruct (sim_cached X check w1 w2 Hag) as [Hr _].
  unfold cached in *. simpl in *. injection Hr as Hr.
  destruct (bool_decide (is_Some (_cache w1 !! check))) eqn:Hin;
    rewrite <- Hr.
  - apply bool_decide_eq_true_1 in Hin.
    pose proof (agree_live X w1 w2 check attr Hlive Hin Hag) as Hag'.
    destruct (sim_getattr (X ∪ {[attr]}) attr) with (w1 := w1) (w2 := w2)
      as [Hv Hag'']; [apply elem_of_union_r, elem_of_singleton_2; done|done|].
    change ((mret () ≫= λ _, getattr attr) w1) with (getattr attr w1).
    change ((mret () ≫= λ _, getattr attr) w2) with (getattr attr w2).
    split; [done|]. eapply agree_mono; [|exact Hag'']. apply union_subseteq_l.
  - assert (sim (X ∪ {[attr]})
              ((v' ← getattr attr; cache_put store v';; getattr attr)
               : M (W F) (pyval F))) as Hrest.
    { assert (attr ∈ X ∪ {[attr]}) as Hattr
          by (apply elem_of_union_r, elem_of_singleton_2; done).
      apply sim_bind; [by apply sim_getattr|intros v'].
      apply sim_bind; [|intros _; by apply sim_getattr].
      apply sim_cache_put. intros a Ha. by rewrite (Hstore a Ha). }
    destruct (Hc w1 w2 Hag) as [Hcr Hag1].
    rewrite !bind_unfold.
    destruct (compute w1) as [[v|e] w1'], (compute w2) as [[v2|e2] w2'];
      simpl in *; try discriminate; [|by injection Hcr as <-].
    injection Hcr as <-.
    destruct (sim_setattr_bind X attr v _ Hrest w1' w2' Hag1) as [Hres Hfin].
    unfold mbind, M_bind, bind, setattr, getattr, cache_put, modify in *.
    simpl in *. rewrite !lookup_insert_eq in *. simpl in *.
    rewrite !lookup_insert_eq in *. done.
Qed.

Lemma bind_assoc {S A B C} (m : M S A) (k : A → M S B) (g : B → M S C) s :
  ((m ≫= k) ≫= g) s = (m ≫= λ a, k a ≫= g) s.
Proof. rewrite !bind_unfold. by destruct (m s) as [[a|e] s']. Qed.

Lemma agree_fields X w1 w2 :
  agree X w1 w2 →
  neighbors w1 = neighbors w2 ∧ weights w1 = weights w2
  ∧ _id_order w1 = _id_order w2 ∧ _n w1 = _n w2.
Proof. intros (?&?&?&?&?&?&?&?&?&?). done. Qed.

Ltac live_store :=
  let a := fresh "a" in
  let Ha := fresh "Ha" in
  intros a Ha; unfold live in Ha;
  repeat lazymatch type of Ha with
         | _ ∈ _ :: _ =>
           apply elem_of_cons in Ha as [Ha|Ha];
           [first [discriminate Ha | by injection Ha as ->]|]
         | _ ∈ [] => by apply elem_of_nil in Ha
         end.

Ltac live_pair := by apply (bool_decide_unpack _); vm_compute.

Ltac sim_step :=
  lazymatch goal with
  | |- sim _ (memo _ _ _ _) => apply sim_memo; [live_pair|live_store|]
  | |- sim _ (cached _) => apply sim_cached
  | |- sim _ (mret _) => apply sim_ret
  | |- sim _ (raise _) => apply sim_raise
  | |- sim _ (lift _) => apply sim_lift
  | |- sim _ (reads _) =>
    apply sim_reads; let Hag := fresh in
                     intros ? ? Hag; apply agree_fields in Hag; apply Hag
  | |- sim _ (modify (set__n _)) => apply sim_set__n
  | |- sim _ (for_each _ _ _) => apply sim_for_each; intros ? ?
  | |- sim _ (if _ then _ else _) => apply sim_if
  | |- sim _ (_ ≫= _) => apply sim_bind; [|intros ?]
  | |- sim _ ?m =>
    match m with
    | context [let '(_, _) := ?x in _] => is_var x; destruct x
    | context [match ?x with _ => _ end] => is_var x; destruct x
    | _ => solve [auto 3 with sim nocore]
    end
  end.
Ltac sim_auto := repeat sim_step.

Lemma sim_id2i X : sim X (id2i : M (W F) _).
Proof. unfold id2i. sim_auto. Qed.
Hint Resolve sim_id2i : sim.

Lemma sim_n X : sim X (n : M (W F) _).
Proof.
  unfold n. sim_auto. apply sim_cache_put. live_store.
Qed.
Hint Resolve sim_n : sim.

Lemma sim_cardinalities X : sim X (cardinalities : M (W F) _).
Proof. unfold cardinalities. sim_auto. Qed.
Hint Resolve sim_cardinalities : sim.

Lemma sim_neighbor_offsets X : sim X (neighbor_offsets : M (W F) _).
Proof.
  intros w1 w2 Hag. unfold neighbor_offsets. rewrite !bind_unfold.
  destruct (sim_cached X "neighbors_0" w1 w2 Hag) as [Hr _].
  unfold cached in *. simpl in *. injection Hr as Hr.
  destruct (bool_decide (is_Some (_cache w1 !! "neighbors_0"))) eqn:Hin;
    rewrite <- Hr.
  - apply bool_decide_eq_true_1 in Hin.
    assert (("neighbors_0", "_W__neighbors_0") ∈ live) as Hlive by live_pair.
    pose proof (agree_live X w1 w2 _ _ Hlive Hin Hag) as Hag'.
    destruct (sim_getattr (X ∪ {["_W__neighbors_0"]}) "_W__neighbors_0")
      with (w1 := w1) (w2 := w2) as [Hv Hag''];
      [apply elem_of_union_r, elem_of_singleton_2; done|done|].
    change ((mret () ≫= λ _, getattr "_W__neighbors_0") w1)
      with (getattr "_W__neighbors_0" w1).
    change ((mret () ≫= λ _, getattr "_W__neighbors_0") w2)
      with (getattr "_W__neighbors_0" w2).
    split; [done|]. eapply agree_mono; [|exact Hag'']. apply union_subseteq_l.
  - rewrite !bind_assoc.
    apply (sim_setattr_bind X "_W__neighbors_0"); [|done].
    assert ("_W__neighbors_0" ∈ X ∪ {["_W__neighbors_0"]}) as Hattr
        by (apply elem_of_union_r, elem_of_singleton_2; done).
    sim_auto; try (by apply sim_getattr).
    + intros w1' w2' Hag'. split; [done|].
      unfold setattr, modify. simpl.
      eapply agree_mono; [|by apply agree_setattr]. apply union_subseteq_l.
    + apply sim_cache_put. intros a' Ha'. revert a' Ha'.
      assert (∀ a', ("neighbors_0", a') ∈ live → a' = "_W__neighbors_0") as Hst
          by live_store.
      intros a' Ha'. by rewrite (Hst a' Ha').
Qed.
Hint Resolve sim_neighbor_offsets : sim.

Lemma sim__build_sparse X : sim X (_build_sparse : M (W F) _).
Proof. unfold _build_sparse. sim_auto. Qed.
Hint Resolve sim__build_sparse : sim.

Lemma sim_sparse X : sim X (sparse : M (W F) _).
Proof. unfold sparse. sim_auto. Qed.
Hint Resolve sim_sparse : sim.

Lemma sim_the_sparse X : sim X (the_sparse : M (W F) _).
Proof. unfold the_sparse. sim_auto. Qed.
Hint Resolve sim_the_sparse : sim.

Lemma sim_s0 X : sim X (s0 : M (W F) _).
Proof. unfold s0. sim_auto. Qed.

Lemma sim_s1 X : sim X (s1 : M (W F) _).
Proof. unfold s1. sim_auto. Qed.

Lemma sim_s2array X : sim X (s2array : M (W F) _).
Proof. unfold s2array. sim_auto. Qed.
Hint Resolve sim_s2array : sim.

Lemma sim_array_sum X (g : M (W F) (pyval F)) : sim X g → sim X (array_sum g).
Proof. intros Hg. unfold array_sum. sim_auto. Qed.
Hint Resolve sim_array_sum : sim.

Lemma sim_s2 X : sim X (s2 : M (W F) _).
Proof. unfold s2. sim_auto. Qed.

Lemma sim_diagW2 X : sim X (diagW2 : M (W F) _).
Proof. unfold diagW2. sim_auto. Qed.
Hint Resolve sim_diagW2 : sim.

Lemma sim_trcW2 X : sim X (trcW2 : M (W F) _).
Proof. unfold trcW2. sim_auto. Qed.

Lemma sim_diagWtW X : sim X (diagWtW : M (W F) _).
Proof. unfold diagWtW. sim_auto. Qed.
Hint Resolve sim_diagWtW : sim.

Lemma sim_trcWtW X : sim X (trcWtW : M (W F) _).
Proof. unfold trcWtW. sim_auto. Qed.

Lemma sim_diagWtW_WW X : sim X (diagWtW_WW : M (W F) _).
Proof. unfold diagWtW_WW. sim_auto. Qed.
Hint Resolve sim_diagWtW_WW : sim.

Lemma sim_trcWtW_WW X : sim X (trcWtW_WW : M (W F) _).
Proof. unfold trcWtW_WW. sim_auto. Qed.

Lemma sim_pct_nonzero X : sim X (pct_nonzero : M (W F) _).
Proof. unfold pct_nonzero. sim_auto. Qed.

Lemma sim_cardinality_values X : sim X (cardinality_values : M (W F) _).
Proof. unfold cardinality_values. sim_auto. Qed.
Hint Resolve sim_cardinality_values : sim.

Lemma sim_max_neighbors X : sim X (max_neighbors : M (W F) _).
Proof. unfold max_neighbors. sim_auto. Qed.
Hint Resolve sim_max_neighbors : sim.

Lemma sim_min_neighbors X : sim X (min_neighbors : M (W F) _).
Proof. unfold min_neighbors. sim_auto. Qed.
Hint Resolve sim_min_neighbors : sim.

Lemma sim_histogram X : sim X (histogram : M (W F) _).
Proof. unfold histogram. sim_auto. Qed.

Lemma sim_islands X : sim X (islands : M (W F) _).
Proof. unfold islands. sim_auto. Qed.

(** Every derived statistic reads the same in two states that agree. *)
Lemma sim_derived X q : derived q = true → sim X (run_query q : M (W F) _).
Proof.
  destruct q; simpl; try discriminate; intros _;
    auto using sim_sparse, sim_s0, sim_s1, sim_s2, sim_trcW2, sim_trcWtW,
      sim_trcWtW_WW, sim_pct_nonzero, sim_cardinalities, sim_histogram,
      sim_islands, sim_id2i, sim_neighbor_offsets.
Qed.

Lemma sim_observe qs w1 w2 :
  Forall (λ q, derived q = true) qs →
  agree ∅ w1 w2 → observe qs w1 = observe qs w2.
Proof.
  intros Hqs. revert w1 w2. induction Hqs as [|q qs Hq _ IH]; intros w1 w2 Hag.
  { done. }
  simpl. destruct (sim_derived ∅ q Hq w1 w2 Hag) as [Hr Hag'].
  destruct (run_query q w1) as [r1 w1'], (run_query q w2) as [r2 w2'].
  simpl in *. subst r2. f_equal. by apply IH.
Qed.

(** A state with an empty cache agrees with itself under any memo
    attributes. *)
Lemma agree_empty_cache w stale :
  _cache w = ∅ → agree ∅ w (set_attrs stale w).
Proof.
  intros Hc. repeat split; try done.
  intros k a _ [v Hv]. rewrite Hc, lookup_empty in Hv. done.
Qed.
End sim_facts.

(** C1. A [set_transform] that swaps or computes weights (it returns
    without the unsupported-transformation report) and a successful
    assignment of the observation order leave the cache empty, all of it;
    and whatever the memo attributes hold from before the change, every
    sequence of reads of the derived statistics (sparse, s0, s1, s2, trcW2,
    trcWtW, trcWtW_WW, pct_nonzero, cardinalities, histogram, islands, id2i,
    neighbor_offsets) gives, after the change, the results it gives with
    those attributes replaced by anything else: no value computed before
    the change is read back. *)
Theorem C1_mutation_clears_cache {F : Type} `{Arith F}
    (mu : mutation) (w w' : W F) (qs : list query)
    (stale : gmap string (pyval F)) :
  mutate mu w = (Ok [], w') →
  Forall (λ q, derived q = true) qs →
  _cache w' = ∅ ∧ observe qs w' = observe qs (set_attrs stale w').
Proof.
  intros Hmu Hqs.
  assert (_cache w' = ∅) as Hc.
  { destruct mu as [v|ids]; simpl in Hmu.
    - pose proof (set_transform_outcome v w) as Ho. rewrite Hmu in Ho.
      simpl in Ho. by inversion Ho.
    - rewrite bind_unfold in Hmu.
      destruct (decide (list_to_set (_id_order w) =@{gset pyid} list_to_set ids))
        as [Heq|Hne].
      + rewrite (set_id_order_match ids w Heq) in Hmu. by injection Hmu as <-.
      + by rewrite (set_id_order_mismatch ids w Hne) in Hmu. }
  split; [done|]. apply sim_observe; [done|]. by apply agree_empty_cache.
Qed.

Lemma C1_mutation_clears_cache_witness :
  observe [Q_s0; Q_trcW2; Q_histogram] (set_transform "r" lattice_W).2
  = observe [Q_s0; Q_trcW2; Q_histogram]
      (set_attrs {["_s0" := VFloat 24%float]} (set_transform "r" lattice_W).2).
Proof.
  refine (proj2 (C1_mutation_clears_cache (Set_transform "r") lattice_W _
                   [Q_s0; Q_trcW2; Q_histogram] _ _ _)).
  - by vm_compute.
  - by repeat constructor.
Defined.


(** ** Loops that cannot raise, sorted keys, sizes *)

Lemma sorted_keys_order (nb : gmap pyid (list pyid)) :
  is_order nb (py_sorted (map_to_list nb).*1).
Proof.
  unfold is_order, py_sorted. split.
  - rewrite merge_sort_Permutation. apply NoDup_fst_map_to_list.
  - rewrite (list_to_set_perm_L _ _ (merge_sort_Permutation _ _)).
    symmetry. apply leibniz_equiv, dom_alt.
Qed.

Lemma same_shape_size {A B} (a : gmap pyid (list A)) (b : gmap pyid (list B)) :
  same_shape a b → size b = size a.
Proof.
  intros Hab. rewrite <- !size_dom. f_equal. apply set_eq. intros i.
  rewrite !elem_of_dom. specialize (Hab i).
  destruct (a !! i), (b !! i); simpl in *; try done; split; intros [? ?]; done.
Qed.

Lemma fold_result_foldl {A B} (g : A → B → result B) (h : B → A → B) l acc :
  (∀ x b, x ∈ l → g x b = Ok (h b x)) →
  fold_result g l acc = Ok (foldl h acc l).
Proof.
  revert acc. induction l as [|x l IH]; intros acc Hg; simpl; [done|].
  rewrite Hg by (by left). simpl. apply IH. intros y b Hy. apply Hg. by right.
Qed.

(** ** Higher-order contiguity and shortest paths *)

Section contiguity_facts.
Context {F : Type} `{Arith F}.
Local Open Scope nat_scope.
Implicit Types (nb : gmap pyid (list pyid)) (ids : list pyid).







Lemma order_unit nb ids i : is_order nb ids → (i ∈ ids ↔ is_Some (nb !! i)).
Proof.
  intros [_ Hids]. rewrite <- elem_of_dom, <- Hids. by rewrite elem_of_list_to_set.
Qed.





End contiguity_facts.




Section hoare_facts.
Context {S : Type}.

Lemma hoare_ret {A} (P : S → Prop) (a : A) (Q : A → S → Prop) :
  (∀ s, P s → Q a s) → hoare P (mret a) Q.
Proof. intros HQ s Hs. exists a, s. split; [done|]. by apply HQ. Qed.

Lemma hoare_lift {A} (P : S → Prop) (a : A) (Q : A → S → Prop) :
  (∀ s, P s → Q a s) → hoare P (lift (Ok a)) Q.
Proof. intros HQ s Hs. exists a, s. split; [done|]. by apply HQ. Qed.

Lemma hoare_reads {A} (P : S → Prop) (f : S → A) (Q : A → S → Prop) :
  (∀ s, P s → Q (f s) s) → hoare P (reads f) Q.
Proof. intros HQ s Hs. exists (f s), s. split; [done|]. by apply HQ. Qed.

Lemma hoare_modify (P : S → Prop) (f : S → S) (Q : unit → S → Prop) :
  (∀ s, P s → Q tt (f s)) → hoare P (modify f) Q.
Proof. intros HQ s Hs. exists tt, (f s). split; [done|]. by apply HQ. Qed.

Lemma hoare_bind {A B} (P : S → Prop) (m : M S A) (k : A → M S B)
    (Q1 : A → S → Prop) (Q2 : B → S → Prop) :
  hoare P m Q1 → (∀ a, hoare (Q1 a) (k a) Q2) → hoare P (m ≫= k) Q2.
Proof.
  intros Hm Hk s Hs. destruct (Hm s Hs) as (a & s1 & Hms & HQ1).
  destruct (Hk a s1 HQ1) as (b & s2 & Hks & HQ2).
  exists b, s2. split; [|done]. by rewrite bind_unfold, Hms.
Qed.

Lemma hoare_conseq {A} (P P' : S → Prop) (m : M S A) (Q Q' : A → S → Prop) :
  (∀ s, P' s → P s) → (∀ a s, Q a s → Q' a s) → hoare P m Q → hoare P' m Q'.
Proof.
  intros HP HQ Hm s Hs. destruct (Hm s (HP s Hs)) as (a & s' & Hms & Ha).
  exists a, s'. split; [done|]. by apply HQ.
Qed.

(** A loop whose body computes [g] on the accumulator and moves the state
    along the invariants [J o]. *)
Lemma hoare_for_each {A B G} (J : G → S → Prop) (g : B → A → B) (γ : G → A → G)
    (l : list A) (acc : B) (o : G) (body : A → B → M S B) :
  (∀ x b o', x ∈ l →
     hoare (J o') (body x b) (λ b' s', b' = g b x ∧ J (γ o' x) s')) →
  hoare (J o) (for_each l acc body)
        (λ b' s', b' = foldl g acc l ∧ J (foldl γ o l) s').
Proof.
  revert acc o. induction l as [|x l IH]; intros acc o Hb; simpl.
  { by apply hoare_ret. }
  eapply hoare_bind; [apply Hb; by left|].
  intros b'. simpl. intros s [-> Hs].
  apply IH; [|done]. intros x' b o' Hx'. apply Hb. by right.
Qed.
End hoare_facts.

Section hoare_memo.
Context {F : Type} `{Arith F}.

Lemma hoare_memo (P : W F → Prop) check store attr compute (v : pyval F) :
  (∀ w, P w → is_Some (_cache w !! check) → attrs w !! attr = Some v) →
  hoare P compute (λ a w', a = v ∧ P w') →
  (∀ w, P w → P (stored store attr v w)) →
  hoare P (memo check store attr compute) (λ a w', a = v ∧ P w').
Proof.
  intros Hhit Hc Hput w Hw. unfold memo. rewrite bind_unfold. simpl.
  case_bool_decide as Hin.
  - exists v, w. split; [|done].
    rewrite bind_unfold. simpl. unfold getattr. simpl. by rewrite (Hhit w Hw Hin).
  - destruct (Hc w Hw) as (a & w1 & Hcw & -> & Hw1).
    exists v, (stored store attr v w1). split; [|split; [done|by apply Hput]].
    rewrite !bind_unfold, Hcw. simpl.
    unfold mbind, M_bind, bind, setattr, getattr, cache_put, modify. simpl.
    rewrite lookup_insert_eq. simpl. by rewrite lookup_insert_eq.
Qed.
End hoare_memo.

(** ** Dictionaries built by insertion *)

Section insertion.
Context {K A V : Type} `{Countable K}.

(** inserting [f x] under [key x] for each [x] of a list *)
Lemma foldl_insert_lookup (key : A → K) (f : A → V) (l : list A) (d : gmap K V) i :
  (foldl (λ d x, <[key x := f x]> d) d l !! i = d !! i ∧ i ∉ key <$> l)
  ∨ ∃ x, x ∈ l ∧ key x = i ∧ foldl (λ d x, <[key x := f x]> d) d l !! i = Some (f x).
Proof.
  revert d. induction l as [|x l IH] using rev_ind; intros d.
  { left. split; [done|]. apply not_elem_of_nil. }
  rewrite foldl_app. simpl. destruct (decide (key x = i)) as [Hx|Hx].
  - right. exists x. split; [apply elem_of_app; right; by left|].
    split; [done|]. by rewrite <- Hx, lookup_insert_eq.
  - rewrite lookup_insert_ne by done.
    destruct (IH d) as [[Hd Hi]|(y & Hy & Hky & Hv)].
    + left. split; [done|]. rewrite fmap_app, elem_of_app. intros [?|Hin]; [done|].
      simpl in Hin. rewrite elem_of_cons, elem_of_nil in Hin.
      by destruct Hin as [?|[]].
    + right. exists y. split; [apply elem_of_app; by left|done].
Qed.

Lemma foldl_insert_is_Some (key : A → K) (f : A → V) (l : list A) (d : gmap K V) x :
  x ∈ l →
  ∃ y, y ∈ l ∧ key y = key x
       ∧ foldl (λ d x, <[key x := f x]> d) d l !! key x = Some (f y).
Proof.
  intros Hx. destruct (foldl_insert_lookup key f l d (key x))
    as [[_ Hn]|(y & Hy & Hk & Hv)]; [|by exists y].
  destruct Hn. apply list_elem_of_fmap. by exists x.
Qed.

End insertion.

(** inserting the images of the items of a dictionary rebuilds its image *)
Lemma foldl_insert_items {K A V} `{Countable K} (f : A → V) (m : gmap K A) :
  foldl (λ d kx, <[kx.1 := f kx.2]> d) ∅ (map_to_list m) = f <$> m.
Proof.
  apply map_eq. intros i. rewrite lookup_fmap.
  destruct (foldl_insert_lookup fst (λ kx, f kx.2) (map_to_list m) ∅ i)
    as [[-> Hn]|([k x] & Hin & Hk & ->)].
  - rewrite lookup_empty. destruct (m !! i) as [x|] eqn:Hx; [|done].
    destruct Hn. apply list_elem_of_fmap. exists (i, x). split; [done|].
    by apply elem_of_map_to_list.
  - simpl in *. subst k. apply elem_of_map_to_list in Hin. by rewrite Hin.
Qed.

Lemma foldl_invariant {A B} (I : B → Prop) (g : B → A → B) (l : list A) (b : B) :
  (∀ b x, x ∈ l → I b → I (g b x)) → I b → I (foldl g b l).
Proof.
  revert b. induction l as [|x l IH]; intros b Hg Hb; simpl; [done|].
  apply IH.
  - intros b' x' Hx'. apply Hg. by right.
  - apply Hg; [by left|done].
Qed.

Lemma traverse_Ok {A B} (f : A → result B) (g : A → B) (l : list A) :
  (∀ x, x ∈ l → f x = Ok (g x)) → traverse f l = Ok (g <$> l).
Proof.
  induction l as [|x l IH]; intros Hf; simpl; [done|].
  rewrite Hf by (by left). simpl. rewrite IH; [done|].
  intros y Hy. apply Hf. by right.
Qed.

(** ** Chaining steps whose value is known *)

Section hoare_known.
Context {S : Type}.

Lemma hoare_known_bind {A B} (P P' : S → Prop) (m : M S A) (k : A → M S B) a
    (Q : B → S → Prop) :
  hoare P m (λ v s, v = a ∧ P' s) → hoare P' (k a) Q → hoare P (m ≫= k) Q.
Proof.
  intros Hm Hk. eapply hoare_bind; [exact Hm|].
  intros v s [-> Hs]. by apply Hk.
Qed.

Lemma hoare_reads_bind {A B} (P : S → Prop) (f : S → A) (k : A → M S B) a
    (Q : B → S → Prop) :
  (∀ s, P s → f s = a) → hoare P (k a) Q → hoare P (reads f ≫= k) Q.
Proof.
  intros Hf Hk. apply (hoare_known_bind P P _ _ a); [|done].
  intros s Hs. exists (f s), s. split; [done|]. split; [by apply Hf|done].
Qed.

Lemma hoare_lift_bind {A B} (P : S → Prop) (r : result A) (k : A → M S B) a
    (Q : B → S → Prop) :
  r = Ok a → hoare P (k a) Q → hoare P (lift r ≫= k) Q.
Proof.
  intros -> Hk. apply (hoare_known_bind P P _ _ a); [|done].
  intros s Hs. by exists a, s.
Qed.

Lemma hoare_known_ret {A} (P : S → Prop) (a b : A) :
  a = b → hoare P (mret a) (λ v s, v = b ∧ P s).
Proof. intros ->. by apply hoare_ret. Qed.

(** a loop that computes [foldl g] and keeps the invariant [P] *)
Lemma hoare_fold {A B} (P : S → Prop) (g : B → A → B) (l : list A) (acc : B)
    (body : A → B → M S B) :
  (∀ x b, x ∈ l → hoare P (body x b) (λ b' s', b' = g b x ∧ P s')) →
  hoare P (for_each l acc body) (λ b' s', b' = foldl g acc l ∧ P s').
Proof.
  intros Hb.
  eapply hoare_conseq;
    [| |apply (hoare_for_each (λ (_ : unit) s, P s) g (λ u _, u) l acc tt)].
  - intros s Hs. exact Hs.
  - intros b s Hbs. exact Hbs.
  - intros x b [] Hx. by apply Hb.
Qed.
End hoare_known.

(** ** The sparse matrix of a well-formed container *)

Section sparse_facts.
Context {F : Type} `{Arith F}.
Context (nb : gmap pyid (list pyid)) (wts : gmap pyid (list F)) (ids : list pyid).
Context (Hord : is_order nb ids) (Hclosed : closed nb) (Hshape : same_shape nb wts).
Local Open Scope nat_scope.

Local Abbreviation ok := (consistent nb wts ids).
Local Abbreviation ix := (index_map ids).
Local Abbreviation cards := (cardinality_map nb ids).
Local Abbreviation offs := (offsets_map nb ids).

Lemma length_order : length ids = size nb.
Proof using Hord.
  destruct Hord as [Hnd Hset].
  by rewrite <- size_dom, <- Hset, size_list_to_set.
Qed.

Lemma unit_in_order i : i ∈ ids ↔ is_Some (nb !! i).
Proof using Hord. by apply order_unit. Qed.

Lemma index_map_lookup i :
  i ∈ ids → ∃ k, ix !! i = Some k ∧ k < size nb.
Proof using Hord.
  intros Hi. apply list_elem_of_lookup in Hi as [k Hk].
  assert ((k, i) ∈ imap pair ids) as Hin.
  { apply elem_of_lookup_imap. by exists k, i. }
  destruct (foldl_insert_is_Some snd fst (imap pair ids) ∅ (k, i) Hin)
    as ([k' i'] & Hin' & Hi' & Hv). simpl in *. subst i'.
  exists k'. split; [exact Hv|].
  apply elem_of_lookup_imap in Hin' as (k2 & i2 & [= -> ->] & Hk2).
  rewrite <- length_order. by eapply lookup_lt_Some.
Qed.

Lemma cardinality_map_lookup i :
  i ∈ ids → cards !! i = Some (length (default [] (nb !! i))).
Proof.
  intros Hi.
  destruct (foldl_insert_is_Some id (λ i, length (default [] (nb !! i))) ids ∅ i Hi)
    as (y & _ & Hy & Hv). simpl in *. by subst y.
Qed.

Lemma offsets_map_lookup i : offs !! i = offsets_of ids <$> nb !! i.
Proof. apply lookup_fmap. Qed.

Lemma neighbor_in_order i l j : nb !! i = Some l → j ∈ l → j ∈ ids.
Proof using Hord Hclosed.
  intros Hl Hj. apply unit_in_order. specialize (Hclosed i l Hl). simpl in Hclosed.
  by apply (proj1 (Forall_forall _ _) Hclosed).
Qed.

(** every offset is an index of the matrix *)
Lemma offsets_in_range i l :
  nb !! i = Some l → Forall (λ k, k < size nb) (offsets_of ids l).
Proof using Hord Hclosed.
  intros Hl. apply Forall_forall. intros k Hk.
  apply list_elem_of_fmap in Hk as (j & -> & Hj).
  destruct (index_map_lookup j) as (k & -> & Hlt); [by eapply neighbor_in_order|].
  done.
Qed.

(** storing a statistic of the matrix keeps a consistent state consistent *)
Lemma ok_stored_id2i p w : ok p w → ok p (stored "id2i" "_id2i" (VCounts ix) w).
Proof.
  intros (?&?&?&?&?&?&?&?&Hp). repeat split; simpl; try done.
  - intros _. by rewrite lookup_insert_eq.
  - rewrite !lookup_insert_ne by done. done.
  - rewrite !lookup_insert_ne by done. done.
  - rewrite !lookup_insert_ne by done. done.
  - destruct p; rewrite !lookup_insert_ne by done; done.
Qed.

Lemma ok_stored_cardinalities p w :
  ok p w → ok p (stored "cardinalities" "_cardinalities" (VCounts cards) w).
Proof.
  intros (?&?&?&?&?&?&?&?&Hp). repeat split; simpl; try done.
  - rewrite !lookup_insert_ne by done. done.
  - intros _. by rewrite lookup_insert_eq.
  - rewrite !lookup_insert_ne by done. done.
  - rewrite !lookup_insert_ne by done. done.
  - destruct p; rewrite !lookup_insert_ne by done; done.
Qed.

Lemma ok_stored_sparse w :
  ok None w →
  ok None (stored "sparse" "_sparse" (VSparse (sparse_matrix nb wts ids)) w).
Proof.
  intros (?&?&?&?&?&?&?&?&Hp). repeat split; simpl; try done.
  - rewrite !lookup_insert_ne by done. done.
  - rewrite !lookup_insert_ne by done. done.
  - intros _. by rewrite lookup_insert_eq.
  - rewrite !lookup_insert_ne by done. done.
  - rewrite !lookup_insert_ne by done; done.
Qed.

Lemma ok_stored_s0 w :
  ok None w →
  ok None (stored "s0" "_s0" (VFloat (msum (sparse_matrix nb wts ids))) w).
Proof.
  intros (?&?&?&?&?&?&?&?&Hp). repeat split; simpl; try done.
  - rewrite !lookup_insert_ne by done. done.
  - rewrite !lookup_insert_ne by done. done.
  - rewrite !lookup_insert_ne by done. done.
  - intros _. by rewrite lookup_insert_eq.
  - rewrite !lookup_insert_ne by done; done.
Qed.

Lemma ok_pending_start w :
  ok None w → _cache w !! "neighbors_0" = None →
  ok (Some ∅) (set_attrs (<["_W__neighbors_0" := VOffsets ∅]> (attrs w)) w).
Proof.
  intros (?&?&?&?&?&?&?&?&Hp) Hc. repeat split; simpl; try done.
  - rewrite !lookup_insert_ne by done. done.
  - rewrite !lookup_insert_ne by done. done.
  - rewrite !lookup_insert_ne by done. done.
  - rewrite !lookup_insert_ne by done. done.
  - by rewrite lookup_insert_eq.
Qed.

Lemma ok_pending_step o o' w :
  ok (Some o) w →
  ok (Some o') (set_attrs (<["_W__neighbors_0" := VOffsets o']> (attrs w)) w).
Proof.
  intros (?&?&?&?&?&?&?&?&Hc&Ha). repeat split; simpl; try done.
  - rewrite !lookup_insert_ne by done. done.
  - rewrite !lookup_insert_ne by done. done.
  - rewrite !lookup_insert_ne by done. done.
  - rewrite !lookup_insert_ne by done. done.
  - by rewrite lookup_insert_eq.
Qed.

Lemma ok_pending_done w :
  ok (Some offs) w →
  ok None (set__cache (<["neighbors_0" := VOffsets offs]> (_cache w)) w).
Proof.
  intros (?&?&?&?&?&?&?&?&Hc&Ha). repeat split; simpl; try done.
  all: rewrite ?lookup_insert_ne by done; done.
Qed.

Lemma id2i_spec p : hoare (ok p) id2i (λ v w', v = VCounts ix ∧ ok p w').
Proof.
  unfold id2i. apply hoare_memo.
  - intros w Hw. apply Hw.
  - intros w Hw. exists (VCounts ix), w. split; [|done].
    destruct Hw as (_ & _ & Hids & _).
    unfold mbind, M_bind, bind, reads. simpl. by rewrite Hids.
  - intros w. apply ok_stored_id2i.
Qed.

Lemma cardinalities_spec p :
  hoare (ok p) cardinalities (λ v w', v = VCounts cards ∧ ok p w').
Proof using Hord.
  unfold cardinalities. apply hoare_memo.
  - intros w Hw. apply Hw.
  - apply (hoare_reads_bind _ _ _ ids); [intros s Hs; apply Hs|].
    eapply hoare_known_bind; [|by apply hoare_known_ret].
    apply (hoare_fold _ (λ c i, <[i := length (default [] (nb !! i))]> c)).
    intros i c Hi.
    apply (hoare_reads_bind _ _ _ nb); [intros s Hs; apply Hs|].
    apply unit_in_order in Hi as [l Hl].
    apply (hoare_lift_bind _ _ _ l); [unfold subscript; by rewrite Hl|].
    apply hoare_known_ret. by rewrite Hl.
  - intros w. apply ok_stored_cardinalities.
Qed.

Lemma n_spec p : hoare (ok p) n (λ v w', v = VInt (size nb) ∧ ok p w').
Proof.
  intros w Hw. unfold n. rewrite bind_unfold. simpl.
  destruct Hw as (Hnb & Hwts & Hids & Hn & H1 & H2 & H3 & H4 & Hp).
  case_bool_decide as Hin.
  - exists (VInt (size nb)), w. split; [|by repeat split].
    unfold mbind, M_bind, bind, reads. simpl. by rewrite Hn.
  - exists (VInt (size nb)),
      (set__cache (<["n" := VInt (size nb)]> (_cache w)) (set__n (size nb) w)).
    split.
    + unfold mbind, M_bind, bind, reads, modify, cache_put. simpl.
      by rewrite Hnb.
    + split; [done|]. repeat split; simpl; try done.
      all: rewrite ?lookup_insert_ne by done; try done.
Qed.

Lemma neighbor_offsets_spec :
  hoare (ok None) neighbor_offsets (λ v w', v = VOffsets offs ∧ ok None w').
Proof using Hord Hclosed.
  intros w Hw. unfold neighbor_offsets. rewrite bind_unfold. simpl.
  case_bool_decide as Hin.
  { exists (VOffsets offs), w. split; [|done].
    destruct Hw as (_&_&_&_&_&_&_&_&Hp).
    rewrite bind_unfold. simpl. unfold getattr. simpl. by rewrite (Hp Hin). }
  assert (_cache w !! "neighbors_0" = None) as Hnone.
  { destruct (_cache w !! "neighbors_0") eqn:Hc; [|done]. destruct Hin. by eexists. }
  rewrite bind_assoc, bind_unfold. simpl.
  pose proof (ok_pending_start w Hw Hnone) as Hstart.
  revert Hstart. generalize (set_attrs (<["_W__neighbors_0" := VOffsets ∅]> (attrs w)) w).
  clear w Hw Hin Hnone.
  apply (hoare_bind (ok (Some ∅)) _ _
           (λ _ s, ok None s ∧ attrs s !! "_W__neighbors_0" = Some (VOffsets offs))).
  2:{ intros _ s [Hs Ha]. exists (VOffsets offs), s.
      split; [|done]. unfold getattr. simpl. by rewrite Ha. }
  eapply hoare_known_bind; [apply id2i_spec|].
  apply (hoare_lift_bind _ _ _ ix); [done|].
  apply (hoare_reads_bind _ _ _ nb); [intros s Hs; apply Hs|].
  apply (hoare_bind _ _ _ (λ _ s, ok (Some offs) s)).
  { eapply hoare_conseq;
      [| |apply (hoare_for_each (λ o s, ok (Some o) s) (λ u _, u)
                   (λ o kx, <[kx.1 := offsets_of ids kx.2]> o)
                   (map_to_list nb) tt ∅)].
    - intros s Hs. exact Hs.
    - intros u s [_ Hs]. simpl in Hs. by rewrite foldl_insert_items in Hs.
    - intros [i l] [] o Hil. apply elem_of_map_to_list in Hil.
      apply (hoare_lift_bind _ _ _ (offsets_of ids l)).
      { apply traverse_Ok. intros j Hj.
        destruct (index_map_lookup j) as (k & Hk & _);
          [by eapply neighbor_in_order|].
        unfold subscript. by rewrite Hk. }
      intros s Hs.
      exists tt, (set_attrs (<["_W__neighbors_0" := VOffsets (<[i := offsets_of ids l]> o)]>
                              (attrs s)) s).
      split; [|split; [done|by eapply ok_pending_step]].
      destruct Hs as (_&_&_&_&_&_&_&_&_&Ha).
      unfold mbind, M_bind, bind, getattr, setattr, modify, lift. simpl.
      by rewrite Ha. }
  intros _ s Hs.
  exists tt, (set__cache (<["neighbors_0" := VOffsets offs]> (_cache s)) s).
  split; [|split; [by apply ok_pending_done|apply Hs]].
  destruct Hs as (_&_&_&_&_&_&_&_&_&Ha).
  unfold mbind, M_bind, bind, getattr, cache_put, modify. simpl. by rewrite Ha.
Qed.

(** what the items of the offsets dictionary are *)
Lemma offsets_item i nl :
  (i, nl) ∈ map_to_list offs →
  ∃ l x k, nb !! i = Some l ∧ nl = offsets_of ids l
           ∧ wts !! i = Some x ∧ length x = length l
           ∧ cards !! i = Some (length l)
           ∧ ix !! i = Some k ∧ k < size nb.
Proof using Hord Hshape.
  intros Hin. apply elem_of_map_to_list in Hin.
  rewrite offsets_map_lookup in Hin.
  destruct (nb !! i) as [l|] eqn:Hl; simpl in Hin; [|done].
  injection Hin as <-.
  assert (i ∈ ids) as Hi by (apply unit_in_order; by eexists).
  pose proof (Hshape i) as Hsh. rewrite Hl in Hsh. simpl in Hsh.
  destruct (wts !! i) as [x|] eqn:Hx; simpl in Hsh; [|done].
  injection Hsh as Hsh.
  destruct (index_map_lookup i Hi) as (k & Hk & Hlt).
  exists l, x, k. repeat split; try done.
  rewrite (cardinality_map_lookup i Hi). by rewrite Hl.
Qed.

(** the three arrays have one length and hold indices of the matrix *)
Lemma collected_arrays row col data :
  collected nb wts ids = (row, col, data) →
  length row = length data ∧ length col = length data
  ∧ Forall (λ i, i < size nb) row ∧ Forall (λ j, j < size nb) col.
Proof using Hord Hclosed Hshape.
  intros Hc.
  pose proof (foldl_invariant
    (λ acc : list nat * list nat * list F,
       length acc.1.1 = length acc.2 ∧ length acc.1.2 = length acc.2
       ∧ Forall (λ i, i < size nb) acc.1.1 ∧ Forall (λ j, j < size nb) acc.1.2)
    (collect nb wts ids) (map_to_list offs) ([], [], [])) as Hinv.
  fold (collected nb wts ids) in Hinv. rewrite Hc in Hinv. apply Hinv.
  - intros [[r c] d] [i nl] Hin (Hr & Hcl & Hfr & Hfc). simpl in *.
    destruct (offsets_item i nl Hin) as (l & x & k & Hl & -> & Hx & Hlen & Hcd & Hk & Hlt).
    rewrite Hcd, Hk, Hx. simpl.
    rewrite !length_app, length_replicate. unfold offsets_of at 1.
    rewrite length_fmap.
    repeat split; [lia|lia| |].
    + apply Forall_app. split; [done|]. by apply Forall_replicate.
    + apply Forall_app. split; [done|]. by eapply offsets_in_range.
  - simpl. repeat split; constructor.
Qed.

Lemma csr_collected row col data :
  collected nb wts ids = (row, col, data) →
  csr_matrix data row col (size nb) = Ok (sparse_matrix nb wts ids).
Proof using Hord Hclosed Hshape.
  intros Hc. destruct (collected_arrays row col data Hc) as (?&?&?&?).
  unfold csr_matrix, sparse_matrix. rewrite Hc.
  by rewrite bool_decide_eq_true_2.
Qed.

Lemma _build_sparse_spec :
  hoare (ok None) _build_sparse
        (λ m w', m = sparse_matrix nb wts ids ∧ ok None w').
Proof using Hord Hclosed Hshape.
  unfold _build_sparse.
  eapply hoare_known_bind; [apply id2i_spec|].
  apply (hoare_lift_bind _ _ _ ix); [done|].
  eapply hoare_known_bind; [apply neighbor_offsets_spec|].
  apply (hoare_lift_bind _ _ _ offs); [done|].
  eapply hoare_known_bind.
  { apply (hoare_fold _ (collect nb wts ids)).
    intros [i nl] [[row col] data] Hin.
    destruct (offsets_item i nl Hin) as (l & x & k & Hl & -> & Hx & Hlen & Hcd & Hk & Hlt).
    eapply hoare_known_bind; [apply cardinalities_spec|].
    apply (hoare_lift_bind _ _ _ cards); [done|].
    apply (hoare_lift_bind _ _ _ (length l)); [unfold subscript; by rewrite Hcd|].
    apply (hoare_lift_bind _ _ _ k); [unfold subscript; by rewrite Hk|].
    apply (hoare_reads_bind _ _ _ wts); [intros s Hs; apply Hs|].
    apply (hoare_lift_bind _ _ _ x); [unfold subscript; by rewrite Hx|].
    apply hoare_known_ret. simpl. by rewrite Hcd, Hk, Hx. }
  fold (collected nb wts ids).
  destruct (collected nb wts ids) as [[row col] data] eqn:Hc.
  eapply hoare_known_bind; [apply n_spec|].
  apply (hoare_lift_bind _ _ _ (size nb)); [done|].
  eapply hoare_known_bind; [apply n_spec|].
  apply (hoare_lift_bind _ _ _ (size nb)); [done|].
  rewrite bool_decide_eq_true_2 by done.
  rewrite (csr_collected row col data Hc).
  intros s Hs. by exists (sparse_matrix nb wts ids), s.
Qed.

Lemma sparse_spec :
  hoare (ok None) sparse
        (λ v w', v = VSparse (sparse_matrix nb wts ids) ∧ ok None w').
Proof using Hord Hclosed Hshape.
  unfold sparse. apply hoare_memo.
  - intros w Hw. apply Hw.
  - eapply hoare_known_bind; [apply _build_sparse_spec|]. by apply hoare_known_ret.
  - intros w. apply ok_stored_sparse.
Qed.

Lemma the_sparse_spec :
  hoare (ok None) the_sparse (λ m w', m = sparse_matrix nb wts ids ∧ ok None w').
Proof using Hord Hclosed Hshape.
  unfold the_sparse.
  eapply hoare_known_bind; [apply sparse_spec|].
  intros s Hs. by exists (sparse_matrix nb wts ids), s.
Qed.

(** On a well-formed container [s0] returns, with the sum of the entries of
    the matrix collected from the neighbors and the weights. *)
Lemma s0_spec :
  hoare (ok None) s0
        (λ v w', v = VFloat (msum (sparse_matrix nb wts ids)) ∧ ok None w').
Proof using Hord Hclosed Hshape.
  unfold s0. apply hoare_memo.
  - intros w Hw. apply Hw.
  - eapply hoare_known_bind; [apply the_sparse_spec|]. by apply hoare_known_ret.
  - intros w. apply ok_stored_s0.
Qed.
End sparse_facts.

(** ** The shape of a matrix built from triples *)

Section matrix_shape.

Lemma row_data_cons {F} (c : option F) (r : list (option F)) :
  row_data (c :: r) = match c with Some y => y :: row_data r | None => row_data r end.
Proof. by destruct c. Qed.

Lemma mdata_cons {F} (r : list (option F)) (m : mat F) :
  mdata (r :: m) = (row_data r ++ mdata m)%list.
Proof. reflexivity. Qed.

Lemma square_mzero {F} n : square (F:=F) n (mzero n).
Proof.
  split; [apply length_replicate|].
  apply Forall_replicate, length_replicate.
Qed.

Lemma square_add_entry {F} `{Arith F} n (m : mat F) t :
  square n m → square n (add_entry m t).
Proof.
  intros [Hlen Hrows]. unfold add_entry. split.
  - by rewrite length_alter.
  - apply Forall_alter; [done|]. intros r _ Hr. by rewrite length_alter.
Qed.

Lemma zip_in_range {A} n (row col : list nat) (data : list A) :
  Forall (λ i, i < n)%nat row → Forall (λ j, j < n)%nat col →
  Forall (λ t, t.1.1 < n ∧ t.1.2 < n)%nat (zip (zip row col) data).
Proof.
  intros Hr Hc. apply Forall_forall. intros [[i j] x] Hin.
  apply elem_of_zip_l in Hin. simpl.
  split.
  - apply (proj1 (Forall_forall _ _) Hr). by eapply elem_of_zip_l.
  - apply (proj1 (Forall_forall _ _) Hc). by eapply elem_of_zip_r.
Qed.
End matrix_shape.

(** Row standardization and islands.  A unit without neighbors has an empty
    row, which row standardization leaves empty.  On [W(island_graph)], of
    three units, [s0] is [2.0] after [set_transform("R")]: it misses [n] by
    [1].  (Every number of this computation is exact in binary64.) *)
Example island_row_standardized_s0 :
  (set_transform "R" island_W).1 = Ok []
  ∧ (n (set_transform "R" island_W).2).1 = Ok (VInt 3)
  ∧ (s0 (set_transform "R" island_W).2).1 = Ok (VFloat 2%float)
  ∧ PrimFloat.abs (PrimFloat.sub 2 (of_nat 3)) = 1%float.
Proof. by vm_compute. Qed.

Section transform_extras.
Context {F : Type} `{Arith F}.
Implicit Types w : W F.

Lemma upper_ascii_idem c : upper_ascii (upper_ascii c) = upper_ascii c.
Proof. destruct c as [[] [] [] [] [] [] [] []]; by vm_compute. Qed.

Lemma upper_idem s : upper (upper s) = upper s.
Proof. induction s as [|c s IH]; simpl; [done|]. by rewrite upper_ascii_idem, IH. Qed.

(** the error of a loop: a step that always raises [e], in a loop whose
    steps can raise nothing else *)
Lemma fold_result_raises {A B} (g : A → B → result B) (e : exn) l acc :
  (∀ x b, x ∈ l → g x b = Raise e ∨ ∃ b', g x b = Ok b') →
  (∃ x, x ∈ l ∧ ∀ b, g x b = Raise e) →
  fold_result g l acc = Raise e.
Proof.
  revert acc. induction l as [|x l IH]; intros acc Hall (y & Hy & Hbad).
  { by apply elem_of_nil in Hy. }
  simpl. destruct (Hall x acc) as [->|[b' Hb']]; [by left|done|].
  rewrite Hb'. simpl. apply IH.
  - intros z b Hz. apply Hall. by right.
  - apply elem_of_cons in Hy as [->|Hy]; [|by exists y].
    rewrite Hbad in Hb'. done.
Qed.

Lemma traverse_py_div (s : F) (l : list F) :
  traverse (λ x, py_div x s) l
  = if fis_zero s then match l with [] => Ok [] | _ => Raise ZeroDivisionError end
    else Ok ((λ x, fdiv x s) <$> l).
Proof.
  unfold py_div. destruct (fis_zero s).
  - by destruct l.
  - induction l as [|x l IH]; simpl; [done|]. by rewrite IH.
Qed.
End transform_extras.

(** X1. Transformation names are not case sensitive: a name and its
    upper-cased form act alike, on every container. *)
Theorem X1_transform_name_case {F : Type} `{Arith F} (v : string) (w : W F) :
  set_transform (upper v) w = set_transform v w.
Proof. unfold set_transform. by rewrite upper_idem. Qed.

(** X2. Whatever [set_transform] does with a value (swap a registered
    mapping in, compute one, raise, or report the value as unsupported), the
    designation afterwards is the upper-cased value, and the neighbors, the
    observation order and the [id_order_set] flag are as before. *)
Theorem X2_transform_designation {F : Type} `{Arith F} (v : string) (w : W F) :
  let w' := (set_transform v w).2 in
  (get_transform w').1 = Ok (upper v)
  ∧ neighbors w' = neighbors w
  ∧ _id_order w' = _id_order w
  ∧ _id_order_set w' = _id_order_set w.
Proof.
  intros w'. subst w'. pose proof (set_transform_outcome v w) as Ho.
  destruct (set_transform v w) as [r w']. simpl in *. unfold get_transform, reads.
  simpl.
  inversion Ho as [m Hreg|m w1 Hreg Hu Hdata Hshape|e w1 Hreg Hdata|Hreg Hu];
    subst; simpl; try done.
  - destruct Hdata as (-> & _ & _ & -> & -> & ->). done.
  - destruct Hdata as (-> & _ & _ & -> & -> & ->). done.
Qed.

(** X3. A registered transformation is never computed again nor replaced:
    a mapping registered under a name stays registered under it through any
    sequence of [set_transform] calls, and a later request for that name
    (in either case) returns normally, makes that very mapping the weights
    and empties the cache. *)
Theorem X3_registered_transformation_kept {F : Type} `{Arith F}
    (vs : list string) (v : string) (w : W F) (m : gmap pyid (list F)) :
  transformations w !! upper v = Some m →
  let w1 := run_transforms vs w in
  transformations w1 !! upper v = Some m
  ∧ set_transform v w1 = (Ok [], set__cache ∅ (set_weights m (set__transform (upper v) w1))).
Proof.
  intros Hm w1.
  assert (transformations w1 !! upper v = Some m) as Hm1.
  { subst w1. revert w Hm. induction vs as [|v0 vs IH]; intros w Hm; simpl; [done|].
    apply IH. pose proof (set_transform_outcome v0 w) as Ho.
    destruct (set_transform v0 w) as [r w']. simpl in *.
    inversion Ho as [m0 Hreg|m0 w2 Hreg Hu Hdata Hshape|e w2 Hreg Hdata|Hreg Hu];
      subst; simpl; try done.
    - destruct Hdata as (_ & _ & -> & _). simpl.
      rewrite lookup_insert_ne; [done|]. intros Heq. rewrite Heq in Hreg. congruence.
    - destruct Hdata as (_ & _ & -> & _). done. }
  split; [done|]. unfold set_transform.
  rewrite bind_unfold. simpl. rewrite bind_unfold. simpl. by rewrite Hm1.
Qed.

Lemma X3_registered_transformation_kept_witness :
  let w1 := run_transforms ["b"; "x"; "d"] lattice_W in
  transformations w1 !! upper "o" = Some (weights lattice_W)
  ∧ set_transform "o" w1
    = (Ok [], set__cache ∅ (set_weights (weights lattice_W)
                              (set__transform (upper "o") w1))).
Proof.
  apply (X3_registered_transformation_kept ["b"; "x"; "d"] "o" lattice_W
           (weights lattice_W)).
  by vm_compute.
Defined.

(** X4. After a call of [set_transform] that returns without reporting an
    unsupported value, the weights in force are the mapping registered under
    the designation. *)
Theorem X4_weights_are_registered {F : Type} `{Arith F} (v : string) (w : W F) :
  (set_transform v w).1 = Ok [] →
  let w' := (set_transform v w).2 in
  transformations w' !! _transform w' = Some (weights w').
Proof.
  intros Hok w'. subst w'. pose proof (set_transform_outcome v w) as Ho.
  destruct (set_transform v w) as [r w']. simpl in *. subst r.
  inversion Ho as [m Hreg|m w1 Hreg Hu Hdata Hshape| |]; subst; simpl; [done|].
  destruct Hdata as (_ & _ & _ & -> & _). simpl. by rewrite lookup_insert_eq.
Qed.

Lemma X4_weights_are_registered_witness :
  let w' := (set_transform "r" lattice_W).2 in
  transformations w' !! _transform w' = Some (weights w').
Proof.
  apply (X4_weights_are_registered "r" lattice_W). by vm_compute.
Defined.

(** Row standardization of weights that hold a non-empty row with sum zero,
    the quotient being one of Python floats *)
Lemma row_standardized_zero_sum {F : Type} `{Arith F}
    (w : W F) (i : pyid) (wijs : list F) :
  transformations w !! "R" = None →
  weights w !! i = Some wijs → wijs ≠ [] →
  fis_zero (fmul (fsum wijs) fone) = true →
  set_transform "R" w = (Raise ZeroDivisionError, set__transform "R" w).
Proof.
  intros Hreg Hi Hne Hz. unfold set_transform.
  rewrite bind_unfold. simpl. rewrite bind_unfold. simpl.
  change (upper_ascii "R") with "R"%char. rewrite Hreg.
  change (String.eqb "R" "R") with true. cbv iota.
  rewrite bind_unfold. unfold row_standardized. rewrite bind_unfold. simpl.
  erewrite (for_each_pure
              (λ '(i, wijs) weights,
                 match traverse (λ wij, py_div wij (fmul (fsum wijs) fone)) wijs with
                 | Ok r => Ok (<[i := r]> weights)
                 | Raise e => Raise e
                 end)).
  2:{ intros [k x] b s. rewrite bind_unfold. unfold lift.
      by destruct (traverse _ x). }
  rewrite (fold_result_raises _ ZeroDivisionError); [done| |].
  - intros [k x] b _. rewrite traverse_py_div.
    destruct (fis_zero (fmul (fsum x) fone)); [destruct x|]; simpl; eauto.
  - exists (i, wijs). split; [by apply elem_of_map_to_list|].
    intros b. rewrite traverse_py_div, Hz. by destruct wijs.
Qed.

(** X5. Row standardization of a newly constructed container, whose
    weights are the Python numbers given to the constructor (or [1.0] each):
    when some unit has a non-empty list of weights whose sum
    [sum(wijs)*1.0] is zero, [w.transform = 'r'] raises
    [ZeroDivisionError]; the designation is already ['R'], while the
    weights, the registry and the cache are those of the new container. *)
Theorem X5_row_standardize_zero_sum {F : Type} `{Arith F}
    (nb : gmap pyid (list pyid)) (ws : option (gmap pyid (list F)))
    (ord : option (list pyid)) (i : pyid) (wijs : list F) :
  initial_weights nb ws !! i = Some wijs → wijs ≠ [] →
  fis_zero (fmul (fsum wijs) fone) = true →
  let w := (__init__ nb ws ord).2 in
  set_transform "R" w = (Raise ZeroDivisionError, set__transform "R" w)
  ∧ weights (set__transform "R" w) = initial_weights nb ws
  ∧ transformations (set__transform "R" w) = {["O" := initial_weights nb ws]}
  ∧ _cache (set__transform "R" w) = ∅.
Proof.
  intros Hi Hne Hz w. subst w. rewrite init_state. split; [|done].
  by apply (row_standardized_zero_sum _ i wijs).
Qed.

Lemma X5_row_standardize_zero_sum_witness :
  set_transform "R" zero_row_W = (Raise ZeroDivisionError, set__transform "R" zero_row_W).
Proof.
  refine (proj1 (X5_row_standardize_zero_sum (F:=float) pair_graph
                   (Some {[IdInt 0 := [0%float]; IdInt 1 := [1%float]]}) None
                   (IdInt 0) [0%float] _ _ _));
    [by vm_compute|done|by vm_compute].
Defined.

(** ** Rows and iteration *)

Section rows.
Context {F : Type} `{Arith F}.
Implicit Types w : W F.
Local Open Scope nat_scope.

Lemma zip_lookup_Some {A B} (l : list A) (k : list B) p a b :
  zip l k !! p = Some (a, b) ↔ l !! p = Some a ∧ k !! p = Some b.
Proof.
  rewrite lookup_zip_with_Some. split.
  - intros (x & y & [= -> ->] & ? & ?). done.
  - intros [? ?]. by exists a, b.
Qed.

(** [dict(zip(ns, xs))] when no key is repeated *)
Lemma dict_of_zip_lookup {V} (ns : list pyid) (xs : list V) j x :
  NoDup ns →
  dict_of_zip ns xs !! j = Some x ↔ ∃ p, ns !! p = Some j ∧ xs !! p = Some x.
Proof.
  intros Hnd. unfold dict_of_zip.
  destruct (foldl_insert_lookup fst snd (zip ns xs) ∅ j)
    as [[-> Hn]|([k y] & Hin & Hk & ->)]; simpl in *.
  - rewrite lookup_empty. split; [done|]. intros (p & Hp & Hx). destruct Hn.
    apply list_elem_of_fmap. exists (j, x). split; [done|].
    apply list_elem_of_lookup. exists p. by apply zip_lookup_Some.
  - subst k. apply list_elem_of_lookup in Hin as [p Hp].
    apply zip_lookup_Some in Hp as [Hp Hy]. split.
    + intros [= <-]. by exists p.
    + intros (q & Hq & Hx). rewrite (NoDup_lookup _ _ _ _ Hnd Hp Hq) in Hy.
      congruence.
Qed.

(** ... and when every value is the same *)
Lemma dict_of_zip_replicate {V} (ns : list pyid) (c : V) j x :
  dict_of_zip ns (replicate (length ns) c) !! j = Some x ↔ j ∈ ns ∧ x = c.
Proof.
  unfold dict_of_zip.
  destruct (foldl_insert_lookup fst snd (zip ns (replicate (length ns) c)) ∅ j)
    as [[-> Hn]|([k y] & Hin & Hk & ->)]; simpl in *.
  - rewrite lookup_empty. split; [done|]. intros [Hj _]. destruct Hn.
    rewrite fst_zip; [done|]. by rewrite length_replicate.
  - subst k. split.
    + intros [= <-]. split; [by eapply elem_of_zip_l|].
      apply elem_of_zip_r in Hin. by apply elem_of_replicate in Hin as [? _].
    + intros [_ ->]. apply elem_of_zip_r in Hin.
      apply elem_of_replicate in Hin as [-> _]. done.
Qed.

Lemma getitem_eq key w :
  __getitem__ key w
  = (ns ← subscript (neighbors w) key; ws ← subscript (weights w) key;
     mret (VRow (dict_of_zip ns ws)), w).
Proof.
  unfold __getitem__. rewrite bind_unfold. simpl. rewrite bind_unfold.
  unfold lift at 1. destruct (subscript (neighbors w) key) as [ns|e]; simpl; [|done].
  rewrite bind_unfold. simpl. rewrite bind_unfold. unfold lift.
  by destruct (subscript (weights w) key).
Qed.

(** one call of [next] before the end of the order *)
Lemma next_row w n k i :
  k < n → _id_order w !! k = Some i →
  next (w, mkIter n k)
  = match (__getitem__ i w).1 with
    | Ok v => (Ok v, (w, mkIter n (k + 1)))
    | Raise e => (Raise e, (w, mkIter n k))
    end.
Proof.
  intros Hk Hi. unfold next. rewrite bind_unfold. simpl.
  rewrite bool_decide_eq_false_2 by lia.
  rewrite bind_unfold. unfold on_w at 1. simpl. rewrite bind_unfold.
  rewrite Hi. unfold lift at 1. rewrite bind_unfold. unfold on_w. simpl.
  rewrite getitem_eq. simpl.
  by destruct (_ ≫= _).
Qed.

Lemma next_stop w n k :
  n ≤ k → next (w, mkIter n k) = (Raise StopIteration, (w, mkIter n 0)).
Proof.
  intros Hk. unfold next. rewrite bind_unfold. simpl.
  by rewrite bool_decide_eq_true_2 by lia.
Qed.

(** the loop over the iterator, from position [k] *)
Lemma drain_rows w n k rows out :
  length (_id_order w) = n →
  Forall2 (λ i r, __getitem__ i w = (Ok r, w)) (drop k (_id_order w)) out →
  drain (n - k) rows (w, mkIter n k) = (Ok (rows ++ out)%list, (w, mkIter n 0)).
Proof.
  intros Hn. remember (n - k) as d eqn:Hd.
  revert k rows out Hd. induction d as [|d IH]; intros k rows out Hd Hout.
  - rewrite drop_ge in Hout by lia. apply Forall2_nil_inv_l in Hout as ->.
    simpl. rewrite next_stop by lia. by rewrite app_nil_r.
  - assert (k < n) as Hk by lia.
    destruct (lookup_lt_is_Some_2 (_id_order w) k) as [i Hi]; [lia|].
    rewrite (drop_S _ i k Hi) in Hout.
    apply Forall2_cons_inv_l in Hout as (r & out' & Hr & Hout & ->).
    cbn [drain]. rewrite (next_row w n k i Hk Hi), Hr. simpl.
    replace (k + 1) with (S k) by lia.
    rewrite (IH (S k) (rows ++ [r])%list out') by (done || lia).
    by rewrite <- app_assoc.
Qed.

(** ... and when the unit at position [k + length pre] is not a key *)
Lemma drain_raises w n k rows pre i e :
  length (_id_order w) = n →
  Forall (λ j, ∃ r, __getitem__ j w = (Ok r, w)) pre →
  e ≠ StopIteration →
  __getitem__ i w = (Raise e, w) →
  (∃ post, drop k (_id_order w) = (pre ++ i :: post)%list) →
  ∃ it, drain (n - k) rows (w, mkIter n k) = (Raise e, (w, it)).
Proof.
  intros Hn Hpre He Hi. revert k rows.
  induction Hpre as [|j pre [r Hr] Hpre IH]; intros k rows [post Hdrop].
  - assert (_id_order w !! k = Some i) as Hk.
    { rewrite <- (Nat.add_0_r k), <- lookup_drop, Hdrop. done. }
    assert (k < n) as Hlt by (rewrite <- Hn; by eapply lookup_lt_Some).
    exists (mkIter n k). destruct (n - k) as [|d] eqn:Hd; [lia|].
    cbn [drain]. rewrite (next_row w n k i Hlt Hk), Hi. simpl. by destruct e.
  - assert (_id_order w !! k = Some j) as Hk.
    { rewrite <- (Nat.add_0_r k), <- lookup_drop, Hdrop. done. }
    assert (k < n) as Hlt by (rewrite <- Hn; by eapply lookup_lt_Some).
    destruct (IH (S k) (rows ++ [r])%list) as [it Hit].
    { exists post. rewrite (drop_S _ j k Hk) in Hdrop. by injection Hdrop. }
    assert (S k < n) as Hlt'.
    { rewrite <- Hn. apply (lookup_lt_Some _ _ (match pre with [] => i | x :: _ => x end)).
      rewrite <- (Nat.add_0_r (S k)), <- lookup_drop.
      rewrite (drop_S _ j k Hk) in Hdrop. injection Hdrop as ->. by destruct pre. }
    exists it. destruct (n - k) as [|d] eqn:Hd; [lia|].
    cbn [drain]. rewrite (next_row w n k j Hlt Hk), Hr. simpl.
    replace (k + 1) with (S k) by lia.
    destruct d as [|d]; [lia|].
    replace (n - S k) with (S d) in Hit by lia. exact Hit.
Qed.

Lemma iterate_eq w :
  iterate w
  = let n := length (_id_order w) in
    ((drain n [] (w, mkIter n 0)).1, (drain n [] (w, mkIter n 0)).2.1).
Proof.
  unfold iterate, __iter__. rewrite bind_unfold. simpl.
  by destruct (drain _ _ _).
Qed.

Lemma getitem_Ok key w ns xs :
  neighbors w !! key = Some ns → weights w !! key = Some xs →
  __getitem__ key w = (Ok (VRow (dict_of_zip ns xs)), w).
Proof.
  intros Hn Hx. rewrite getitem_eq. unfold subscript. by rewrite Hn, Hx.
Qed.

Lemma getitem_KeyError key w :
  neighbors w !! key = None ∨ weights w !! key = None →
  __getitem__ key w = (Raise KeyError, w).
Proof.
  intros Hk. rewrite getitem_eq. unfold subscript.
  destruct (neighbors w !! key); [|done]. simpl.
  destruct Hk as [? | ->]; done.
Qed.

Lemma getitem_rows w l :
  Forall (λ i, is_Some (neighbors w !! i) ∧ is_Some (weights w !! i)) l →
  ∃ rows, Forall2 (λ i r, __getitem__ i w = (Ok r, w)) l rows.
Proof.
  intros Hl. induction Hl as [|i l [[ns Hn] [xs Hx]] Hl [rows IH]]; [by exists []|].
  exists (VRow (dict_of_zip ns xs) :: rows). constructor; [|done].
  by apply getitem_Ok.
Qed.
End rows.

(** X6. [w[key]] for a unit whose neighbors are listed once each: the
    result maps the neighbor at each position to the weight at the same
    position (up to the length of the shorter list) and holds nothing else;
    the container is not changed. *)
Theorem X6_getitem_pairs_neighbors_with_weights {F : Type} `{Arith F}
    (w : W F) (key : pyid) (ns : list pyid) (xs : list F) :
  neighbors w !! key = Some ns → weights w !! key = Some xs → NoDup ns →
  ∃ d, __getitem__ key w = (Ok (VRow d), w)
       ∧ ∀ j x, d !! j = Some x ↔ ∃ p, ns !! p = Some j ∧ xs !! p = Some x.
Proof.
  intros Hn Hx Hnd. exists (dict_of_zip ns xs). split; [by apply getitem_Ok|].
  intros j x. by apply dict_of_zip_lookup.
Qed.

Lemma X6_getitem_pairs_neighbors_with_weights_witness :
  ∃ d, __getitem__ (IdInt 1) lattice_W = (Ok (VRow d), lattice_W)
       ∧ ∀ j x, d !! j = Some x
                ↔ ∃ p, [IdInt 0; IdInt 4; IdInt 2] !! p = Some j
                       ∧ [1; 1; 1]%float !! p = Some x.
Proof.
  apply (X6_getitem_pairs_neighbors_with_weights lattice_W (IdInt 1)
           [IdInt 0; IdInt 4; IdInt 2] [1; 1; 1]%float);
    [by vm_compute|by vm_compute|].
  apply (bool_decide_unpack _). by vm_compute.
Defined.

(** X7. Iteration over a container whose observation order names units
    only: [list(w)] returns one row per id of [id_order], in that order, the
    row of an id being [w[id]], and leaves the container as it is.  The loop
    leaves the iterator object at position 0, so that a second loop over the
    same iterator yields the same rows. *)
Theorem X7_iteration_follows_order {F : Type} `{Arith F} (w : W F) :
  Forall (λ i, is_Some (neighbors w !! i) ∧ is_Some (weights w !! i)) (_id_order w) →
  ∃ rows it,
    iterate w = (Ok rows, w)
    ∧ Forall2 (λ i r, __getitem__ i w = (Ok r, w)) (_id_order w) rows
    ∧ __iter__ w = (Ok it, w)
    ∧ drain (iter_n it) [] (w, it) = (Ok rows, (w, it)).
Proof.
  intros Hids. destruct (getitem_rows w _ Hids) as [rows Hrows].
  set (n := length (_id_order w)).
  assert (drain n [] (w, mkIter n 0) = (Ok rows, (w, mkIter n 0))) as Hd.
  { pose proof (drain_rows w n 0 [] rows eq_refl) as Hd.
    rewrite Nat.sub_0_r in Hd. by apply Hd. }
  exists rows, (mkIter n 0). repeat split; [|done|done].
  rewrite iterate_eq. fold n. cbv zeta. by rewrite Hd.
Qed.

Lemma X7_iteration_follows_order_witness :
  ∃ rows it,
    iterate lattice_W = (Ok rows, lattice_W)
    ∧ Forall2 (λ i r, __getitem__ i lattice_W = (Ok r, lattice_W))
              (_id_order lattice_W) rows
    ∧ __iter__ lattice_W = (Ok it, lattice_W)
    ∧ drain (iter_n it) [] (lattice_W, it) = (Ok rows, (lattice_W, it)).
Proof.
  apply X7_iteration_follows_order. apply (bool_decide_unpack _). by vm_compute.
Defined.

(** X8. Iteration over a container whose observation order names an id
    that is not a key of the neighbors (the constructor accepts such an
    order): the loop raises [KeyError] when it reaches that id, the ids
    before it being units. *)
Theorem X8_iteration_stops_at_unknown_id {F : Type} `{Arith F}
    (w : W F) (pre post : list pyid) (i : pyid) :
  _id_order w = (pre ++ i :: post)%list →
  Forall (λ j, is_Some (neighbors w !! j) ∧ is_Some (weights w !! j)) pre →
  neighbors w !! i = None →
  iterate w = (Raise KeyError, w).
Proof.
  intros Hids Hpre Hi. rewrite iterate_eq. cbv zeta.
  set (n := length (_id_order w)).
  destruct (drain_raises w n 0 [] pre i KeyError eq_refl) as [it Hit].
  - eapply Forall_impl; [exact Hpre|]. intros j [[ns Hn] [xs Hx]].
    eexists. by apply getitem_Ok.
  - done.
  - apply getitem_KeyError. by left.
  - exists post. by rewrite drop_0.
  - rewrite Nat.sub_0_r in Hit. by rewrite Hit.
Qed.

Lemma X8_iteration_stops_at_unknown_id_witness :
  iterate stray_order_W = (Raise KeyError, stray_order_W).
Proof.
  apply (X8_iteration_stops_at_unknown_id stray_order_W [IdInt 0] [] (IdInt 7));
    [reflexivity| |by vm_compute].
  apply (bool_decide_unpack _). by vm_compute.
Defined.

(** ** The order of the ids *)

Section id_order_facts.

Lemma ascii_compare_N a b : Ascii.compare a b = (N_of_ascii a ?= N_of_ascii b)%N.
Proof. reflexivity. Qed.

Lemma string_compare_refl s : String.compare s s = Eq.
Proof.
  induction s as [|c s IH]; simpl; [done|].
  by rewrite ascii_compare_N, N.compare_refl.
Qed.

(** the lexicographic order of strings is transitive *)
Lemma string_leb_trans a b c :
  String.leb a b = true → String.leb b c = true → String.leb a c = true.
Proof.
  unfold String.leb. revert b c. induction a as [|x a IH]; intros [|y b] [|z c]; simpl;
    try done.
  rewrite !ascii_compare_N.
  destruct (N.compare_spec (N_of_ascii x) (N_of_ascii y)) as [Hxy|Hxy|Hxy];
    destruct (N.compare_spec (N_of_ascii y) (N_of_ascii z)) as [Hyz|Hyz|Hyz];
    try done; intros Hab Hbc.
  - rewrite Hxy, Hyz, N.compare_refl. by apply (IH b c).
  - rewrite Hxy. by rewrite (proj2 (N.compare_lt_iff _ _) Hyz).
  - rewrite <- Hyz. by rewrite (proj2 (N.compare_lt_iff _ _) Hxy).
  - by rewrite (proj2 (N.compare_lt_iff _ _) (N.lt_trans _ _ _ Hxy Hyz)).
Qed.

#[local] Instance pyid_le_total : Total pyid_le.
Proof.
  intros [x|s] [y|t]; unfold pyid_le; simpl; auto.
  - destruct (Z.leb_spec x y); [by left|right]. apply Z.leb_le. lia.
  - apply String.leb_total.
Qed.

#[local] Instance pyid_le_trans : Transitive pyid_le.
Proof.
  intros [x|s] [y|t] [z|u]; unfold pyid_le; simpl; try done.
  - rewrite !Z.leb_le. lia.
  - apply string_leb_trans.
Qed.

Lemma py_sorted_sorted l : StronglySorted pyid_le (py_sorted l).
Proof. apply StronglySorted_merge_sort; apply _. Qed.
End id_order_facts.

(** X9. Without an [id_order] argument the constructor orders the units
    by id, ascending, numbers before strings: the order it stores is sorted,
    lists every key of the neighbors exactly once, and is flagged as not set
    by the user. *)
Theorem X9_default_order_sorted {F : Type} `{Arith F}
    (nb : gmap pyid (list pyid)) (ws : option (gmap pyid (list F))) :
  let w := (__init__ nb ws None).2 in
  (__init__ nb ws None).1 = Ok tt
  ∧ StronglySorted pyid_le (_id_order w)
  ∧ NoDup (_id_order w)
  ∧ (∀ i, i ∈ _id_order w ↔ is_Some (nb !! i))
  ∧ (__get_id_order w).1 = Ok (_id_order w)
  ∧ (id_order_set w).1 = Ok false.
Proof.
  rewrite init_state. simpl. split; [done|]. split; [apply py_sorted_sorted|].
  destruct (sorted_keys_order nb) as [Hnd Hset].
  split; [done|]. split; [|done].
  intros i. rewrite <- elem_of_dom, <- Hset. by rewrite elem_of_list_to_set.
Qed.

(** X10. Without a weights argument, or with an empty one, every neighbor
    has weight [1.0]: for each unit [i] of the constructed container,
    [w[i]] maps exactly the neighbors of [i] to [1.0]. *)
Theorem X10_default_weights_are_one {F : Type} `{Arith F}
    (nb : gmap pyid (list pyid)) (ws : option (gmap pyid (list F)))
    (ord : option (list pyid)) (i : pyid) (l : list pyid) :
  ws = None ∨ ws = Some ∅ →
  nb !! i = Some l →
  let w := (__init__ nb ws ord).2 in
  ∃ d, __getitem__ i w = (Ok (VRow d), w)
       ∧ ∀ j x, d !! j = Some x ↔ j ∈ l ∧ x = fone.
Proof.
  intros Hws Hi. rewrite init_state. simpl.
  assert (initial_weights nb ws = (λ l, replicate (length l) fone) <$> nb) as ->.
  { destruct Hws as [-> | ->]; [done|]. unfold initial_weights.
    by rewrite bool_decide_eq_true_2. }
  eexists. split.
  - apply getitem_Ok; simpl; [exact Hi|]. by rewrite lookup_fmap, Hi.
  - intros j x. apply dict_of_zip_replicate.
Qed.

Lemma X10_default_weights_are_one_witness :
  let w := (__init__ (F:=float) lattice None None).2 in
  ∃ d, __getitem__ (IdInt 1) w = (Ok (VRow d), w)
       ∧ ∀ j x, d !! j = Some x ↔ j ∈ [IdInt 0; IdInt 4; IdInt 2] ∧ x = fone.
Proof.
  refine (X10_default_weights_are_one (F:=float) lattice None None (IdInt 1)
            [IdInt 0; IdInt 4; IdInt 2] _ _); [by left|by vm_compute].
Defined.

(** ** Memoized properties, step by step *)

Section memo_steps.
Context {F : Type} `{Arith F}.
Implicit Types w : W F.

Lemma memo_hit check store attr (compute : M (W F) (pyval F)) w :
  is_Some (_cache w !! check) → memo check store attr compute w = getattr attr w.
Proof.
  intros Hc. unfold memo. rewrite bind_unfold. simpl.
  by rewrite bool_decide_eq_true_2.
Qed.

Lemma memo_miss check store attr (compute : M (W F) (pyval F)) w w1 v :
  _cache w !! check = None → compute w = (Ok v, w1) →
  memo check store attr compute w = (Ok v, stored store attr v w1).
Proof.
  intros Hc Hv. unfold memo. rewrite bind_unfold. simpl.
  rewrite bool_decide_eq_false_2 by (rewrite Hc; by intros [? ?]).
  rewrite !bind_unfold, Hv. simpl.
  unfold mbind, M_bind, bind, setattr, getattr, cache_put, modify. simpl.
  rewrite lookup_insert_eq. simpl. by rewrite lookup_insert_eq.
Qed.

Lemma memo_raise check store attr (compute : M (W F) (pyval F)) w w1 e :
  _cache w !! check = None → compute w = (Raise e, w1) →
  memo check store attr compute w = (Raise e, w1).
Proof.
  intros Hc Hv. unfold memo. rewrite bind_unfold. simpl.
  rewrite bool_decide_eq_false_2 by (rewrite Hc; by intros [? ?]).
  by rewrite !bind_unfold, Hv.
Qed.

(** [id2i] when its value is not cached, or is cached and right *)
Lemma id2i_value w :
  (is_Some (_cache w !! "id2i") →
   attrs w !! "_id2i" = Some (VCounts (index_map (_id_order w)))) →
  let v := VCounts (index_map (_id_order w)) in
  id2i w = (Ok v, w) ∨ id2i w = (Ok v, stored "id2i" "_id2i" v w).
Proof.
  intros Hc v. unfold id2i. destruct (_cache w !! "id2i") as [c|] eqn:Hk.
  - left. rewrite memo_hit by (rewrite Hk; by eexists).
    unfold getattr. simpl. by rewrite Hc by (by eexists).
  - right. by apply memo_miss.
Qed.
End memo_steps.

(** ** The index of the order and the offsets of the neighbors *)

Section offsets.
Context {F : Type} `{Arith F}.
Implicit Types w : W F.
Local Open Scope nat_scope.

(** in an order without repetition, the index of an id is its position *)
Lemma index_map_NoDup (ids : list pyid) i k :
  NoDup ids → index_map ids !! i = Some k ↔ ids !! k = Some i.
Proof.
  intros Hnd. unfold index_map.
  destruct (foldl_insert_lookup snd fst (imap pair ids) ∅ i)
    as [[-> Hn]|([k' i'] & Hin & Hi & ->)]; simpl in *.
  - rewrite lookup_empty. split; [done|]. intros Hk. destruct Hn.
    apply list_elem_of_fmap. exists (k, i). split; [done|].
    apply elem_of_lookup_imap. by exists k, i.
  - subst i'. apply elem_of_lookup_imap in Hin as (k2 & i2 & [= -> ->] & Hk2).
    split.
    + by intros [= <-].
    + intros Hk. f_equal. by eapply NoDup_lookup.
Qed.

Lemma index_map_None (ids : list pyid) i : i ∉ ids → index_map ids !! i = None.
Proof.
  intros Hi. unfold index_map.
  destruct (foldl_insert_lookup snd fst (imap pair ids) ∅ i)
    as [[-> Hn]|([k' i'] & Hin & Hi' & _)]; simpl in *; [done|].
  subst i'. apply elem_of_lookup_imap in Hin as (k2 & i2 & [= -> ->] & Hk2).
  destruct Hi. by eapply list_elem_of_lookup_2.
Qed.

Lemma index_map_Some (ids : list pyid) i :
  i ∈ ids → ∃ k, index_map ids !! i = Some k ∧ ids !! k = Some i.
Proof.
  intros Hi. apply list_elem_of_lookup in Hi as [k Hk].
  assert ((k, i) ∈ imap pair ids) as Hin.
  { apply elem_of_lookup_imap. by exists k, i. }
  destruct (foldl_insert_is_Some snd fst (imap pair ids) ∅ (k, i) Hin)
    as ([k' i'] & Hin' & Hi' & Hv). simpl in *. subst i'.
  exists k'. split; [exact Hv|].
  by apply elem_of_lookup_imap in Hin' as (k2 & i2 & [= -> ->] & Hk2).
Qed.

Lemma traverse_subscript_raises {V} (d : gmap pyid V) (l : list pyid) :
  (∃ r, traverse (subscript d) l = Ok r) ∨ traverse (subscript d) l = Raise KeyError.
Proof.
  induction l as [|j l IH]; simpl; [left; by eexists|].
  destruct (subscript d j) as [x|e] eqn:Hj; simpl.
  - destruct IH as [[r ->]| ->]; simpl; [left; by eexists|by right].
  - right. unfold subscript in Hj. destruct (d !! j); congruence.
Qed.

Lemma traverse_subscript_missing {V} (d : gmap pyid V) (l : list pyid) j :
  j ∈ l → d !! j = None → traverse (subscript d) l = Raise KeyError.
Proof.
  intros Hj Hd.
  destruct (traverse_subscript_raises d l) as [[r Hr]|Hr]; [|done].
  exfalso. revert r Hr. induction l as [|x l IH]; intros r Hr;
    [by apply elem_of_nil in Hj|].
  simpl in Hr. destruct (subscript d x) as [y|e] eqn:Hx; simpl in Hr; [|done].
  destruct (traverse (subscript d) l) as [ys|e] eqn:Hl; simpl in Hr; [|done].
  apply elem_of_cons in Hj as [<-|Hj].
  - unfold subscript in Hx. by rewrite Hd in Hx.
  - by eapply IH.
Qed.

(** the loop of [neighbor_offsets] *)
Lemma offsets_loop (ix : gmap pyid nat) (l : list (pyid * list pyid)) w o :
  attrs w !! "_W__neighbors_0" = Some (VOffsets o) →
  ∃ w',
    for_each l tt
      (λ '(id, neigh_list) _,
         offs ← lift (traverse (subscript ix) neigh_list);
         cur ← getattr "_W__neighbors_0";
         d ← lift (as_offsets cur);
         setattr "_W__neighbors_0" (VOffsets (<[id := offs]> d))) w
    = (match fold_result (offsets_step ix) l o with
       | Ok _ => Ok tt
       | Raise e => Raise e
       end, w')
    ∧ _cache w' = _cache w
    ∧ ∀ o', fold_result (offsets_step ix) l o = Ok o' →
            attrs w' !! "_W__neighbors_0" = Some (VOffsets o').
Proof.
  revert w o. induction l as [|[i nl] l IH]; intros w o Ha.
  { exists w. simpl. split; [done|]. split; [done|]. by intros o' [= <-]. }
  cbn [for_each fold_result]. rewrite bind_unfold.
  assert (offsets_step ix (i, nl) o
          = match traverse (subscript ix) nl with
            | Ok offs => Ok (<[i := offs]> o)
            | Raise e => Raise e
            end) as -> by reflexivity.
  rewrite bind_unfold. unfold lift at 1.
  destruct (traverse (subscript ix) nl) as [offs|e]; simpl.
  2:{ exists w. split; [done|]. split; [done|]. done. }
  unfold mbind at 1, M_bind at 1, bind at 1, getattr at 1. simpl. rewrite Ha.
  unfold mbind at 1, M_bind at 1, bind at 1, lift at 1. simpl.
  unfold setattr, modify. simpl.
  set (w1 := set_attrs _ w).
  destruct (IH w1 (<[i := offs]> o)) as (w' & Hw' & Hc & Hfin).
  { subst w1. simpl. by rewrite lookup_insert_eq. }
  exists w'. split; [exact Hw'|]. split; [by rewrite Hc|exact Hfin].
Qed.

(** [neighbor_offsets] when it is not cached *)
Lemma neighbor_offsets_value w :
  _cache w !! "neighbors_0" = None →
  (is_Some (_cache w !! "id2i") →
   attrs w !! "_id2i" = Some (VCounts (index_map (_id_order w)))) →
  ∃ w',
    neighbor_offsets w
    = (match fold_result (offsets_step (index_map (_id_order w)))
               (map_to_list (neighbors w)) ∅ with
       | Ok o => Ok (VOffsets o)
       | Raise e => Raise e
       end, w')
    ∧ (∀ k, k ≠ "id2i" → k ≠ "neighbors_0" → _cache w' !! k = _cache w !! k).
Proof.
  intros Hc Hid. unfold neighbor_offsets. rewrite bind_unfold. simpl.
  rewrite bool_decide_eq_false_2 by (rewrite Hc; by intros [? ?]).
  rewrite bind_assoc, bind_unfold. simpl.
  set (w0 := set_attrs _ w).
  assert (is_Some (_cache w0 !! "id2i") →
          attrs w0 !! "_id2i" = Some (VCounts (index_map (_id_order w0)))) as Hid0.
  { subst w0. simpl. rewrite lookup_insert_ne by done. exact Hid. }
  assert (∃ w1, id2i w0 = (Ok (VCounts (index_map (_id_order w))), w1)
                ∧ neighbors w1 = neighbors w
                ∧ attrs w1 !! "_W__neighbors_0" = Some (VOffsets ∅)
                ∧ _cache w1 !! "neighbors_0" = None
                ∧ ∀ k, k ≠ "id2i" → _cache w1 !! k = _cache w !! k)
    as (w1 & Hw1 & Hnb & Ha & Hc1 & Hk1).
  { destruct (id2i_value w0 Hid0) as [Hv|Hv]; simpl in Hv; rewrite Hv;
      eexists; (split; [reflexivity|]); subst w0; simpl.
    - by rewrite lookup_insert_eq.
    - rewrite lookup_insert_ne by done. rewrite lookup_insert_eq.
      rewrite lookup_insert_ne by done. repeat split; try done.
      intros k Hk. by rewrite lookup_insert_ne. }
  rewrite !bind_assoc, bind_unfold, Hw1. cbv iota beta.
  rewrite !bind_assoc, bind_unfold. unfold lift at 1. cbn [as_counts]. cbv iota beta.
  rewrite !bind_assoc, bind_unfold. unfold reads at 1. cbv iota beta.
  rewrite Hnb.
  destruct (offsets_loop (index_map (_id_order w)) (map_to_list (neighbors w)) w1 ∅ Ha)
    as (w2 & Hloop & Hc2 & Hfin).
  rewrite !bind_assoc, bind_unfold, Hloop.
  destruct (fold_result _ _ _) as [o|e]; cbv iota beta.
  2:{ exists w2. split; [done|]. intros k Hk _. by rewrite Hc2, Hk1. }
  specialize (Hfin o eq_refl).
  unfold mbind, M_bind, bind, getattr, cache_put, modify. simpl. rewrite Hfin. simpl.
  rewrite Hfin. eexists. split; [reflexivity|].
  intros k Hk Hk'. simpl. rewrite lookup_insert_ne by done. by rewrite Hc2, Hk1.
Qed.

(** the offsets of neighbors that are all in the order *)
Lemma offsets_fold_Ok (nb : gmap pyid (list pyid)) (ids : list pyid) :
  (∀ i l j, nb !! i = Some l → j ∈ l → j ∈ ids) →
  fold_result (offsets_step (index_map ids)) (map_to_list nb) ∅
  = Ok (offsets_map nb ids).
Proof.
  intros Hin.
  rewrite (fold_result_foldl _ (λ o kx, <[kx.1 := offsets_of ids kx.2]> o)).
  { unfold offsets_map. by rewrite foldl_insert_items. }
  intros [i l] o Hil. apply elem_of_map_to_list in Hil.
  unfold offsets_step. simpl.
  rewrite (traverse_Ok _ (λ j, default 0 (index_map ids !! j))); [done|].
  intros j Hj. destruct (index_map_Some ids j) as (k & Hk & _); [by eapply Hin|].
  unfold subscript. by rewrite Hk.
Qed.

(** ... and of neighbors one of which is not *)
Lemma offsets_fold_KeyError (nb : gmap pyid (list pyid)) (ids : list pyid) i l j :
  nb !! i = Some l → j ∈ l → j ∉ ids →
  fold_result (offsets_step (index_map ids)) (map_to_list nb) ∅ = Raise KeyError.
Proof.
  intros Hi Hj Hn. apply fold_result_raises.
  - intros [i' l'] o _. unfold offsets_step. simpl.
    destruct (traverse_subscript_raises (index_map ids) l') as [[r ->]| ->];
      [right; by eexists|by left].
  - exists (i, l). split; [by apply elem_of_map_to_list|].
    intros o. unfold offsets_step. simpl.
    by rewrite (traverse_subscript_missing _ l j Hj (index_map_None ids j Hn)).
Qed.
End offsets.

Section offsets_errors.
Context {F : Type} `{Arith F}.
Implicit Types w : W F.

Lemma build_sparse_KeyError w i l j :
  _cache w !! "neighbors_0" = None →
  (is_Some (_cache w !! "id2i") →
   attrs w !! "_id2i" = Some (VCounts (index_map (_id_order w)))) →
  neighbors w !! i = Some l → j ∈ l → j ∉ _id_order w →
  ∃ w', _build_sparse w = (Raise KeyError, w').
Proof.
  intros Hc Hid Hi Hj Hn. unfold _build_sparse.
  assert (∃ w1, id2i w = (Ok (VCounts (index_map (_id_order w))), w1)
                ∧ neighbors w1 = neighbors w ∧ _id_order w1 = _id_order w
                ∧ _cache w1 !! "neighbors_0" = None
                ∧ (is_Some (_cache w1 !! "id2i") →
                   attrs w1 !! "_id2i" = Some (VCounts (index_map (_id_order w1)))))
    as (w1 & Hw1 & Hnb & Hids & Hc1 & Hid1).
  { destruct (id2i_value w Hid) as [Hv|Hv]; simpl in Hv; rewrite Hv;
      eexists; (split; [reflexivity|]); simpl; [done|].
    rewrite lookup_insert_ne by done. repeat split; try done.
    intros _. by rewrite lookup_insert_eq. }
  rewrite bind_unfold, Hw1. cbv iota beta.
  rewrite bind_unfold. unfold lift at 1. cbn [as_counts]. cbv iota beta.
  destruct (neighbor_offsets_value w1 Hc1 Hid1) as (w2 & Hw2 & _).
  rewrite Hids, Hnb in Hw2.
  rewrite (offsets_fold_KeyError _ _ i l j Hi Hj Hn) in Hw2.
  rewrite bind_unfold, Hw2. by exists w2.
Qed.
End offsets_errors.

(** X11. On a container whose [id2i] is not cached, the property [id2i]
    returns a dictionary over the ids of the observation order that gives,
    for each id, a position at which the order holds it; when no id is
    repeated in the order, [id2i] and [id_order] are inverse to each
    other. *)
Theorem X11_id2i_inverts_order {F : Type} `{Arith F} (w : W F) :
  _cache w !! "id2i" = None →
  ∃ d, (id2i w).1 = Ok (VCounts d)
       ∧ (∀ i, is_Some (d !! i) ↔ i ∈ _id_order w)
       ∧ (∀ i k, d !! i = Some k → _id_order w !! k = Some i)
       ∧ (NoDup (_id_order w) → ∀ i k, _id_order w !! k = Some i → d !! i = Some k).
Proof.
  intros Hc. exists (index_map (_id_order w)). split; [|split; [|split]].
  - unfold id2i. by erewrite memo_miss.
  - intros i. split.
    + intros [k Hk]. destruct (decide (i ∈ _id_order w)) as [|Hn]; [done|].
      by rewrite (index_map_None _ i Hn) in Hk.
    + intros Hi. destruct (index_map_Some _ i Hi) as (k & Hk & _). by eexists.
  - intros i k Hk.
    assert (i ∈ _id_order w) as Hi.
    { destruct (decide (i ∈ _id_order w)) as [|Hn]; [done|].
      by rewrite (index_map_None _ i Hn) in Hk. }
    destruct (index_map_Some _ i Hi) as (k' & Hk' & Hpos). congruence.
  - intros Hnd i k. by apply index_map_NoDup.
Qed.

Lemma X11_id2i_inverts_order_witness :
  ∃ d, (id2i lattice_W).1 = Ok (VCounts d)
       ∧ (∀ i, is_Some (d !! i) ↔ i ∈ _id_order lattice_W)
       ∧ (∀ i k, d !! i = Some k → _id_order lattice_W !! k = Some i)
       ∧ (NoDup (_id_order lattice_W) →
          ∀ i k, _id_order lattice_W !! k = Some i → d !! i = Some k).
Proof. apply (X11_id2i_inverts_order lattice_W). by vm_compute. Defined.

(** X12. On a container with an empty cache in which every listed neighbor
    is in the observation order, [neighbor_offsets] returns a dictionary
    over the keys of the neighbors whose entry for an id lists, neighbor by
    neighbor, a position at which the order holds that neighbor:
    [id_order[neighbor_offsets[i][p]] == neighbors[i][p]]. *)
Theorem X12_neighbor_offsets_index_the_order {F : Type} `{Arith F} (w : W F) :
  _cache w = ∅ →
  (∀ i l j, neighbors w !! i = Some l → j ∈ l → j ∈ _id_order w) →
  ∃ d, (neighbor_offsets w).1 = Ok (VOffsets d)
       ∧ ∀ i, match neighbors w !! i with
              | Some l => ∃ offs, d !! i = Some offs
                                  ∧ Forall2 (λ j k, _id_order w !! k = Some j) l offs
              | None => d !! i = None
              end.
Proof.
  intros Hc Hin. exists (offsets_map (neighbors w) (_id_order w)). split.
  - destruct (neighbor_offsets_value w) as (w' & Hw' & _).
    + by rewrite Hc, lookup_empty.
    + rewrite Hc, lookup_empty. by intros [? ?].
    + rewrite Hw'. simpl. by rewrite offsets_fold_Ok.
  - intros i. unfold offsets_map. rewrite lookup_fmap.
    destruct (neighbors w !! i) as [l|] eqn:Hl; simpl; [|done].
    eexists. split; [done|]. unfold offsets_of.
    apply Forall2_fmap_r, Forall_Forall2_diag, Forall_forall. intros j Hj.
    destruct (index_map_Some _ j (Hin i l j Hl Hj)) as (k & Hk & Hpos).
    simpl. by rewrite Hk.
Qed.

Lemma X12_neighbor_offsets_index_the_order_witness :
  ∃ d, (neighbor_offsets lattice_W).1 = Ok (VOffsets d)
       ∧ ∀ i, match neighbors lattice_W !! i with
              | Some l => ∃ offs, d !! i = Some offs
                            ∧ Forall2 (λ j k, _id_order lattice_W !! k = Some j) l offs
              | None => d !! i = None
              end.
Proof.
  apply (X12_neighbor_offsets_index_the_order lattice_W); [reflexivity|].
  intros i l j Hl Hj.
  assert (Forall (λ j, j ∈ _id_order lattice_W) l) as Hall.
  { revert Hl. apply (map_Forall_lookup_1 (λ _ l, Forall (λ j, j ∈ _id_order lattice_W) l)).
    apply (bool_decide_unpack _). by vm_compute. }
  by apply (proj1 (Forall_forall _ _) Hall).
Defined.

(** X13. A neighbor that is not in the observation order (a listed
    neighbor that is not a unit): on a container with an empty cache,
    [neighbor_offsets] raises [KeyError], and so do [sparse] and [s0], which
    need it. *)
Theorem X13_unknown_neighbor_KeyError {F : Type} `{Arith F}
    (w : W F) (i : pyid) (l : list pyid) (j : pyid) :
  _cache w = ∅ →
  neighbors w !! i = Some l → j ∈ l → j ∉ _id_order w →
  (neighbor_offsets w).1 = Raise KeyError
  ∧ (sparse w).1 = Raise KeyError
  ∧ (s0 w).1 = Raise KeyError.
Proof.
  intros Hc Hi Hj Hn.
  assert (∀ k, _cache w !! k = None) as Hk by (intros k; by rewrite Hc, lookup_empty).
  assert (is_Some (_cache w !! "id2i") →
          attrs w !! "_id2i" = Some (VCounts (index_map (_id_order w)))) as Hid.
  { rewrite Hk. by intros [? ?]. }
  split; [|split].
  - destruct (neighbor_offsets_value w (Hk _) Hid) as (w' & Hw' & _).
    rewrite Hw'. simpl. by rewrite (offsets_fold_KeyError _ _ i l j).
  - destruct (build_sparse_KeyError w i l j (Hk _) Hid Hi Hj Hn) as [w' Hw'].
    unfold sparse. erewrite memo_raise; [done|apply Hk|].
    by rewrite bind_unfold, Hw'.
  - destruct (build_sparse_KeyError w i l j (Hk _) Hid Hi Hj Hn) as [w' Hw'].
    unfold s0. erewrite memo_raise; [done|apply Hk|].
    rewrite bind_unfold. unfold the_sparse. rewrite bind_unfold.
    unfold sparse. erewrite memo_raise; [done|apply Hk|].
    by rewrite bind_unfold, Hw'.
Qed.

Lemma X13_unknown_neighbor_KeyError_witness :
  (neighbor_offsets dangling_W).1 = Raise KeyError
  ∧ (sparse dangling_W).1 = Raise KeyError
  ∧ (s0 dangling_W).1 = Raise KeyError.
Proof.
  apply (X13_unknown_neighbor_KeyError dangling_W (IdInt 1) [IdInt 0; IdInt 5] (IdInt 5));
    [reflexivity|by vm_compute| |].
  - apply (bool_decide_unpack _). by vm_compute.
  - apply (bool_decide_unpack _). by vm_compute.
Defined.

(** ** The numbers of neighbors *)

Section cardinality_facts.
Context {F : Type} `{Arith F}.
Implicit Types w : W F.
Local Open Scope nat_scope.

(** a loop whose steps return and leave the object as it is *)
Lemma for_each_const {S A B} (g : B → A → B) (body : A → B → M S B) l acc (s : S) :
  (∀ x b, x ∈ l → body x b s = (Ok (g b x), s)) →
  for_each l acc body s = (Ok (foldl g acc l), s).
Proof.
  revert acc. induction l as [|x l IH]; intros acc Hb; simpl; [done|].
  rewrite bind_unfold, Hb by (by left). apply IH. intros y b Hy. apply Hb. by right.
Qed.

Lemma cardinality_map_spec (nb : gmap pyid (list pyid)) ids i c :
  cardinality_map nb ids !! i = Some c
  ↔ i ∈ ids ∧ c = length (default [] (nb !! i)).
Proof.
  unfold cardinality_map.
  destruct (foldl_insert_lookup id (λ i, length (default [] (nb !! i))) ids ∅ i)
    as [[Hl Hn]|(y & Hy & Hk & Hl)]; simpl in *.
  - rewrite Hl, lookup_empty. split; [done|]. intros [Hi _]. destruct Hn.
    by rewrite list_fmap_id.
  - subst y. rewrite Hl. split; [by intros [= <-]|by intros [_ ->]].
Qed.

Lemma cardinalities_miss w :
  _cache w !! "cardinalities" = None →
  Forall (λ i, is_Some (neighbors w !! i)) (_id_order w) →
  let v := VCounts (cardinality_map (neighbors w) (_id_order w)) in
  cardinalities w = (Ok v, stored "cardinalities" "_cardinalities" v w).
Proof.
  intros Hc Hids v. unfold cardinalities. apply memo_miss; [done|].
  rewrite bind_unfold. unfold reads at 1. cbv iota beta.
  rewrite bind_unfold.
  rewrite (for_each_const (λ c i, <[i := length (default [] (neighbors w !! i))]> c)).
  { done. }
  intros i c Hi. apply (proj1 (Forall_forall _ _) Hids) in Hi as [l Hl].
  rewrite bind_unfold. unfold reads at 1. cbv iota beta.
  rewrite bind_unfold. unfold lift, subscript. by rewrite Hl.
Qed.

Lemma cardinality_values_miss w :
  _cache w !! "cardinalities" = None →
  Forall (λ i, is_Some (neighbors w !! i)) (_id_order w) →
  let c := cardinality_map (neighbors w) (_id_order w) in
  cardinality_values w
  = (Ok (map_to_list c).*2, stored "cardinalities" "_cardinalities" (VCounts c) w).
Proof.
  intros Hc Hids c. unfold cardinality_values.
  rewrite bind_unfold, (cardinalities_miss w Hc Hids). done.
Qed.

Lemma cardinality_values_hit w c :
  is_Some (_cache w !! "cardinalities") →
  attrs w !! "_cardinalities" = Some (VCounts c) →
  cardinality_values w = (Ok (map_to_list c).*2, w).
Proof.
  intros Hc Ha. unfold cardinality_values, cardinalities.
  rewrite bind_unfold, memo_hit by done. unfold getattr. simpl. by rewrite Ha.
Qed.

(** the numbers of neighbors, as a list *)
Lemma cardinality_values_elem (nb : gmap pyid (list pyid)) ids v :
  v ∈ (map_to_list (cardinality_map nb ids)).*2
  ↔ ∃ i, i ∈ ids ∧ v = length (default [] (nb !! i)).
Proof.
  rewrite list_elem_of_fmap. split.
  - intros ([i c] & -> & Hic). apply elem_of_map_to_list in Hic.
    apply cardinality_map_spec in Hic as [Hi ->]. by exists i.
  - intros (i & Hi & ->). exists (i, length (default [] (nb !! i))).
    split; [done|]. apply elem_of_map_to_list. by apply cardinality_map_spec.
Qed.

Lemma cardinality_values_perm (nb : gmap pyid (list pyid)) ids :
  NoDup ids →
  (map_to_list (cardinality_map nb ids)).*2
  ≡ₚ (λ i, length (default [] (nb !! i))) <$> ids.
Proof.
  intros Hnd.
  assert (map_to_list (cardinality_map nb ids)
          ≡ₚ (λ i, (i, length (default [] (nb !! i)))) <$> ids) as ->.
  { apply NoDup_Permutation.
    - apply NoDup_map_to_list.
    - apply NoDup_fmap_2; [|done]. by intros i j [= ->].
    - intros [i c]. rewrite elem_of_map_to_list, cardinality_map_spec.
      rewrite list_elem_of_fmap. split.
      + intros [Hi ->]. by exists i.
      + intros (j & [= -> ->] & Hj). done. }
  by rewrite <- list_fmap_compose.
Qed.

Lemma foldl_max_spec (x : nat) (l : list nat) :
  foldl Nat.max x l ∈ x :: l ∧ ∀ y, y ∈ x :: l → y ≤ foldl Nat.max x l.
Proof.
  revert x. induction l as [|z l IH]; intros x; simpl.
  { split; [by left|]. intros y Hy. apply elem_of_cons in Hy as [->|Hy]; [done|].
    by apply elem_of_nil in Hy. }
  destruct (IH (x `max` z)) as [Hin Hle]. split.
  - apply elem_of_cons in Hin as [Hm|Hin]; [|right; by right].
    rewrite Hm. destruct (Nat.max_spec x z) as [[_ ->]|[_ ->]]; [right|]; by left.
  - intros y Hy. apply elem_of_cons in Hy as [->|Hy].
    + etrans; [|apply Hle; by left]. lia.
    + apply elem_of_cons in Hy as [->|Hy].
      * etrans; [|apply Hle; by left]. lia.
      * apply Hle. by right.
Qed.

Lemma foldl_min_spec (x : nat) (l : list nat) :
  foldl Nat.min x l ∈ x :: l ∧ ∀ y, y ∈ x :: l → foldl Nat.min x l ≤ y.
Proof.
  revert x. induction l as [|z l IH]; intros x; simpl.
  { split; [by left|]. intros y Hy. apply elem_of_cons in Hy as [->|Hy]; [done|].
    by apply elem_of_nil in Hy. }
  destruct (IH (x `min` z)) as [Hin Hle]. split.
  - apply elem_of_cons in Hin as [Hm|Hin]; [|right; by right].
    rewrite Hm. destruct (Nat.min_spec x z) as [[_ ->]|[_ ->]]; [|right]; by left.
  - intros y Hy. apply elem_of_cons in Hy as [->|Hy].
    + etrans; [apply Hle; by left|]. lia.
    + apply elem_of_cons in Hy as [->|Hy].
      * etrans; [apply Hle; by left|]. lia.
      * apply Hle. by right.
Qed.

Lemma py_max_spec (l : list nat) :
  l ≠ [] → ∃ x, py_max l = Ok x ∧ x ∈ l ∧ ∀ y, y ∈ l → y ≤ x.
Proof.
  destruct l as [|x l]; [done|]. intros _. eexists. split; [done|].
  apply foldl_max_spec.
Qed.

Lemma py_min_spec (l : list nat) :
  l ≠ [] → ∃ x, py_min l = Ok x ∧ x ∈ l ∧ ∀ y, y ∈ l → x ≤ y.
Proof.
  destruct l as [|x l]; [done|]. intros _. eexists. split; [done|].
  apply foldl_min_spec.
Qed.

Lemma cardinality_values_nonempty (nb : gmap pyid (list pyid)) ids :
  ids ≠ [] → (map_to_list (cardinality_map nb ids)).*2 ≠ [].
Proof.
  destruct ids as [|i ids]; [done|]. intros _ Hnil.
  assert (length (default [] (nb !! i)) ∈ (map_to_list (cardinality_map nb (i :: ids))).*2)
    as Hin.
  { apply cardinality_values_elem. exists i. split; [by left|done]. }
  rewrite Hnil in Hin. by apply elem_of_nil in Hin.
Qed.

(** a statistic of the numbers of neighbors, computed on an empty cache *)
Lemma statistic_miss (key attr : string) (f : list nat → result nat) w :
  key ≠ "cardinalities" →
  _cache w = ∅ →
  Forall (λ i, is_Some (neighbors w !! i)) (_id_order w) →
  let c := cardinality_map (neighbors w) (_id_order w) in
  let w1 := stored "cardinalities" "_cardinalities" (VCounts c) w in
  memo key key attr (l ← cardinality_values; x ← lift (f l); mret (VInt x)) w
  = match f (map_to_list c).*2 with
    | Ok x => (Ok (VInt x), stored key attr (VInt x) w1)
    | Raise e => (Raise e, w1)
    end.
Proof.
  intros Hkey Hc Hids c w1.
  assert (∀ k, _cache w !! k = None) as Hk by (intros k; by rewrite Hc, lookup_empty).
  destruct (f (map_to_list c).*2) as [x|e] eqn:Hf.
  - apply memo_miss; [apply Hk|].
    rewrite bind_unfold, (cardinality_values_miss w (Hk _) Hids).
    cbv iota beta. rewrite bind_unfold. unfold lift. fold c. by rewrite Hf.
  - apply memo_raise; [apply Hk|].
    rewrite bind_unfold, (cardinality_values_miss w (Hk _) Hids).
    cbv iota beta. rewrite bind_unfold. unfold lift. fold c. by rewrite Hf.
Qed.
End cardinality_facts.

(** X14. On a container with an empty cache whose observation order names
    units only, [islands] returns the ids of the order that have no
    neighbor, each once. *)
Theorem X14_islands_have_no_neighbors {F : Type} `{Arith F} (w : W F) :
  _cache w = ∅ →
  Forall (λ i, is_Some (neighbors w !! i)) (_id_order w) →
  ∃ l, (islands w).1 = Ok (VIds l)
       ∧ NoDup l
       ∧ ∀ i, i ∈ l ↔ i ∈ _id_order w ∧ neighbors w !! i = Some [].
Proof.
  intros Hc Hids.
  assert (∀ k, _cache w !! k = None) as Hk by (intros k; by rewrite Hc, lookup_empty).
  set (c := cardinality_map (neighbors w) (_id_order w)).
  exists (filter (λ ic, ic.2 = 0) (map_to_list c)).*1. split; [|split].
  - unfold islands. erewrite memo_miss; [done|apply Hk|].
    rewrite bind_unfold, (cardinalities_miss w (Hk _) Hids). done.
  - apply (sublist_NoDup _ (map_to_list c).*1); [apply NoDup_fst_map_to_list|].
    apply fmap_sublist, sublist_filter.
  - intros i. rewrite list_elem_of_fmap. split.
    + intros ([i' n] & -> & Hin). apply list_elem_of_filter in Hin as [Hz Hin].
      simpl in *. subst n. apply elem_of_map_to_list in Hin.
      apply cardinality_map_spec in Hin as [Hi Hlen]. split; [done|].
      apply (proj1 (Forall_forall _ _) Hids) in Hi as [l Hl].
      rewrite Hl in Hlen |- *. simpl in Hlen. symmetry in Hlen.
      by apply nil_length_inv in Hlen as ->.
    + intros [Hi Hl]. exists (i, 0). split; [done|].
      apply list_elem_of_filter. split; [done|]. apply elem_of_map_to_list.
      apply cardinality_map_spec. split; [done|]. by rewrite Hl.
Qed.

Lemma X14_islands_have_no_neighbors_witness :
  ∃ l, (islands island_W).1 = Ok (VIds l)
       ∧ NoDup l
       ∧ ∀ i, i ∈ l ↔ i ∈ _id_order island_W ∧ neighbors island_W !! i = Some [].
Proof.
  apply (X14_islands_have_no_neighbors island_W); [reflexivity|].
  apply (bool_decide_unpack _). by vm_compute.
Defined.

(** X15. On a container with an empty cache whose observation order is not
    empty and names units only, [max_neighbors] and [min_neighbors] return
    the largest and the smallest number of neighbors of a unit of the
    order: each is the number of neighbors of some unit and bounds the
    numbers of neighbors of all. *)
Theorem X15_max_min_neighbors {F : Type} `{Arith F} (w : W F) :
  _cache w = ∅ →
  _id_order w ≠ [] →
  Forall (λ i, is_Some (neighbors w !! i)) (_id_order w) →
  ∃ hi lo,
    (max_neighbors w).1 = Ok (VInt hi)
    ∧ (min_neighbors w).1 = Ok (VInt lo)
    ∧ (∃ i l, i ∈ _id_order w ∧ neighbors w !! i = Some l ∧ length l = hi)
    ∧ (∃ i l, i ∈ _id_order w ∧ neighbors w !! i = Some l ∧ length l = lo)
    ∧ ∀ i l, i ∈ _id_order w → neighbors w !! i = Some l → (lo ≤ length l ≤ hi)%nat.
Proof.
  intros Hc Hne Hids.
  set (c := cardinality_map (neighbors w) (_id_order w)).
  pose proof (cardinality_values_nonempty (neighbors w) _ Hne) as Hvals. fold c in Hvals.
  destruct (py_max_spec _ Hvals) as (hi & Hhi & Hhi_in & Hhi_le).
  destruct (py_min_spec _ Hvals) as (lo & Hlo & Hlo_in & Hlo_le).
  exists hi, lo.
  assert (∀ v, v ∈ (map_to_list c).*2 →
               ∃ i l, i ∈ _id_order w ∧ neighbors w !! i = Some l ∧ length l = v) as Hunit.
  { intros v Hv. apply cardinality_values_elem in Hv as (i & Hi & ->).
    destruct (proj1 (Forall_forall _ _) Hids i Hi) as [l Hl].
    exists i, l. by rewrite Hl. }
  split; [|split; [|split; [|split]]]; [| |by apply Hunit|by apply Hunit|].
  - unfold max_neighbors. rewrite (statistic_miss _ _ py_max w) by done.
    fold c. by rewrite Hhi.
  - unfold min_neighbors. rewrite (statistic_miss _ _ py_min w) by done.
    fold c. by rewrite Hlo.
  - intros i l Hi Hl.
    assert (length l ∈ (map_to_list c).*2) as Hin.
    { apply cardinality_values_elem. exists i. by rewrite Hl. }
    split; [by apply Hlo_le|by apply Hhi_le].
Qed.

Lemma X15_max_min_neighbors_witness :
  ∃ hi lo,
    (max_neighbors lattice_W).1 = Ok (VInt hi)
    ∧ (min_neighbors lattice_W).1 = Ok (VInt lo)
    ∧ (∃ i l, i ∈ _id_order lattice_W ∧ neighbors lattice_W !! i = Some l ∧ length l = hi)
    ∧ (∃ i l, i ∈ _id_order lattice_W ∧ neighbors lattice_W !! i = Some l ∧ length l = lo)
    ∧ ∀ i l, i ∈ _id_order lattice_W → neighbors lattice_W !! i = Some l
             → (lo ≤ length l ≤ hi)%nat.
Proof.
  apply (X15_max_min_neighbors lattice_W); [reflexivity|by vm_compute|].
  apply (bool_decide_unpack _). by vm_compute.
Defined.

(** X16. A container without units: with an empty observation order and an
    empty cache, [max_neighbors], [min_neighbors] and [histogram] raise
    [ValueError] (the maximum and the minimum of an empty list). *)
Theorem X16_no_units_ValueError {F : Type} `{Arith F} (w : W F) :
  _cache w = ∅ → _id_order w = [] →
  (max_neighbors w).1 = Raise ValueError
  ∧ (min_neighbors w).1 = Raise ValueError
  ∧ (histogram w).1 = Raise ValueError.
Proof.
  intros Hc Hids.
  assert (∀ k, _cache w !! k = None) as Hk by (intros k; by rewrite Hc, lookup_empty).
  assert (Forall (λ i, is_Some (neighbors w !! i)) (_id_order w)) as Hall.
  { rewrite Hids. constructor. }
  assert (cardinality_map (neighbors w) (_id_order w) = ∅) as Hcm.
  { by rewrite Hids. }
  split; [|split].
  - unfold max_neighbors. rewrite (statistic_miss _ _ py_max w) by done.
    by rewrite Hcm.
  - unfold min_neighbors. rewrite (statistic_miss _ _ py_min w) by done.
    by rewrite Hcm.
  - unfold histogram. erewrite memo_raise; [done|apply Hk|].
    rewrite bind_unfold, (cardinality_values_miss w (Hk _) Hall).
    cbv iota beta. rewrite bind_unfold.
    unfold min_neighbors.
    erewrite memo_raise; [reflexivity|simpl; by rewrite lookup_insert_ne|].
    rewrite bind_unfold. erewrite cardinality_values_hit;
      [|simpl; rewrite lookup_insert_eq; by eexists|simpl; by rewrite lookup_insert_eq].
    cbv iota beta. by rewrite Hcm.
Qed.

Lemma X16_no_units_ValueError_witness :
  (max_neighbors empty_W).1 = Raise ValueError
  ∧ (min_neighbors empty_W).1 = Raise ValueError
  ∧ (histogram empty_W).1 = Raise ValueError.
Proof. apply (X16_no_units_ValueError empty_W); reflexivity. Defined.

(** X17. [mean_neighbors] tests the cache key of [max_neighbors].  On a
    container with an empty cache on which [mean_neighbors] was never
    computed (as after construction), [mean_neighbors] returns a value,
    but once [max_neighbors] has been read it raises [AttributeError]: the
    key it tests is in the cache and the attribute it returns was never
    assigned. *)
Theorem X17_mean_after_max_AttributeError {F : Type} `{Arith F} (w : W F) :
  _cache w = ∅ →
  attrs w !! "_mean_neighbors" = None →
  _id_order w ≠ [] →
  Forall (λ i, is_Some (neighbors w !! i)) (_id_order w) →
  (∃ x, (mean_neighbors w).1 = Ok (VFloat x))
  ∧ (∃ k, (max_neighbors w).1 = Ok (VInt k))
  ∧ (mean_neighbors (max_neighbors w).2).1 = Raise AttributeError.
Proof.
  intros Hc Ha Hne Hids.
  assert (∀ k, _cache w !! k = None) as Hk by (intros k; by rewrite Hc, lookup_empty).
  set (c := cardinality_map (neighbors w) (_id_order w)).
  pose proof (cardinality_values_nonempty (neighbors w) _ Hne) as Hvals. fold c in Hvals.
  destruct (py_max_spec _ Hvals) as (hi & Hhi & _).
  split; [|split].
  - eexists. unfold mean_neighbors. erewrite memo_miss; [done|apply Hk|].
    by rewrite bind_unfold, (cardinality_values_miss w (Hk _) Hids).
  - exists hi. unfold max_neighbors. rewrite (statistic_miss _ _ py_max w) by done.
    fold c. by rewrite Hhi.
  - unfold max_neighbors. rewrite (statistic_miss _ _ py_max w) by done.
    fold c. rewrite Hhi. cbn [snd].
    unfold mean_neighbors. rewrite memo_hit.
    + unfold getattr. simpl. rewrite !lookup_insert_ne by done. by rewrite Ha.
    + simpl. rewrite lookup_insert_eq. by eexists.
Qed.

Lemma X17_mean_after_max_AttributeError_witness :
  (∃ x, (mean_neighbors lattice_W).1 = Ok (VFloat x))
  ∧ (∃ k, (max_neighbors lattice_W).1 = Ok (VInt k))
  ∧ (mean_neighbors (max_neighbors lattice_W).2).1 = Raise AttributeError.
Proof.
  apply (X17_mean_after_max_AttributeError lattice_W);
    [reflexivity|reflexivity|by vm_compute|].
  apply (bool_decide_unpack _). by vm_compute.
Defined.

Section histogram_facts.
Context {F : Type} `{Arith F}.
Implicit Types w : W F.
Local Open Scope nat_scope.

(** a statistic of the numbers of neighbors, once these are cached *)
Lemma statistic_cached (key attr : string) (f : list nat → result nat) w c :
  _cache w !! key = None →
  is_Some (_cache w !! "cardinalities") →
  attrs w !! "_cardinalities" = Some (VCounts c) →
  memo key key attr (l ← cardinality_values; x ← lift (f l); mret (VInt x)) w
  = match f (map_to_list c).*2 with
    | Ok x => (Ok (VInt x), stored key attr (VInt x) w)
    | Raise e => (Raise e, w)
    end.
Proof.
  intros Hkey Hc Ha.
  destruct (f (map_to_list c).*2) as [x|e] eqn:Hf.
  - apply memo_miss; [done|].
    rewrite bind_unfold, (cardinality_values_hit w c Hc Ha).
    cbv iota beta. rewrite bind_unfold. unfold lift. by rewrite Hf.
  - apply memo_raise; [done|].
    rewrite bind_unfold, (cardinality_values_hit w c Hc Ha).
    cbv iota beta. rewrite bind_unfold. unfold lift. by rewrite Hf.
Qed.

Lemma length_filter_fmap {A B} (f : A → B) (P : B → Prop) `{!∀ y, Decision (P y)}
    (l : list A) :
  length (filter P (f <$> l)) = length (filter (λ x, P (f x)) l).
Proof.
  induction l as [|x l IH]; [done|]. rewrite fmap_cons, !filter_cons.
  destruct (decide (P (f x))); simpl; by rewrite IH.
Qed.

Lemma sum_list_indicator (v lo k : nat) :
  sum_list ((λ b, if decide (v = b) then 1 else 0) <$> seq lo k)
  = if decide (lo ≤ v < lo + k) then 1 else 0.
Proof.
  revert lo. induction k as [|k IH]; intros lo; simpl.
  { case_decide; [lia|done]. }
  rewrite IH. repeat case_decide; lia.
Qed.

(** the counts of a histogram over bins that cover the values add up to
    the number of values *)
Lemma sum_list_counts (vals : list nat) (lo k : nat) :
  Forall (λ v, lo ≤ v < lo + k) vals →
  sum_list ((λ b, length (filter (λ v, v = b) vals)) <$> seq lo k) = length vals.
Proof.
  induction 1 as [|v vals Hv Hvals IH].
  { generalize (seq lo k). intros l. induction l as [|b l IHl]; [done|].
    rewrite fmap_cons. cbn [sum_list sum_list_with]. by rewrite IHl. }
  cbn [length]. rewrite <- IH.
  assert (∀ l, sum_list ((λ b, length (filter (λ v0, v0 = b) (v :: vals))) <$> l)
               = sum_list ((λ b, if decide (v = b) then 1 else 0) <$> l)
                 + sum_list ((λ b, length (filter (λ v0, v0 = b) vals)) <$> l)) as Hsplit.
  { induction l as [|b l IHl]; [done|]. rewrite !fmap_cons. cbn [sum_list sum_list_with].
    rewrite IHl, filter_cons. repeat case_decide; simpl; lia. }
  rewrite Hsplit, sum_list_indicator. rewrite decide_True by done. lia.
Qed.
End histogram_facts.

(** X18. On a container with an empty cache whose observation order is not
    empty, repeats no id and names units only, [histogram] returns one pair
    per number of neighbors from [min_neighbors] to [max_neighbors], in
    ascending order, each with the number of units of the order that have
    that many neighbors; the counts add up to the number of units. *)
Theorem X18_histogram_counts_units {F : Type} `{Arith F} (w : W F) :
  _cache w = ∅ →
  _id_order w ≠ [] → NoDup (_id_order w) →
  Forall (λ i, is_Some (neighbors w !! i)) (_id_order w) →
  ∃ h lo hi,
    (histogram w).1 = Ok (VHist h)
    ∧ (min_neighbors w).1 = Ok (VInt lo)
    ∧ (max_neighbors w).1 = Ok (VInt hi)
    ∧ h.*1 = seq lo (hi + 1 - lo)
    ∧ (∀ b c, (b, c) ∈ h →
              c = length (filter (λ i, length (default [] (neighbors w !! i)) = b)
                                 (_id_order w)))
    ∧ sum_list h.*2 = length (_id_order w).
Proof.
  intros Hc Hne Hnd Hids.
  assert (∀ k, _cache w !! k = None) as Hk by (intros k; by rewrite Hc, lookup_empty).
  set (c := cardinality_map (neighbors w) (_id_order w)).
  set (vals := (map_to_list c).*2).
  pose proof (cardinality_values_nonempty (neighbors w) _ Hne) as Hvals.
  fold c in Hvals. fold vals in Hvals.
  destruct (py_max_spec _ Hvals) as (hi & Hhi & Hhi_in & Hhi_le).
  destruct (py_min_spec _ Hvals) as (lo & Hlo & Hlo_in & Hlo_le).
  pose proof (cardinality_values_perm (neighbors w) _ Hnd) as Hperm.
  fold c in Hperm. fold vals in Hperm.
  exists (np_histogram vals lo hi), lo, hi.
  split; [|split; [|split; [|split; [|split]]]].
  - unfold histogram. erewrite memo_miss; [done|apply Hk|].
    rewrite bind_unfold, (cardinality_values_miss w (Hk _) Hids).
    cbv iota beta. fold c. fold vals.
    set (w1 := stored "cardinalities" "_cardinalities" (VCounts c) w).
    rewrite bind_unfold. unfold min_neighbors.
    rewrite (statistic_cached _ _ py_min w1 c);
      [|subst w1; simpl; by rewrite lookup_insert_ne
       |subst w1; simpl; rewrite lookup_insert_eq; by eexists
       |subst w1; simpl; by rewrite lookup_insert_eq].
    fold vals. rewrite Hlo. cbv iota beta.
    rewrite bind_unfold. unfold lift at 1. cbn [as_int]. cbv iota beta.
    set (w2 := stored "min_neighbors" "_min_neighbors" (VInt lo) w1).
    rewrite bind_unfold. unfold max_neighbors.
    rewrite (statistic_cached _ _ py_max w2 c);
      [|subst w2 w1; simpl; by rewrite !lookup_insert_ne
       |subst w2 w1; simpl; rewrite lookup_insert_ne by done;
        rewrite lookup_insert_eq; by eexists
       |subst w2 w1; simpl; rewrite lookup_insert_ne by done;
        by rewrite lookup_insert_eq].
    fold vals. rewrite Hhi. cbv iota beta.
    rewrite bind_unfold. unfold lift at 1. cbn [as_int]. cbv iota beta. done.
  - unfold min_neighbors. rewrite (statistic_miss _ _ py_min w) by done.
    fold c. fold vals. by rewrite Hlo.
  - unfold max_neighbors. rewrite (statistic_miss _ _ py_max w) by done.
    fold c. fold vals. by rewrite Hhi.
  - unfold np_histogram. rewrite <- list_fmap_compose. apply list_fmap_id.
  - intros b n Hin. unfold np_histogram in Hin.
    apply list_elem_of_fmap in Hin as (b' & [= -> ->] & _).
    rewrite Hperm. apply length_filter_fmap.
  - unfold np_histogram. rewrite <- list_fmap_compose.
    rewrite <- (length_fmap (λ i, length (default [] (neighbors w !! i)))), <- Hperm.
    apply (sum_list_counts vals lo (hi + 1 - lo)).
    apply Forall_forall. intros v Hv.
    specialize (Hlo_le v Hv). specialize (Hhi_le v Hv). lia.
Qed.

Lemma X18_histogram_counts_units_witness :
  ∃ h lo hi,
    (histogram lattice_W).1 = Ok (VHist h)
    ∧ (min_neighbors lattice_W).1 = Ok (VInt lo)
    ∧ (max_neighbors lattice_W).1 = Ok (VInt hi)
    ∧ h.*1 = seq lo (hi + 1 - lo)
    ∧ (∀ b c, (b, c) ∈ h →
              c = length (filter (λ i, length (default [] (neighbors lattice_W !! i)) = b)
                                 (_id_order lattice_W)))
    ∧ sum_list h.*2 = length (_id_order lattice_W).
Proof.
  apply (X18_histogram_counts_units lattice_W); [reflexivity|by vm_compute| |].
  - apply (bool_decide_unpack _). by vm_compute.
  - apply (bool_decide_unpack _). by vm_compute.
Defined.

(** ** The cells of the sparse matrix *)

Section cells.
Context {F : Type} `{Arith F}.
Local Open Scope nat_scope.

Lemma cell_mzero n a b : cell (mzero (F:=F) n) a b = None.
Proof.
  unfold cell, mzero. destruct (replicate n _ !! a) as [r|] eqn:Hr; [|done].
  apply lookup_replicate in Hr as [-> _].
  destruct (replicate n _ !! b) as [c|] eqn:Hc; [|done].
  by apply lookup_replicate in Hc as [-> _].
Qed.

Lemma cell_add_entry n (m : mat F) i j x a b :
  square n m → i < n → j < n →
  cell (add_entry m (i, j, x)) a b
  = if decide ((i, j) = (a, b)) then store x (cell m a b) else cell m a b.
Proof.
  intros [Hlen Hrows] Hi Hj. unfold add_entry, cell. simpl.
  destruct (decide (i = a)) as [->|Hia].
  - rewrite list_lookup_alter_eq.
    destruct (lookup_lt_is_Some_2 m a) as [r Hr]; [lia|]. rewrite Hr. simpl.
    assert (length r = n) as Hr_len.
    { apply (proj1 (Forall_forall _ _) Hrows). by eapply list_elem_of_lookup_2. }
    destruct (decide (j = b)) as [->|Hjb].
    + rewrite decide_True by done. rewrite list_lookup_alter_eq.
      destruct (lookup_lt_is_Some_2 r b) as [c Hc]; [lia|]. by rewrite Hc.
    + rewrite decide_False by congruence. by rewrite list_lookup_alter_ne.
  - rewrite decide_False by congruence. by rewrite list_lookup_alter_ne.
Qed.

(** a position that no entry names keeps its cell *)
Lemma cell_foldl_other n (ts : list (nat * nat * F)) (m : mat F) a b :
  square n m → Forall (λ t, t.1.1 < n ∧ t.1.2 < n) ts →
  (a, b) ∉ ts.*1 →
  cell (foldl add_entry m ts) a b = cell m a b.
Proof.
  revert m. induction ts as [|[[i j] x] ts IH]; intros m Hm Hts Hab; [done|].
  apply Forall_cons in Hts as [[Hi Hj] Hts]. simpl in Hi, Hj.
  rewrite fmap_cons, not_elem_of_cons in Hab. destruct Hab as [Hne Hab].
  cbn [foldl]. rewrite IH; [|by apply square_add_entry|done|done].
  rewrite (cell_add_entry n) by done. by rewrite decide_False by (simpl in Hne; congruence).
Qed.

(** a position named by one entry holds the value of that entry *)
Lemma cell_foldl_entry n (ts : list (nat * nat * F)) (m : mat F) a b x :
  square n m → Forall (λ t, t.1.1 < n ∧ t.1.2 < n) ts →
  NoDup ts.*1 → (a, b, x) ∈ ts → cell m a b = None →
  cell (foldl add_entry m ts) a b = Some x.
Proof.
  revert m. induction ts as [|[[i j] y] ts IH]; intros m Hm Hts Hnd Hin Hnone.
  { by apply elem_of_nil in Hin. }
  apply Forall_cons in Hts as [[Hi Hj] Hts]. simpl in Hi, Hj.
  rewrite fmap_cons in Hnd. apply NoDup_cons in Hnd as [Hfresh Hnd].
  cbn [foldl]. apply elem_of_cons in Hin as [[= <- <- <-]|Hin].
  - rewrite (cell_foldl_other n); [|by apply square_add_entry|done|done].
    rewrite (cell_add_entry n) by done. rewrite decide_True by done.
    by rewrite Hnone.
  - apply IH; [by apply square_add_entry|done|done|done|].
    rewrite (cell_add_entry n) by done. rewrite decide_False; [done|].
    intros [= -> ->]. destruct Hfresh. simpl.
    apply list_elem_of_fmap. by exists (a, b, x).
Qed.

Lemma fmap_bind_list {A B C} (f : B → C) (g : A → list B) (l : list A) :
  f <$> (l ≫= g) = l ≫= (λ x, f <$> g x).
Proof.
  induction l as [|x l IH]; [done|]. by rewrite !bind_cons, fmap_app, IH.
Qed.
End cells.

Section sparse_cells.
Context {F : Type} `{Arith F}.
Context (nb : gmap pyid (list pyid)) (wts : gmap pyid (list F)) (ids : list pyid).
Context (Hord : is_order nb ids) (Hclosed : closed nb) (Hshape : same_shape nb wts).
Local Open Scope nat_scope.

Local Abbreviation ix := (index_map ids).
Local Abbreviation offs := (offsets_map nb ids).
Local Abbreviation triples := (unit_triples nb wts ids).

Lemma index_map_inj i j k : ix !! i = Some k → ix !! j = Some k → i = j.
Proof using Hord.
  destruct Hord as [Hnd _]. intros Hi Hj.
  apply (index_map_NoDup ids i k Hnd) in Hi.
  apply (index_map_NoDup ids j k Hnd) in Hj. congruence.
Qed.

(** the entries of one unit, spelled out *)
Lemma unit_triples_item i nl :
  (i, nl) ∈ map_to_list offs →
  ∃ l x k, nb !! i = Some l ∧ wts !! i = Some x ∧ length x = length l
           ∧ ix !! i = Some k ∧ k < size nb
           ∧ nl = offsets_of ids l
           ∧ triples (i, nl) = zip (zip (replicate (length l) k) (offsets_of ids l)) x.
Proof using Hord Hshape.
  intros Hin.
  destruct (offsets_item nb wts ids Hord Hshape i nl Hin)
    as (l & x & k & Hl & -> & Hx & Hlen & Hcd & Hk & Hlt).
  exists l, x, k. repeat split; try done.
  unfold unit_triples. simpl. by rewrite Hcd, Hk, Hx.
Qed.

(** the triples given to [csr_matrix], unit by unit *)
Lemma collected_triples row col data :
  collected nb wts ids = (row, col, data) →
  zip (zip row col) data = map_to_list offs ≫= triples.
Proof using Hord Hshape.
  intros Hc.
  assert (∀ its acc,
            (∀ it, it ∈ its → it ∈ map_to_list offs) →
            length acc.1.1 = length acc.2 → length acc.1.2 = length acc.2 →
            let r := foldl (collect nb wts ids) acc its in
            zip (zip r.1.1 r.1.2) r.2
            = (zip (zip acc.1.1 acc.1.2) acc.2 ++ (its ≫= triples))%list) as Hgen.
  { induction its as [|[i nl] its IH]; intros [[r c] d] Hits Hr Hcl; simpl in Hr, Hcl.
    { simpl. by rewrite app_nil_r. }
    cbn [foldl]. cbv zeta.
    destruct (unit_triples_item i nl) as (l & x & k & Hl & Hx & Hlen & Hk & Hlt & -> & Ht);
      [apply Hits; by left|].
    destruct (offsets_item nb wts ids Hord Hshape i (offsets_of ids l))
      as (l' & x' & k' & Hl' & _ & Hx' & _ & Hcd & Hk' & _); [apply Hits; by left|].
    assert (collect nb wts ids (r, c, d) (i, offsets_of ids l)
            = ((r ++ replicate (length l) k)%list, (c ++ offsets_of ids l)%list,
               (d ++ x)%list)) as Hstep.
    { unfold collect. rewrite Hcd, Hk, Hx. simpl. congruence. }
    rewrite Hstep. pose proof (IH (r ++ replicate (length l) k, c ++ offsets_of ids l, d ++ x)%list)
      as IH'. cbv zeta in IH'. rewrite IH'; clear IH'.
    - cbn [fst snd]. rewrite bind_cons, Ht.
      rewrite (zip_with_app pair r _ c _) by lia.
      rewrite (zip_with_app pair (zip r c)) by (rewrite length_zip_with; lia).
      by rewrite <- app_assoc.
    - intros it Hit. apply Hits. by right.
    - simpl. rewrite !length_app, length_replicate. lia.
    - simpl. rewrite !length_app. unfold offsets_of. rewrite length_fmap. lia. }
  specialize (Hgen (map_to_list offs) ([], [], []) (λ _ Hit, Hit) eq_refl eq_refl).
  cbv zeta in Hgen. fold (collected nb wts ids) in Hgen. by rewrite Hc in Hgen.
Qed.

(** what the triples are *)
Lemma elem_of_triples r c x :
  (r, c, x) ∈ map_to_list offs ≫= triples
  ↔ ∃ i l ws p j, nb !! i = Some l ∧ wts !! i = Some ws
                  ∧ l !! p = Some j ∧ ws !! p = Some x
                  ∧ ix !! i = Some r ∧ ix !! j = Some c.
Proof using Hord Hclosed Hshape.
  rewrite list_elem_of_bind. split.
  - intros ([i nl] & Hin & Hit).
    destruct (unit_triples_item i nl Hit) as (l & ws & k & Hl & Hx & Hlen & Hk & Hlt & -> & Ht).
    rewrite Ht in Hin. apply list_elem_of_lookup in Hin as [p Hp].
    apply zip_lookup_Some in Hp as [Hp Hxp]. apply zip_lookup_Some in Hp as [Hr Hcp].
    apply lookup_replicate in Hr as [-> Hplt].
    unfold offsets_of in Hcp. rewrite list_lookup_fmap in Hcp.
    destruct (l !! p) as [j|] eqn:Hj; simpl in Hcp; [|done]. injection Hcp as <-.
    exists i, l, ws, p, j. repeat split; try done.
    destruct (index_map_Some ids j) as (kj & Hkj & _).
    { eapply (neighbor_in_order nb ids Hord Hclosed); [exact Hl|].
      by eapply list_elem_of_lookup_2. }
    by rewrite Hkj.
  - intros (i & l & ws & p & j & Hl & Hx & Hj & Hxp & Hi & Hc).
    exists (i, offsets_of ids l).
    assert ((i, offsets_of ids l) ∈ map_to_list offs) as Hit.
    { apply elem_of_map_to_list. unfold offsets_map. by rewrite lookup_fmap, Hl. }
    split; [|done].
    destruct (unit_triples_item _ _ Hit) as (l' & ws' & k & Hl' & Hx' & Hlen & Hk & Hlt & _ & Ht).
    rewrite Ht. assert (l' = l) as -> by congruence.
    assert (ws' = ws) as -> by congruence. assert (k = r) as -> by congruence.
    apply list_elem_of_lookup. exists p. apply zip_lookup_Some. split; [|done].
    apply zip_lookup_Some. split.
    + apply lookup_replicate_2. by eapply lookup_lt_Some.
    + unfold offsets_of. rewrite list_lookup_fmap, Hj. simpl. by rewrite Hc.
Qed.

(** no position is given twice when no neighbor is listed twice *)
Lemma triples_NoDup :
  map_Forall (λ _ l, NoDup l) nb →
  NoDup (map_to_list offs ≫= triples).*1.
Proof using Hord Hclosed Hshape.
  intros Hnd. rewrite fmap_bind_list. apply NoDup_bind.
  - intros [i1 nl1] [i2 nl2] [r c] Hit1 Hit2 Hin1 Hin2.
    destruct (unit_triples_item _ _ Hit1) as (l1 & x1 & k1 & Hl1 & _ & _ & Hk1 & _ & _ & Ht1).
    destruct (unit_triples_item _ _ Hit2) as (l2 & x2 & k2 & Hl2 & _ & _ & Hk2 & _ & _ & Ht2).
    rewrite Ht1 in Hin1. rewrite Ht2 in Hin2.
    apply list_elem_of_fmap in Hin1 as ([[r1 c1] y1] & [= <- <-] & Hin1).
    apply list_elem_of_fmap in Hin2 as ([[r2 c2] y2] & [= <- <-] & Hin2).
    apply elem_of_zip_l, elem_of_zip_l, elem_of_replicate in Hin1 as [-> _].
    apply elem_of_zip_l, elem_of_zip_l, elem_of_replicate in Hin2 as [Hr _].
    assert (i1 = i2) as ->.
    { apply (index_map_inj i1 i2 k1); [done|congruence]. }
    apply elem_of_map_to_list in Hit1, Hit2. congruence.
  - intros [i nl] Hit.
    destruct (unit_triples_item _ _ Hit) as (l & x & k & Hl & _ & Hlen & Hk & _ & -> & Ht).
    rewrite Ht, fst_zip.
    2:{ rewrite length_zip_with, length_replicate. unfold offsets_of.
        rewrite length_fmap. lia. }
    apply NoDup_zip_r. unfold offsets_of. apply NoDup_fmap_2_strong; [|by apply (Hnd i)].
    intros j1 j2 Hj1 Hj2 Heq.
    destruct (index_map_Some ids j1) as (k1 & Hk1 & _);
      [by eapply (neighbor_in_order nb ids Hord Hclosed)|].
    destruct (index_map_Some ids j2) as (k2 & Hk2 & _);
      [by eapply (neighbor_in_order nb ids Hord Hclosed)|].
    rewrite Hk1, Hk2 in Heq. simpl in Heq. subst k2.
    by apply (index_map_inj j1 j2 k1).
  - apply NoDup_map_to_list.
Qed.

Lemma sparse_matrix_triples :
  sparse_matrix nb wts ids
  = foldl add_entry (mzero (size nb)) (map_to_list offs ≫= triples)
  ∧ Forall (λ t, t.1.1 < size nb ∧ t.1.2 < size nb) (map_to_list offs ≫= triples).
Proof using Hord Hclosed Hshape.
  destruct (collected nb wts ids) as [[row col] data] eqn:Hc.
  destruct (collected_arrays nb wts ids Hord Hclosed Hshape row col data Hc)
    as (_ & _ & Hr & Hcl).
  rewrite <- (collected_triples row col data Hc). split.
  - unfold sparse_matrix. by rewrite Hc.
  - by apply zip_in_range.
Qed.

Lemma sparse_matrix_square : square (size nb) (sparse_matrix nb wts ids).
Proof using Hord Hclosed Hshape.
  destruct sparse_matrix_triples as [-> _].
  apply foldl_invariant; [|apply square_mzero].
  intros m t _. apply square_add_entry.
Qed.

(** The cell of a pair of units: the weight of the link when the second
    unit is a neighbor of the first, nothing otherwise. *)
Lemma sparse_matrix_cell i j a b l ws :
  map_Forall (λ _ l, NoDup l) nb →
  ids !! a = Some i → ids !! b = Some j →
  nb !! i = Some l → wts !! i = Some ws →
  (∀ p x, l !! p = Some j → ws !! p = Some x →
          cell (sparse_matrix nb wts ids) a b = Some x)
  ∧ (j ∉ l → cell (sparse_matrix nb wts ids) a b = None).
Proof using Hord Hclosed Hshape.
  intros Hnd Ha Hb Hl Hws.
  destruct sparse_matrix_triples as [-> Hrange].
  assert (ix !! i = Some a) as Hia by (apply index_map_NoDup; [apply Hord|done]).
  assert (ix !! j = Some b) as Hjb by (apply index_map_NoDup; [apply Hord|done]).
  split.
  - intros p x Hp Hx.
    apply (cell_foldl_entry (size nb)); [apply square_mzero|done|by apply triples_NoDup| |
      apply cell_mzero].
    apply elem_of_triples. by exists i, l, ws, p, j.
  - intros Hj. rewrite (cell_foldl_other (size nb)); [apply cell_mzero|apply square_mzero|done|].
    intros Hin. apply list_elem_of_fmap in Hin as ([[r c] x] & [= <- <-] & Hin).
    apply elem_of_triples in Hin as (i' & l' & ws' & p & j' & Hl' & Hws' & Hp & Hx & Hi' & Hj').
    assert (i' = i) as -> by (by apply (index_map_inj i' i a)).
    assert (l' = l) as -> by congruence.
    assert (j' = j) as -> by (by apply (index_map_inj j' j b)).
    destruct Hj. by eapply list_elem_of_lookup_2.
Qed.
End sparse_cells.

Section constructed.
Context {F : Type} `{Arith F}.

Lemma initial_weights_shape nb (ws : option (gmap pyid (list F))) :
  match ws with Some m => same_shape nb m | None => True end →
  same_shape nb (initial_weights nb ws).
Proof.
  intros Hws. unfold initial_weights. destruct ws as [m|];
    [|apply same_shape_unit_weights].
  case_bool_decide; [apply same_shape_unit_weights|done].
Qed.

Lemma initial_order_valid nb (ord : option (list pyid)) :
  match ord with Some ids => is_order nb ids | None => True end →
  is_order nb (initial_order nb ord).
Proof. destruct ord as [l|]; [done|]. intros _. apply sorted_keys_order. Qed.

(** a container with an empty cache, its weights aligned and its size
    recorded, is consistent *)
Lemma consistent_fresh nb (wts : gmap pyid (list F)) ids (w : W F) :
  neighbors w = nb → weights w = wts → _id_order w = ids → _n w = size nb →
  _cache w = ∅ → consistent nb wts ids None w.
Proof.
  intros Hnb Hw Hids Hn Hc. repeat split; try done.
  all: rewrite Hc, lookup_empty; by intros [? ?].
Qed.

Lemma init_consistent nb (ws : option (gmap pyid (list F))) ord :
  match ws with Some m => same_shape nb m | None => True end →
  consistent nb (initial_weights nb ws) (initial_order nb ord) None
             (__init__ nb ws ord).2.
Proof.
  intros Hws. rewrite init_state. apply consistent_fresh; simpl; try done.
  by apply same_shape_size, initial_weights_shape.
Qed.
End constructed.

(** X19. The sparse matrix of a container constructed from neighbors that
    are all units and are listed once each, with aligned weights (if given)
    and an order that is a permutation of the ids (if given): [sparse] is an
    [n] by [n] matrix; for units [i] and [j] at positions [a] and [b] of the
    order, the cell [(a, b)] holds the weight that [weights[i]] has at the
    position of [j] in [neighbors[i]], and is not stored when [j] is not a
    neighbor of [i]. *)
Theorem X19_sparse_holds_the_weights {F : Type} `{Arith F}
    (nb : gmap pyid (list pyid)) (ws : option (gmap pyid (list F)))
    (ord : option (list pyid)) :
  closed nb → map_Forall (λ _ l, NoDup l) nb →
  match ws with Some m => same_shape nb m | None => True end →
  match ord with Some ids => is_order nb ids | None => True end →
  let w := (__init__ nb ws ord).2 in
  ∃ m, (sparse w).1 = Ok (VSparse m)
       ∧ square (size nb) m
       ∧ ∀ a b i j l xs,
           _id_order w !! a = Some i → _id_order w !! b = Some j →
           neighbors w !! i = Some l → weights w !! i = Some xs →
           (∀ p x, l !! p = Some j → xs !! p = Some x → cell m a b = Some x)
           ∧ (j ∉ l → cell m a b = None).
Proof.
  intros Hclosed Hnd Hws Hord w.
  pose proof (initial_weights_shape nb ws Hws) as Hshape.
  pose proof (initial_order_valid nb ord Hord) as Hids.
  pose proof (init_consistent nb ws ord Hws) as Hok. fold w in Hok.
  destruct (sparse_spec nb _ _ Hids Hclosed Hshape w Hok) as (v & w' & Hs & -> & _).
  exists (sparse_matrix nb (initial_weights nb ws) (initial_order nb ord)).
  split; [by rewrite Hs|]. split; [by apply sparse_matrix_square|].
  subst w. rewrite init_state. simpl. intros a b i j l xs Ha Hb Hl Hxs.
  by apply (sparse_matrix_cell nb _ _ Hids Hclosed Hshape i j a b l xs).
Qed.

Lemma X19_sparse_holds_the_weights_witness :
  let w := (__init__ (F:=float) lattice None None).2 in
  ∃ m, (sparse w).1 = Ok (VSparse m)
       ∧ square (size lattice) m
       ∧ ∀ a b i j l xs,
           _id_order w !! a = Some i → _id_order w !! b = Some j →
           neighbors w !! i = Some l → weights w !! i = Some xs →
           (∀ p x, l !! p = Some j → xs !! p = Some x → cell m a b = Some x)
           ∧ (j ∉ l → cell m a b = None).
Proof.
  refine (X19_sparse_holds_the_weights (F:=float) lattice None None _ _ I I).
  - apply (bool_decide_unpack _). by vm_compute.
  - apply (bool_decide_unpack _). by vm_compute.
Defined.

(** ** Reading a property twice *)

Section twice.
Context {F : Type} `{Arith F}.

Lemma memo_twice key attr (compute : M (W F) (pyval F)) (w w' : W F) v :
  memo key key attr compute w = (Ok v, w') →
  memo key key attr compute w' = (Ok v, w').
Proof.
  intros Hm. destruct (_cache w !! key) as [c|] eqn:Hc.
  - rewrite memo_hit in Hm by (rewrite Hc; by eexists).
    unfold getattr in Hm. simpl in Hm.
    destruct (attrs w !! attr) eqn:Ha; [|done]. injection Hm as -> <-.
    rewrite memo_hit by (rewrite Hc; by eexists).
    unfold getattr. simpl. by rewrite Ha.
  - destruct (compute w) as [[v1|e] w1] eqn:Hv.
    + rewrite (memo_miss _ _ _ _ w w1 v1 Hc Hv) in Hm. injection Hm as -> <-.
      rewrite memo_hit by (simpl; rewrite lookup_insert_eq; by eexists).
      unfold getattr. simpl. by rewrite lookup_insert_eq.
    + by rewrite (memo_raise _ _ _ _ w w1 e Hc Hv) in Hm.
Qed.
End twice.

(** X22. A property that stores its value under the cache key it tests
    ([sparse], [s0], [s1], [s2], [s2array], [trcWtW], [diagWtW],
    [trcWtW_WW], [diagWtW_WW], [pct_nonzero], [nonzero], [cardinalities],
    [max_neighbors], [min_neighbors], [sd], [histogram], [islands],
    [asymmetries], [id2i]) is computed once: when a read returns a value,
    a second read returns the same value and changes nothing, in any state
    of the container. *)
Theorem X22_second_read_is_cached {F : Type} `{Arith F}
    (q : query) (w w' : W F) (v : pyval F) :
  memoized q = true →
  run_query q w = (Ok v, w') →
  run_query q w' = (Ok v, w').
Proof.
  intros Hq. destruct q; try discriminate Hq; simpl; apply memo_twice.
Qed.

Lemma X22_second_read_is_cached_witness :
  ∃ v, run_query Q_max_neighbors (max_neighbors path_W).2
       = (Ok v, (max_neighbors path_W).2).
Proof.
  exists (VInt 2).
  apply (X22_second_read_is_cached Q_max_neighbors path_W); [reflexivity|].
  vm_compute. reflexivity.
Defined.

(** ** Symmetric weights *)

Section matrix_cells.
Context {F : Type} `{Arith F}.
Local Open Scope nat_scope.

Lemma cell_lookup n (m : mat F) i j :
  square n m → i < n → j < n →
  ∃ r, m !! i = Some r ∧ r !! j = Some (cell m i j).
Proof.
  intros [Hlen Hrows] Hi Hj.
  destruct (lookup_lt_is_Some_2 m i) as [r Hr]; [lia|].
  assert (length r = n) as Hr_len.
  { apply (proj1 (Forall_forall _ _) Hrows). by eapply list_elem_of_lookup_2. }
  destruct (lookup_lt_is_Some_2 r j) as [c Hc]; [lia|].
  exists r. split; [done|]. unfold cell. by rewrite Hr, Hc.
Qed.

Lemma cell_mzip n (f : option F → option F → option F) (a b : mat F) i j :
  square n a → square n b → i < n → j < n →
  cell (mzip f a b) i j = f (cell a i j) (cell b i j).
Proof.
  intros Ha Hb Hi Hj.
  destruct (cell_lookup n a i j Ha Hi Hj) as (ra & Hra & Hca).
  destruct (cell_lookup n b i j Hb Hi Hj) as (rb & Hrb & Hcb).
  unfold mzip. unfold cell at 1.
  rewrite lookup_zip_with, Hra, Hrb. simpl.
  by rewrite lookup_zip_with, Hca, Hcb.
Qed.

Lemma cell_mtranspose (m : mat F) i j :
  i < length m → j < length m → cell (mtranspose m) i j = cell m j i.
Proof.
  intros Hi Hj. unfold mtranspose. unfold cell at 1.
  rewrite list_lookup_fmap, lookup_seq_lt by done. simpl.
  by rewrite list_lookup_fmap, lookup_seq_lt by done.
Qed.

Lemma square_mtranspose n (m : mat F) : length m = n → square n (mtranspose m).
Proof.
  intros Hn. unfold mtranspose. split.
  - by rewrite length_fmap, length_seq.
  - apply Forall_fmap, Forall_forall. intros j _. simpl.
    by rewrite length_fmap, length_seq.
Qed.

Lemma bind_all_nil {A B} (f : A → list B) (l : list A) :
  (∀ x, x ∈ l → f x = []) → l ≫= f = [].
Proof.
  induction l as [|x l IH]; intros Hf; [done|].
  rewrite bind_cons, Hf by (by left). apply IH. intros y Hy. apply Hf. by right.
Qed.

(** a matrix whose stored entries are all zero has no nonzero position *)
Lemma nonzero_positions_nil (m : mat F) :
  (∀ i j, i < length m → j < length m →
          match cell m i j with Some x => fis_zero x = true | None => True end) →
  nonzero_positions m = [].
Proof.
  intros Hz. unfold nonzero_positions. apply bind_all_nil. intros j Hj.
  apply bind_all_nil. intros i Hi.
  apply elem_of_seq in Hj, Hi. specialize (Hz i j ltac:(lia) ltac:(lia)).
  destruct (cell m i j) as [x|]; [|done]. by rewrite Hz.
Qed.

Lemma length_mzip (f : option F → option F → option F) n (a b : mat F) :
  square n a → square n b → length (mzip f a b) = n.
Proof.
  intros [Ha _] [Hb _]. unfold mzip. rewrite length_zip_with. lia.
Qed.
End matrix_cells.

Section symmetry.
Local Open Scope nat_scope.

(** the matrix of symmetric weights is symmetric *)
Lemma sparse_matrix_symmetric {F : Type} `{Arith F}
    nb (wts : gmap pyid (list F)) ids a b :
  is_order nb ids → closed nb → same_shape nb wts →
  map_Forall (λ _ l, NoDup l) nb →
  (∀ i j x l xs,
     nb !! i = Some l → wts !! i = Some xs → dict_of_zip l xs !! j = Some x →
     ∃ l' xs', nb !! j = Some l' ∧ wts !! j = Some xs'
               ∧ dict_of_zip l' xs' !! i = Some x) →
  a < size nb → b < size nb →
  cell (sparse_matrix nb wts ids) a b = cell (sparse_matrix nb wts ids) b a.
Proof.
  intros Hord Hclosed Hshape Hnd Hsym Ha Hb.
  assert (∀ a b, a < size nb → b < size nb →
            ∀ x, cell (sparse_matrix nb wts ids) a b = Some x →
                 cell (sparse_matrix nb wts ids) b a = Some x) as Hhalf.
  { clear a b Ha Hb. intros a b Ha Hb x Hx.
    rewrite <- (length_order nb ids Hord) in Ha, Hb.
    destruct (lookup_lt_is_Some_2 ids a Ha) as [i Hi].
    destruct (lookup_lt_is_Some_2 ids b Hb) as [j Hj].
    assert (is_Some (nb !! i)) as [l Hl].
    { apply (order_unit nb ids i Hord). by eapply list_elem_of_lookup_2. }
    pose proof (Hshape i) as Hsh. rewrite Hl in Hsh. simpl in Hsh.
    destruct (wts !! i) as [xs|] eqn:Hxs; simpl in Hsh; [|done].
    injection Hsh as Hlen.
    destruct (sparse_matrix_cell nb wts ids Hord Hclosed Hshape i j a b l xs
                Hnd Hi Hj Hl Hxs) as [Hin Hout].
    destruct (decide (j ∈ l)) as [Hjl|Hjl]; [|by rewrite (Hout Hjl) in Hx].
    apply list_elem_of_lookup in Hjl as [p Hp].
    destruct (lookup_lt_is_Some_2 xs p) as [y Hy].
    { rewrite <- Hlen. by eapply lookup_lt_Some. }
    rewrite (Hin p y Hp Hy) in Hx. injection Hx as ->.
    destruct (Hsym i j x l xs Hl Hxs) as (l' & xs' & Hl' & Hxs' & Hd).
    { apply dict_of_zip_lookup; [by apply (Hnd i)|]. by exists p. }
    apply dict_of_zip_lookup in Hd as (q & Hq & Hxq); [|by apply (Hnd j)].
    by apply (sparse_matrix_cell nb wts ids Hord Hclosed Hshape j i b a l' xs'
                Hnd Hj Hi Hl' Hxs') with q. }
  destruct (cell (sparse_matrix nb wts ids) a b) as [x|] eqn:Hab.
  - symmetry. by apply Hhalf.
  - destruct (cell (sparse_matrix nb wts ids) b a) as [y|] eqn:Hba; [|done].
    apply Hhalf in Hba; [|done..]. congruence.
Qed.
End symmetry.

(** symmetry of the rows, from a check of every stored pair *)
Lemma symmetric_by_check {F : Type} `{Arith F} (w : W F) :
  map_Forall
    (λ i l, map_Forall
              (λ j x, (l' ← neighbors w !! j; xs' ← weights w !! j;
                       dict_of_zip l' xs' !! i) = Some x)
              (dict_of_zip l (default [] (weights w !! i))))
    (neighbors w) →
  ∀ i j x di, (__getitem__ i w).1 = Ok (VRow di) → di !! j = Some x →
              ∃ dj, (__getitem__ j w).1 = Ok (VRow dj) ∧ dj !! i = Some x.
Proof.
  intros Hall i j x di Hi Hj. rewrite getitem_eq in Hi. unfold subscript in Hi.
  destruct (neighbors w !! i) as [l|] eqn:Hl; simpl in Hi; [|done].
  destruct (weights w !! i) as [xs|] eqn:Hxs; simpl in Hi; [|done].
  injection Hi as <-. specialize (Hall i l Hl). simpl in Hall.
  rewrite Hxs in Hall. simpl in Hall. specialize (Hall j x Hj). simpl in Hall.
  rewrite getitem_eq. unfold subscript.
  destruct (neighbors w !! j) as [l'|]; simpl in *; [|done].
  destruct (weights w !! j) as [xs'|]; simpl in *; [|done].
  by eexists.
Qed.

(** the stored weights of a constructed container are entries of its
    weights mapping *)
Lemma sparse_matrix_entry {F : Type} `{Arith F} nb (wts : gmap pyid (list F)) ids a b x :
  is_order nb ids → closed nb → same_shape nb wts →
  map_Forall (λ _ l, NoDup l) nb →
  (a < size nb)%nat → (b < size nb)%nat →
  cell (sparse_matrix nb wts ids) a b = Some x →
  ∃ i xs, wts !! i = Some xs ∧ x ∈ xs.
Proof.
  intros Hord Hclosed Hshape Hnd Ha Hb Hx.
  rewrite <- (length_order nb ids Hord) in Ha, Hb.
  destruct (lookup_lt_is_Some_2 ids a Ha) as [i Hi].
  destruct (lookup_lt_is_Some_2 ids b Hb) as [j Hj].
  assert (is_Some (nb !! i)) as [l Hl].
  { apply (order_unit nb ids i Hord). by eapply list_elem_of_lookup_2. }
  pose proof (Hshape i) as Hsh. rewrite Hl in Hsh. simpl in Hsh.
  destruct (wts !! i) as [xs|] eqn:Hxs; simpl in Hsh; [|done].
  injection Hsh as Hlen.
  destruct (sparse_matrix_cell nb wts ids Hord Hclosed Hshape i j a b l xs
              Hnd Hi Hj Hl Hxs) as [Hin Hout].
  destruct (decide (j ∈ l)) as [Hjl|Hjl]; [|by rewrite (Hout Hjl) in Hx].
  apply list_elem_of_lookup in Hjl as [p Hp].
  destruct (lookup_lt_is_Some_2 xs p) as [y Hy].
  { rewrite <- Hlen. by eapply lookup_lt_Some. }
  rewrite (Hin p y Hp Hy) in Hx. injection Hx as ->.
  exists i, xs. split; [done|]. by eapply list_elem_of_lookup_2.
Qed.

(** X24. Symmetric weights.  On a container constructed from neighbors
    that are all units and are listed once each, with aligned weights and a
    valid order (if given), whose weights are finite numbers ([x - x == 0]
    for each of them, which excludes [inf] and [nan]), and in which
    [w[i][j] == x] implies [w[j][i] == x] for all ids, [asymmetry()]
    returns the empty list. *)
Theorem X24_symmetric_weights_no_asymmetry {F : Type} `{Arith F}
    (nb : gmap pyid (list pyid)) (ws : option (gmap pyid (list F)))
    (ord : option (list pyid)) :
  closed nb → map_Forall (λ _ l, NoDup l) nb →
  match ws with Some m => same_shape nb m | None => True end →
  match ord with Some ids => is_order nb ids | None => True end →
  map_Forall (λ _ xs, Forall (λ x, fis_zero (fsub x x) = true) xs)
             (initial_weights nb ws) →
  let w := (__init__ nb ws ord).2 in
  (∀ i j x di, (__getitem__ i w).1 = Ok (VRow di) → di !! j = Some x →
               ∃ dj, (__getitem__ j w).1 = Ok (VRow dj) ∧ dj !! i = Some x) →
  (asymmetry w).1 = Ok (VIds []).
Proof.
  intros Hclosed Hnd Hws Hord Hfin w Hsym.
  pose proof (initial_weights_shape nb ws Hws) as Hshape.
  pose proof (initial_order_valid nb ord Hord) as Hids.
  pose proof (init_consistent nb ws ord Hws) as Hok. fold w in Hok.
  set (wts := initial_weights nb ws) in *. set (ids := initial_order nb ord) in *.
  assert (neighbors w = nb ∧ weights w = wts) as [Hwn Hww].
  { subst w. by rewrite init_state. }
  destruct (the_sparse_spec nb wts ids Hids Hclosed Hshape w Hok)
    as (m1 & w1 & H1 & -> & Hok1).
  destruct (the_sparse_spec nb wts ids Hids Hclosed Hshape w1 Hok1)
    as (m2 & w2 & H2 & -> & Hok2).
  unfold asymmetry. rewrite bind_unfold, H1. cbv iota beta zeta.
  rewrite bind_unfold, H2. cbv iota beta zeta.
  set (M := sparse_matrix nb wts ids).
  pose proof (sparse_matrix_square nb wts ids Hids Hclosed Hshape) as Hsq. fold M in Hsq.
  assert (nonzero_positions (msub (mtranspose M) M) = []) as ->; [|done].
  assert (square (size nb) (mtranspose M)) as Hsqt by (apply square_mtranspose, Hsq).
  apply nonzero_positions_nil. unfold msub.
  rewrite (length_mzip _ (size nb)) by done. intros a b Ha Hb.
  rewrite (cell_mzip (size nb)) by done.
  rewrite cell_mtranspose by (by rewrite (proj1 Hsq)).
  subst M.
  rewrite (sparse_matrix_symmetric nb wts ids b a Hids Hclosed Hshape Hnd); [| |done..].
  - destruct (cell _ a b) as [x|] eqn:Hx; simpl; [|done].
    destruct (sparse_matrix_entry nb wts ids a b x Hids Hclosed Hshape Hnd Ha Hb Hx)
      as (i & xs & Hxs & Hin).
    by apply (proj1 (Forall_forall _ _) (Hfin i xs Hxs)).
  - intros i j x l xs Hl Hxs Hd.
    destruct (Hsym i j x (dict_of_zip l xs)) as (dj & Hj & Hdj); [|done|].
    { rewrite getitem_eq. unfold subscript. by rewrite Hwn, Hww, Hl, Hxs. }
    rewrite getitem_eq in Hj. unfold subscript in Hj. rewrite Hwn, Hww in Hj.
    destruct (nb !! j) as [l'|]; simpl in Hj; [|done].
    destruct (wts !! j) as [xs'|]; simpl in Hj; [|done].
    injection Hj as <-. by exists l', xs'.
Qed.

Lemma X24_symmetric_weights_no_asymmetry_witness :
  let w := (__init__ (F:=float) pair_graph None None).2 in
  (asymmetry w).1 = Ok (VIds []).
Proof.
  refine (X24_symmetric_weights_no_asymmetry pair_graph None None _ _ I I _ _).
  - apply (bool_decide_unpack _). by vm_compute.
  - apply (bool_decide_unpack _). by vm_compute.
  - apply (bool_decide_unpack _). by vm_compute.
  - apply symmetric_by_check. apply (bool_decide_unpack _). by vm_compute.
Defined.

(** ** The number of stored entries *)

Section stored_entries.
Context {F : Type} `{Arith F}.
Local Open Scope nat_scope.

Lemma row_store_length (x : F) (r : list (option F)) (j : nat) :
  r !! j = Some None →
  length (row_data (alter (store x) j r)) = S (length (row_data r)).
Proof.
  revert j. induction r as [|c r IH]; intros j Hj; [done|].
  destruct j as [|j].
  - injection Hj as ->.
    change (alter (store x) 0 (None :: r)) with (store x None :: r).
    by rewrite !row_data_cons.
  - change (alter (store x) (S j) (c :: r)) with (c :: alter (store x) j r).
    rewrite !row_data_cons. destruct c; simpl; by rewrite IH.
Qed.

Lemma nnz_add_entry (m : mat F) (i j : nat) (x : F) r :
  m !! i = Some r → r !! j = Some None →
  nnz (add_entry m (i, j, x)) = S (nnz m).
Proof.
  unfold nnz, add_entry. simpl.
  revert i. induction m as [|r0 m IH]; intros i Hi Hj; [done|].
  destruct i as [|i].
  - injection Hi as ->.
    change (alter (alter (store x) j) 0 (r :: m)) with (alter (store x) j r :: m).
    rewrite !mdata_cons, !length_app, row_store_length by done. lia.
  - change (alter (alter (store x) j) (S i) (r0 :: m))
      with (r0 :: alter (alter (store x) j) i m).
    rewrite !mdata_cons, !length_app, (IH i) by done. lia.
Qed.

Lemma nnz_mzero n : nnz (mzero (F:=F) n) = 0.
Proof.
  unfold nnz, mzero.
  assert (∀ k, row_data (replicate k (None : option F)) = []) as Hrow.
  { induction k as [|k IH]; [done|]. cbn [replicate]. by rewrite row_data_cons. }
  generalize (replicate n (None : option F)) (Hrow n). intros r Hr.
  induction n as [|k IH]; [done|]. cbn [replicate].
  by rewrite mdata_cons, Hr.
Qed.

(** entries at distinct free positions are all stored *)
Lemma nnz_foldl n (ts : list (nat * nat * F)) (m : mat F) :
  square n m → Forall (λ t, t.1.1 < n ∧ t.1.2 < n) ts →
  NoDup ts.*1 → Forall (λ t, cell m t.1.1 t.1.2 = None) ts →
  nnz (foldl add_entry m ts) = nnz m + length ts.
Proof.
  revert m. induction ts as [|[[i j] x] ts IH]; intros m Hm Hts Hnd Hfree.
  { simpl. lia. }
  apply Forall_cons in Hts as [[Hi Hj] Hts]. simpl in Hi, Hj.
  apply Forall_cons in Hfree as [Hij Hfree]. simpl in Hij.
  rewrite fmap_cons in Hnd. apply NoDup_cons in Hnd as [Hfresh Hnd].
  cbn [foldl length]. rewrite IH; [|by apply square_add_entry|done|done|].
  - destruct (cell_lookup n m i j Hm Hi Hj) as (r & Hr & Hc). rewrite Hij in Hc.
    rewrite (nnz_add_entry m i j x r Hr Hc). lia.
  - apply Forall_forall. intros [[a b] y] Hin. simpl.
    rewrite (cell_add_entry n) by done. rewrite decide_False.
    + by apply (proj1 (Forall_forall _ _) Hfree (a, b, y)).
    + intros [= -> ->]. destruct Hfresh. apply list_elem_of_fmap. by exists (a, b, y).
Qed.

Lemma length_bind_list {A B} (f : A → list B) (l : list A) :
  length (l ≫= f) = sum_list ((λ x, length (f x)) <$> l).
Proof.
  induction l as [|x l IH]; [done|]. rewrite bind_cons, length_app, IH. done.
Qed.

Lemma offsets_keys_perm nb ids :
  is_order nb ids → (map_to_list (offsets_map nb ids)).*1 ≡ₚ ids.
Proof.
  intros Hord.
  apply NoDup_Permutation; [apply NoDup_fst_map_to_list|apply Hord|].
  intros i. rewrite (order_unit nb ids i Hord).
  rewrite list_elem_of_fmap. split.
  - intros ([i' nl] & -> & Hin). apply elem_of_map_to_list in Hin.
    unfold offsets_map in Hin. rewrite lookup_fmap in Hin. simpl.
    destruct (nb !! i'); [by eexists|done].
  - intros [l Hl]. exists (i, offsets_of ids l). split; [done|].
    apply elem_of_map_to_list. unfold offsets_map. by rewrite lookup_fmap, Hl.
Qed.

(** The matrix of a well-formed container whose neighbors are listed once
    each stores one entry per listed neighbor. *)
Lemma nnz_sparse_matrix nb (wts : gmap pyid (list F)) ids :
  is_order nb ids → closed nb → same_shape nb wts →
  map_Forall (λ _ l, NoDup l) nb →
  nnz (sparse_matrix nb wts ids)
  = sum_list ((λ i, length (default [] (nb !! i))) <$> ids).
Proof.
  intros Hord Hclosed Hshape Hnd.
  destruct (sparse_matrix_triples nb wts ids Hord Hclosed Hshape) as [-> Hrange].
  rewrite (nnz_foldl (size nb)); [|apply square_mzero|done|by apply triples_NoDup|].
  2:{ apply Forall_forall. intros t _. apply cell_mzero. }
  rewrite nnz_mzero, length_bind_list. simpl.
  assert (sum_list ((λ i, length (default [] (nb !! i))) <$> ids)
          = sum_list ((λ i, length (default [] (nb !! i)))
                        <$> (map_to_list (offsets_map nb ids)).*1)) as ->.
  { apply (sum_list_with_Permutation_proper id), fmap_Permutation.
    symmetry. by apply offsets_keys_perm. }
  rewrite <- list_fmap_compose. f_equal.
  apply Forall_fmap_ext, Forall_forall. intros [i nl] Hin.
  destruct (unit_triples_item nb wts ids Hord Hshape i nl Hin)
    as (l & x & k & Hl & Hx & Hlen & Hk & Hlt & -> & Ht).
  simpl. rewrite Ht, Hl. simpl.
  rewrite !length_zip_with, length_replicate. unfold offsets_of.
  rewrite length_fmap. lia.
Qed.
End stored_entries.

(** two dictionaries of lists have one shape when their lengths agree *)
Lemma same_shape_check {A B} (a : gmap pyid (list A)) (b : gmap pyid (list B)) :
  length <$> a = length <$> b → same_shape a b.
Proof.
  intros Heq i. by rewrite <- !lookup_fmap, Heq.
Qed.

(** X25. [nonzero] counts the stored entries, whatever their values: on a
    container constructed from neighbors that are all units and are listed
    once each, with aligned weights and a valid order (if given), it is the
    total number of listed neighbors, weights equal to zero included. *)
Theorem X25_nonzero_counts_the_links {F : Type} `{Arith F}
    (nb : gmap pyid (list pyid)) (ws : option (gmap pyid (list F)))
    (ord : option (list pyid)) :
  closed nb → map_Forall (λ _ l, NoDup l) nb →
  match ws with Some m => same_shape nb m | None => True end →
  match ord with Some ids => is_order nb ids | None => True end →
  let w := (__init__ nb ws ord).2 in
  (nonzero w).1
  = Ok (VInt (sum_list ((λ i, length (default [] (neighbors w !! i))) <$> _id_order w))).
Proof.
  intros Hclosed Hnd Hws Hord w.
  pose proof (initial_weights_shape nb ws Hws) as Hshape.
  pose proof (initial_order_valid nb ord Hord) as Hids.
  pose proof (init_consistent nb ws ord Hws) as Hok. fold w in Hok.
  destruct (the_sparse_spec nb _ _ Hids Hclosed Hshape w Hok) as (m & w1 & H1 & -> & _).
  unfold nonzero. erewrite memo_miss.
  - cbn [fst]. reflexivity.
  - subst w. by rewrite init_state.
  - rewrite bind_unfold, H1. cbv iota beta.
    rewrite nnz_sparse_matrix by done. subst w. by rewrite init_state.
Qed.

Lemma X25_nonzero_counts_the_links_witness :
  let w := (__init__ (F:=float) pair_graph
              (Some {[IdInt 0 := [0%float]; IdInt 1 := [1%float]]}) None).2 in
  (nonzero w).1
  = Ok (VInt (sum_list ((λ i, length (default [] (neighbors w !! i))) <$> _id_order w))).
Proof.
  refine (X25_nonzero_counts_the_links (F:=float) pair_graph
            (Some {[IdInt 0 := [0%float]; IdInt 1 := [1%float]]}) None _ _ _ I).
  - apply (bool_decide_unpack _). by vm_compute.
  - apply (bool_decide_unpack _). by vm_compute.
  - apply same_shape_check. apply (bool_decide_unpack _). by vm_compute.
Defined.

(** X26. Assigning the observation order: when the new list has the ids of
    the current order (in any order, repetitions included) and the current
    order names units only, the assignment returns normally, [id_order]
    returns the new list, [id_order_set] is [True], and iteration yields
    [w[id]] for each id of the new list, in its order. *)
Theorem X26_reordering_reorders_iteration {F : Type} `{Arith F}
    (w : W F) (ids' : list pyid) :
  list_to_set (_id_order w) =@{gset pyid} list_to_set ids' →
  Forall (λ i, is_Some (neighbors w !! i) ∧ is_Some (weights w !! i)) (_id_order w) →
  let w' := (__set_id_order ids' w).2 in
  (__set_id_order ids' w).1 = Ok tt
  ∧ (__get_id_order w').1 = Ok ids'
  ∧ (id_order_set w').1 = Ok true
  ∧ ∃ rows, iterate w' = (Ok rows, w')
            ∧ Forall2 (λ i r, (__getitem__ i w).1 = Ok r) ids' rows.
Proof.
  intros Hset Hids. rewrite (set_id_order_match ids' w Hset). cbn [fst snd].
  set (w' := set__cache ∅ _).
  split; [done|]. split; [done|]. split; [done|].
  assert (Forall (λ i, is_Some (neighbors w' !! i) ∧ is_Some (weights w' !! i))
                 (_id_order w')) as Hids'.
  { subst w'. simpl. apply Forall_forall. intros i Hi.
    apply (proj1 (Forall_forall _ _) Hids).
    apply (elem_of_list_to_set (C:=gset pyid)). rewrite Hset.
    by apply elem_of_list_to_set. }
  destruct (getitem_rows w' _ Hids') as [rows Hrows].
  exists rows. split.
  - rewrite iterate_eq. cbv zeta.
    pose proof (drain_rows w' (length (_id_order w')) 0 [] rows eq_refl) as Hd.
    rewrite Nat.sub_0_r in Hd. by rewrite Hd.
  - eapply Forall2_impl; [exact Hrows|]. intros i r Hr. simpl in Hr.
    rewrite getitem_eq in Hr. rewrite getitem_eq. subst w'. simpl in *.
    by injection Hr as ->.
Qed.

Lemma X26_reordering_reorders_iteration_witness :
  let ids' := [IdInt 2; IdInt 0; IdInt 1; IdInt 0] in
  let w' := (__set_id_order ids' path_W).2 in
  (__set_id_order ids' path_W).1 = Ok tt
  ∧ (__get_id_order w').1 = Ok ids'
  ∧ (id_order_set w').1 = Ok true
  ∧ ∃ rows, iterate w' = (Ok rows, w')
            ∧ Forall2 (λ i r, (__getitem__ i path_W).1 = Ok r) ids' rows.
Proof.
  apply (X26_reordering_reorders_iteration path_W
           [IdInt 2; IdInt 0; IdInt 1; IdInt 0]).
  - apply (bool_decide_unpack _). by vm_compute.
  - apply (bool_decide_unpack _). by vm_compute.
Defined.

(** ** The keys of the cache *)

Create HintDb keys discriminated.

Section cache_keys.
Context {F : Type} `{Arith F}.
Local Abbreviation ks := (adds_stored_keys (F:=F)).

#[local] Instance adds_stored_keys_preorder : PreOrder ks.
Proof.
  split.
  - intros w. apply union_subseteq_l.
  - intros w1 w2 w3 H12 H23 k Hk. apply H23 in Hk.
    apply elem_of_union in Hk as [Hk|Hk]; [by apply H12|].
    by apply elem_of_union_r.
Qed.

Lemma keys_same_cache (w w' : W F) : _cache w' = _cache w → ks w w'.
Proof. intros Hc. unfold adds_stored_keys. rewrite Hc. apply union_subseteq_l. Qed.

Lemma keys_cached k : stable ks (cached k).
Proof. intros w. reflexivity. Qed.

Lemma keys_getattr a : stable ks (getattr a).
Proof. intros w. unfold getattr. destruct (attrs_of w !! a); reflexivity. Qed.

Lemma keys_setattr a v : stable ks (setattr a v).
Proof. intros w. by apply keys_same_cache. Qed.

Lemma keys_cache_put k v : k ∈ stored_keys → stable ks (cache_put k v).
Proof.
  intros Hk w. unfold adds_stored_keys, cache_put, modify. simpl.
  rewrite dom_insert. intros x Hx.
  apply elem_of_union in Hx as [Hx|Hx]; [|by apply elem_of_union_l].
  apply elem_of_singleton in Hx as ->. by apply elem_of_union_r.
Qed.

Lemma keys_reset : stable ks _reset.
Proof.
  intros w. unfold adds_stored_keys. simpl. rewrite dom_empty.
  apply empty_subseteq.
Qed.

Lemma keys_memo check store attr compute :
  store ∈ stored_keys → stable ks compute → stable ks (memo check store attr compute).
Proof.
  intros Hk Hc. unfold memo.
  apply (stable_bind ks); [apply keys_cached|intros c].
  apply (stable_bind ks); [|intros; apply keys_getattr].
  destruct c; [apply (stable_ret ks)|].
  apply (stable_bind ks); [done|intros v].
  apply (stable_bind ks); [apply keys_setattr|intros _].
  apply (stable_bind ks); [apply keys_getattr|intros v'].
  by apply keys_cache_put.
Qed.

Ltac stored_key := apply (bool_decide_unpack _); vm_compute; exact I.

(** one step of a proof on the keys of the cache *)
Ltac keys_step :=
  lazymatch goal with
  | |- stable _ (memo _ _ _ _) => apply keys_memo; [stored_key|]
  | |- stable _ (cached _) => apply keys_cached
  | |- stable _ (getattr _) => apply keys_getattr
  | |- stable _ (setattr _ _) => apply keys_setattr
  | |- stable _ (cache_put _ _) => apply keys_cache_put; stored_key
  | |- stable _ _reset => apply keys_reset
  | |- stable _ (mret _) => apply (stable_ret ks)
  | |- stable _ (raise _) => apply (stable_raise ks)
  | |- stable _ (lift _) => apply (stable_lift ks)
  | |- stable _ (reads _) => apply (stable_reads ks)
  | |- stable _ (modify _) =>
    apply (stable_modify ks); intros ?; by apply keys_same_cache
  | |- stable _ (for_each _ _ _) => apply (stable_for_each ks); intros ? ?
  | |- stable _ (if _ then _ else _) => apply (stable_if ks)
  | |- stable _ (_ ≫= _) => apply (stable_bind ks); [|intros ?]
  | |- stable _ ?m =>
    match m with
    | context [let '(_, _) := ?x in _] => is_var x; destruct x
    | context [match ?x with _ => _ end] => is_var x; destruct x
    | _ => solve [auto 3 with keys nocore]
    end
  end.
Ltac keys_auto := repeat keys_step.

Lemma keys_id2i : stable ks id2i.
Proof. unfold id2i. keys_auto. Qed.
Hint Resolve keys_id2i : keys.

Lemma keys_n : stable ks n.
Proof. unfold n. keys_auto. Qed.
Hint Resolve keys_n : keys.

Lemma keys_cardinalities : stable ks cardinalities.
Proof. unfold cardinalities. keys_auto. Qed.
Hint Resolve keys_cardinalities : keys.

Lemma keys_neighbor_offsets : stable ks neighbor_offsets.
Proof. unfold neighbor_offsets. keys_auto. Qed.
Hint Resolve keys_neighbor_offsets : keys.

Lemma keys__build_sparse : stable ks _build_sparse.
Proof. unfold _build_sparse. keys_auto. Qed.
Hint Resolve keys__build_sparse : keys.

Lemma keys_sparse : stable ks sparse.
Proof. unfold sparse. keys_auto. Qed.
Hint Resolve keys_sparse : keys.

Lemma keys_the_sparse : stable ks the_sparse.
Proof. unfold the_sparse. keys_auto. Qed.
Hint Resolve keys_the_sparse : keys.

Lemma keys_s0 : stable ks s0.
Proof. unfold s0. keys_auto. Qed.
Hint Resolve keys_s0 : keys.

Lemma keys_s1 : stable ks s1.
Proof. unfold s1. keys_auto. Qed.

Lemma keys_s2array : stable ks s2array.
Proof. unfold s2array. keys_auto. Qed.
Hint Resolve keys_s2array : keys.

Lemma keys_array_sum g : stable ks g → stable ks (array_sum g).
Proof. intros Hg. unfold array_sum. keys_auto. Qed.
Hint Resolve keys_array_sum : keys.

Lemma keys_s2 : stable ks s2.
Proof. unfold s2. keys_auto. Qed.

Lemma keys_diagW2 : stable ks diagW2.
Proof. unfold diagW2. keys_auto. Qed.
Hint Resolve keys_diagW2 : keys.

Lemma keys_trcW2 : stable ks trcW2.
Proof. unfold trcW2. keys_auto. Qed.

Lemma keys_diagWtW : stable ks diagWtW.
Proof. unfold diagWtW. keys_auto. Qed.
Hint Resolve keys_diagWtW : keys.

Lemma keys_trcWtW : stable ks trcWtW.
Proof. unfold trcWtW. keys_auto. Qed.

Lemma keys_diagWtW_WW : stable ks diagWtW_WW.
Proof. unfold diagWtW_WW. keys_auto. Qed.
Hint Resolve keys_diagWtW_WW : keys.

Lemma keys_trcWtW_WW : stable ks trcWtW_WW.
Proof. unfold trcWtW_WW. keys_auto. Qed.

Lemma keys_pct_nonzero : stable ks pct_nonzero.
Proof. unfold pct_nonzero. keys_auto. Qed.

Lemma keys_cardinality_values : stable ks cardinality_values.
Proof. unfold cardinality_values. keys_auto. Qed.
Hint Resolve keys_cardinality_values : keys.

Lemma keys_max_neighbors : stable ks max_neighbors.
Proof. unfold max_neighbors. keys_auto. Qed.
Hint Resolve keys_max_neighbors : keys.

Lemma keys_mean_neighbors : stable ks mean_neighbors.
Proof. unfold mean_neighbors. keys_auto. Qed.

Lemma keys_min_neighbors : stable ks min_neighbors.
Proof. unfold min_neighbors. keys_auto. Qed.
Hint Resolve keys_min_neighbors : keys.

Lemma keys_nonzero : stable ks nonzero.
Proof. unfold nonzero. keys_auto. Qed.

Lemma keys_sd : stable ks sd.
Proof. unfold sd. keys_auto. Qed.

Lemma keys_asymmetry : stable ks asymmetry.
Proof. unfold asymmetry. keys_auto. Qed.
Hint Resolve keys_asymmetry : keys.

Lemma keys_asymmetries : stable ks asymmetries.
Proof. unfold asymmetries. keys_auto. Qed.

Lemma keys_islands : stable ks islands.
Proof. unfold islands. keys_auto. Qed.

Lemma keys_histogram : stable ks histogram.
Proof. unfold histogram. keys_auto. Qed.

(** iteration does not change the container *)
Lemma next_container (w : W F) it : (next (w, it)).2.1 = w.
Proof.
  destruct it as [k i]. destruct (decide (k ≤ i)%nat) as [Hk|Hk].
  { by rewrite next_stop. }
  destruct (_id_order w !! i) as [key|] eqn:Hi.
  - rewrite (next_row w k i key) by (done || lia).
    by destruct ((__getitem__ key w).1).
  - unfold next. rewrite bind_unfold. simpl.
    rewrite bool_decide_eq_false_2 by lia.
    rewrite bind_unfold. unfold on_w at 1. simpl. rewrite bind_unfold.
    by rewrite Hi.
Qed.

Lemma drain_container bound rows (w : W F) it : (drain bound rows (w, it)).2.1 = w.
Proof.
  revert rows it. induction bound as [|b IH]; intros rows it; simpl.
  - pose proof (next_container w it) as Hn.
    destruct (next (w, it)) as [[v|e] [w' it']]; simpl in *; [done|].
    by destruct e.
  - pose proof (next_container w it) as Hn.
    destruct (next (w, it)) as [[v|e] [w' it']]; simpl in *.
    + subst w'. apply IH.
    + by destruct e.
Qed.

Lemma iterate_container (w : W F) : (iterate w).2 = w.
Proof. rewrite iterate_eq. cbv zeta. apply drain_container. Qed.

Lemma keys_run_query q : stable ks (run_query q).
Proof.
  destruct q; simpl;
    try (first [apply keys_sparse|apply keys_s0|apply keys_s1|apply keys_s2
               |apply keys_s2array|apply keys_trcW2|apply keys_diagW2
               |apply keys_trcWtW|apply keys_diagWtW|apply keys_trcWtW_WW
               |apply keys_diagWtW_WW|apply keys_pct_nonzero|apply keys_nonzero
               |apply keys_cardinalities|apply keys_max_neighbors
               |apply keys_min_neighbors|apply keys_mean_neighbors|apply keys_sd
               |apply keys_histogram|apply keys_islands|apply keys_asymmetries
               |apply keys_asymmetry|apply keys_id2i|apply keys_neighbor_offsets
               |apply keys_n]).
  - intros w. rewrite getitem_eq. reflexivity.
  - intros w. pose proof (iterate_container w) as Hw.
    destruct (iterate w) as [[rows|e] w']; simpl in *; subst w'; reflexivity.
Qed.

Lemma keys_install u m : stable ks (install u m).
Proof. unfold install. keys_auto. Qed.
Hint Resolve keys_install : keys.

Lemma keys_row_standardized : stable ks row_standardized.
Proof. unfold row_standardized. keys_auto. Qed.
Hint Resolve keys_row_standardized : keys.

Lemma keys_doubly_standardized : stable ks doubly_standardized.
Proof. unfold doubly_standardized. keys_auto. Qed.
Hint Resolve keys_doubly_standardized : keys.

Lemma keys_binary : stable ks binary.
Proof. unfold binary. keys_auto. Qed.
Hint Resolve keys_binary : keys.

Lemma keys_variance_stabilized : stable ks variance_stabilized.
Proof. unfold variance_stabilized. keys_auto. Qed.
Hint Resolve keys_variance_stabilized : keys.

Lemma keys_set_transform v : stable ks (set_transform v).
Proof.
  unfold set_transform.
  apply (stable_bind ks); [keys_auto|intros _].
  apply (stable_bind ks); [keys_auto|intros registry].
  destruct (registry !! upper v); keys_auto.
Qed.

Lemma keys_set_id_order ids : stable ks (__set_id_order ids).
Proof. unfold __set_id_order. keys_auto. Qed.

Lemma keys_mutate mu : stable ks (mutate mu).
Proof.
  destruct mu; simpl; [apply keys_set_transform|].
  apply (stable_bind ks); [apply keys_set_id_order|intros _].
  apply (stable_ret ks).
Qed.
End cache_keys.

(** X27. The keys that [trcW2] and [diagW2] test are never in the cache.
    [trcW2] tests ['trcW2'] and stores under ['trcw2'], [diagW2] tests
    ['diagw2'] and stores under ['diagW2']; no method stores under a tested
    key of these two.  So a constructed container has neither key in its
    cache, and no query and no mutation adds one: both properties are
    computed anew on every read. *)
Theorem X27_trcW2_and_diagW2_are_never_cached {F : Type} `{Arith F} :
  let fresh (w : W F) :=
    _cache w !! "trcW2" = None ∧ _cache w !! "diagw2" = None in
  (∀ nb ws ord, fresh (__init__ nb ws ord).2)
  ∧ (∀ q w, fresh w → fresh (run_query q w).2)
  ∧ (∀ mu w, fresh w → fresh (mutate mu w).2).
Proof.
  intros fresh.
  assert (∀ w w' : W F, adds_stored_keys w w' → fresh w → fresh w') as Hstep.
  { intros w w' Hk [H1 H2]. unfold adds_stored_keys in Hk.
    split; apply not_elem_of_dom; intros Hin; apply Hk in Hin;
      apply elem_of_union in Hin as [Hin|Hin].
    - by apply not_elem_of_dom in H1.
    - revert Hin. apply (bool_decide_unpack _). by vm_compute.
    - by apply not_elem_of_dom in H2.
    - revert Hin. apply (bool_decide_unpack _). by vm_compute. }
  split; [|split].
  - intros nb ws ord. rewrite init_state. by split.
  - intros q w. apply Hstep, keys_run_query.
  - intros mu w. apply Hstep, keys_mutate.
Qed.

(** ** Row standardization that returns *)

Section row_standardized_facts.
Context {F : Type} `{Arith F}.

(** weights whose rows are empty or have a nonzero sum: every row is
    divided by its sum *)
Lemma row_standardized_returns (w : W F) :
  map_Forall (λ _ x, x ≠ [] → fis_zero (fmul (fsum x) fone) = false) (weights w) →
  row_standardized w = (Ok (row_standardize <$> weights w), w).
Proof.
  intros Hsum. unfold row_standardized. rewrite bind_unfold. simpl.
  erewrite (for_each_pure
              (λ '(i, wijs) weights,
                 match traverse (λ wij, py_div wij (fmul (fsum wijs) fone)) wijs with
                 | Ok r => Ok (<[i := r]> weights)
                 | Raise e => Raise e
                 end)).
  2:{ intros [i wijs] b s. rewrite bind_unfold. unfold lift.
      by destruct (traverse _ wijs). }
  rewrite (fold_result_foldl _ (λ d kx, <[kx.1 := row_standardize kx.2]> d)).
  { by rewrite foldl_insert_items. }
  intros [i x] b Hin. apply elem_of_map_to_list in Hin.
  specialize (Hsum i x Hin). simpl in Hsum.
  rewrite traverse_py_div. unfold row_standardize. simpl.
  destruct x as [|y x]; [by destruct (fis_zero _)|].
  by rewrite Hsum.
Qed.
End row_standardized_facts.

(** X28. Row standardization of a newly constructed container in which
    the weights of every unit are empty or have a nonzero sum
    [sum(wijs)*1.0]: [w.transform = 'r'] returns without a message; each
    weight of a unit is then its given weight divided by that sum, a unit
    without weights keeps the empty list (no division takes place for it),
    the new weights are registered under ['R'] beside the original ones, and
    the cache is empty. *)
Theorem X28_row_standardized_rows {F : Type} `{Arith F}
    (nb : gmap pyid (list pyid)) (ws : option (gmap pyid (list F)))
    (ord : option (list pyid)) :
  map_Forall (λ _ x, x ≠ [] → fis_zero (fmul (fsum x) fone) = false)
             (initial_weights nb ws) →
  let given := initial_weights nb ws in
  let w := (set_transform "R" (__init__ nb ws ord).2).2 in
  (set_transform "R" (__init__ nb ws ord).2).1 = Ok []
  ∧ _transform w = "R"
  ∧ (∀ i, weights w !! i
          = (λ wijs, (λ wij, fdiv wij (fmul (fsum wijs) fone)) <$> wijs) <$> given !! i)
  ∧ (∀ i, given !! i = Some [] → weights w !! i = Some [])
  ∧ transformations w !! "R" = Some (weights w)
  ∧ transformations w !! "O" = Some given
  ∧ _cache w = ∅.
Proof.
  intros Hsum given w. subst w. rewrite init_state. fold given.
  unfold set_transform.
  rewrite bind_unfold. simpl. rewrite bind_unfold. simpl.
  change (upper_ascii "R") with "R"%char.
  rewrite lookup_singleton_ne by done.
  change (String.eqb "R" "R") with true. cbv iota.
  rewrite bind_unfold, row_standardized_returns by done.
  cbv iota beta. rewrite bind_unfold, install_eq. simpl.
  split; [done|]. split; [done|]. split.
  { intros i. by rewrite lookup_fmap. }
  split.
  { intros i Hi. by rewrite lookup_fmap, Hi. }
  split; [by rewrite lookup_insert_eq|].
  split; [|done].
  rewrite lookup_insert_ne by done. by rewrite lookup_singleton_eq.
Qed.

Lemma X28_row_standardized_rows_witness :
  let given := initial_weights (F:=float) lattice None in
  let w := (set_transform "R" (__init__ lattice None None).2).2 in
  (set_transform "R" (__init__ (F:=float) lattice None None).2).1 = Ok []
  ∧ _transform w = "R"
  ∧ (∀ i, weights w !! i
          = (λ wijs, (λ wij, fdiv wij (fmul (fsum wijs) fone)) <$> wijs) <$> given !! i)
  ∧ (∀ i, given !! i = Some [] → weights w !! i = Some [])
  ∧ transformations w !! "R" = Some (weights w)
  ∧ transformations w !! "O" = Some given
  ∧ _cache w = ∅.
Proof.
  apply (X28_row_standardized_rows (F:=float) lattice None None).
  apply (bool_decide_unpack _). by vm_compute.
Defined.
